(** * Cheapest mod assignments of the loadout builder

    A shallow embedding of [getCheapestModAssignments] and of the helpers it
    is built from ([buildItemEnergy], [isBucketSpecificModValid],
    [isActivityModValid], [isCombatModValid], [calculateEnergyChange]),
    followed by the properties of the search that the specification states.

    Numbers that the code uses as energies and hashes are integers ([Z]);
    list lengths are naturals.  A JavaScript
    [Map] is an association list kept in insertion order, which is the order
    the code iterates it in.  Reading a property of [undefined] raises a
    [TypeError]; the embedding makes that outcome explicit as [Throw]. *)

From Stdlib Require Import ZArith List String Bool Lia Permutation Arith.
From Stdlib Require Import Sorted RelationClasses.
From Stdlib Require Import DecimalString DecimalZ Ascii.
Import ListNotations.

Set Implicit Arguments.

(** ** The error monad: a value, or an uncaught [TypeError] *)

Inductive Result (A : Type) : Type :=
| Ok (a : A)
| Throw.

Arguments Ok {A} a.
Arguments Throw {A}.

Definition bind {A B : Type} (r : Result A) (k : A -> Result B) : Result B :=
  match r with
  | Ok a => k a
  | Throw => Throw
  end.

Notation "x <- r ;; k" := (bind r (fun x => k))
  (at level 61, r at next level, right associativity).

(** [deref o] is the use of [o] as an object: it throws on [undefined]. *)
Definition deref {A : Type} (o : option A) : Result A :=
  match o with
  | Some a => Ok a
  | None => Throw
  end.

Fixpoint foldM {A B : Type} (f : B -> A -> Result B) (l : list A) (b : B)
  : Result B :=
  match l with
  | [] => Ok b
  | a :: l' => b' <- f b a ;; foldM f l' b'
  end.

(** ** JavaScript maps keyed by strings, in insertion order *)

Module JsMap.

Definition t (V : Type) : Type := list (string * V).

Definition empty {V : Type} : t V := [].

(** [Map.prototype.set]: an existing key keeps its position. *)
Fixpoint set {V : Type} (k : string) (v : V) (m : t V) : t V :=
  match m with
  | [] => [(k, v)]
  | (k', v') :: m' =>
      if String.eqb k k' then (k, v) :: m' else (k', v') :: set k v m'
  end.

(** [Map.prototype.get], [None] being [undefined]. *)
Fixpoint get {V : Type} (k : string) (m : t V) : option V :=
  match m with
  | [] => None
  | (k', v') :: m' => if String.eqb k k' then Some v' else get k m'
  end.

Definition keys {V : Type} (m : t V) : list string := map fst m.

Definition values {V : Type} (m : t V) : list V := map snd m.

(** lodash's [_.mapValues]. *)
Definition mapValues {V W : Type} (f : V -> W) (m : t V) : t W :=
  map (fun kv => (fst kv, f (snd kv))) m.

(** lodash's [_.keyBy]: a later element with the same key wins. *)
Definition keyBy {V : Type} (key : V -> string) (l : list V) : t V :=
  fold_left (fun m v => set (key v) v m) l empty.

End JsMap.

(** ** Data model *)

(** [DestinyEnergyType] of bungie-api-ts, with its numeric values. *)
Inductive DestinyEnergyType : Type :=
| Any | Arc | Thermal | Void | Ghost | Subclass | Stasis.

Definition energyTypeValue (t : DestinyEnergyType) : Z :=
  match t with
  | Any => 0 | Arc => 1 | Thermal => 2 | Void => 3
  | Ghost => 4 | Subclass => 5 | Stasis => 6
  end%Z.

(** [a === b] on energy types. *)
Definition energyType_eqb (a b : DestinyEnergyType) : bool :=
  Z.eqb (energyTypeValue a) (energyTypeValue b).

Record DestinyItemEnergyCost : Type := {
  energyCost : Z;
  energyType : DestinyEnergyType
}.

Record Plug : Type := {
  plugCategoryHash : Z;
  plug_energyCost : option DestinyItemEnergyCost
}.

Record PluggableInventoryItemDefinition : Type := {
  hash : Z;
  plug : Plug
}.

Abbreviation Mod := PluggableInventoryItemDefinition.

Record DimItemEnergy : Type := {
  energyCapacity : Z;
  item_energyType : DestinyEnergyType
}.

Record DimItem : Type := {
  id : string;
  bucket_hash : Z;
  energy : option DimItemEnergy
}.

Record ModSocketMetadata : Type := {
  compatibleModTags : list string
}.

Record ModAssignments : Type := {
  assigned : list Mod;
  unassigned : list Mod
}.

Record ItemEnergy : Type := {
  used : Z;
  originalCapacity : Z;
  derivedCapacity : Z;
  originalType : DestinyEnergyType;
  derivedType : DestinyEnergyType
}.

(** [mod.plug.energyCost?.energyCost || 0] *)
Definition modCost (mod' : Mod) : Z :=
  match plug_energyCost (plug mod') with
  | Some c => energyCost c
  | None => 0%Z
  end.

(** [mod.plug.energyCost?.energyType || DestinyEnergyType.Any] *)
Definition modEnergyType (mod' : Mod) : DestinyEnergyType :=
  match plug_energyCost (plug mod') with
  | Some c => energyType c
  | None => Any
  end.

(** lodash's [_.sumBy]. *)
Fixpoint sumBy {A : Type} (f : A -> Z) (l : list A) : Z :=
  match l with
  | [] => 0%Z
  | x :: l' => (f x + sumBy f l')%Z
  end.

(** ** Collaborators imported from other modules of the application

    The functions and tables below are imported by the source file and are
    not part of it; the development is parametric in them. *)

Class Collaborators : Type := {
  D2ManifestDefinitions : Type;
  UpgradeSpendTier : Type;
  upgradeSpendTierToMaxEnergy :
    D2ManifestDefinitions -> UpgradeSpendTier -> DimItem -> Z;
  getItemEnergyType :
    D2ManifestDefinitions -> DimItem -> UpgradeSpendTier -> bool ->
    list Mod -> DestinyEnergyType;
  (** [isModEnergyValid(itemEnergy, modToAssign, ...assignedMods)] *)
  isModEnergyValid : ItemEnergy -> Mod -> list Mod -> bool;
  (** a permutation is an array whose entries are mods or [null] *)
  generateModPermutations : list Mod -> list (list (option Mod));
  getModTypeTagByPlugCategoryHash : Z -> option string;
  getSpecialtySocketMetadatas : DimItem -> option (list ModSocketMetadata);
  (** [bucketsToCategories[bucketHash]], [None] when the bucket has no entry *)
  bucketsToCategories : Z -> option Z;
  armor2PlugCategoryHashesByName_general : Z;
  combatCompatiblePlugCategoryHashes : list Z;
  activityModPlugCategoryHashes : list Z
}.

(** ** The source functions *)

Section Source.

Context {C : Collaborators}.

Definition buildItemEnergy (defs : D2ManifestDefinitions) (item : DimItem)
    (assignedMods : list Mod) (upgradeSpendTier : UpgradeSpendTier)
    (lockItemEnergyType : bool) : ItemEnergy :=
  {| used := sumBy modCost assignedMods;
     originalCapacity :=
       match energy item with Some e => energyCapacity e | None => 0%Z end;
     derivedCapacity := upgradeSpendTierToMaxEnergy defs upgradeSpendTier item;
     originalType :=
       match energy item with Some e => item_energyType e | None => Any end;
     derivedType :=
       getItemEnergyType defs item upgradeSpendTier lockItemEnergyType
         assignedMods |}.

Definition isBucketSpecificModValid (defs : D2ManifestDefinitions)
    (upgradeSpendTier : UpgradeSpendTier) (lockItemEnergyType : bool)
    (item : DimItem) (mod' : Mod) (assignedMods : list Mod) : bool :=
  let itemEnergyCapacity :=
    upgradeSpendTierToMaxEnergy defs upgradeSpendTier item in
  let itemEnergyType :=
    getItemEnergyType defs item upgradeSpendTier lockItemEnergyType
      assignedMods in
  let energyUsed := sumBy modCost assignedMods in
  let modCost := modCost mod' in
  let modEnergyType := modEnergyType mod' in
  let energyTypeIsValid :=
    energyType_eqb modEnergyType itemEnergyType
    || energyType_eqb modEnergyType Any
    || energyType_eqb itemEnergyType Any in
  energyTypeIsValid && (energyUsed + modCost <=? itemEnergyCapacity)%Z.

(** [itemSocketMetadata?.some(metadata =>
      metadata.compatibleModTags.includes(modTag))], as a truth value. *)
Definition someMetadataIncludes
    (itemSocketMetadata : option (list ModSocketMetadata))
    (modTag : string) : bool :=
  match itemSocketMetadata with
  | Some metadatas =>
      existsb (fun metadata =>
                 existsb (String.eqb modTag) (compatibleModTags metadata))
              metadatas
  | None => false
  end.

(** The truth value of [modTag && sockets.some(...)]: a tag that is
    [undefined] or the empty string is falsy. *)
Definition tagFits (modTag : option string)
    (itemSocketMetadata : option (list ModSocketMetadata)) : bool :=
  match modTag with
  | Some tag =>
      negb (String.eqb tag EmptyString)
      && someMetadataIncludes itemSocketMetadata tag
  | None => false
  end.

(** The validity predicates return the value of an [&&] chain, which the
    caller only tests; the embedding returns its truth value. *)
Definition isActivityModValid (activityMod : Mod)
    (itemSocketMetadata : option (list ModSocketMetadata))
    (itemEnergy : ItemEnergy) : bool :=
  let modTag :=
    getModTypeTagByPlugCategoryHash (plugCategoryHash (plug activityMod)) in
  isModEnergyValid itemEnergy activityMod []
  && tagFits modTag itemSocketMetadata.

Definition isCombatModValid (combatMod : Mod) (assignedMods : list Mod)
    (itemSocketMetadata : option (list ModSocketMetadata))
    (itemEnergy : ItemEnergy) : bool :=
  let modTag :=
    getModTypeTagByPlugCategoryHash (plugCategoryHash (plug combatMod)) in
  isModEnergyValid itemEnergy combatMod assignedMods
  && tagFits modTag itemSocketMetadata.

(** The loop of [calculateEnergyChange] that resolves the final type: it
    stops at the first mod once the type is no longer [Any]. *)
Fixpoint resolveFinalEnergy (finalEnergy : DestinyEnergyType)
    (assignedMods : list Mod) : DestinyEnergyType :=
  match assignedMods with
  | [] => finalEnergy
  | mod' :: rest =>
      if negb (energyType_eqb finalEnergy Any) then finalEnergy
      else
        match plug_energyCost (plug mod') with
        | Some c =>
            if negb (energyTypeValue (energyType c) =? 0)%Z
            then resolveFinalEnergy (energyType c) rest
            else resolveFinalEnergy finalEnergy rest
        | None => resolveFinalEnergy finalEnergy rest
        end
  end.

Definition calculateEnergyChange (itemEnergy : ItemEnergy)
    (assignedMods : list Mod) : Z :=
  let finalEnergy := resolveFinalEnergy (derivedType itemEnergy) assignedMods in
  let modCost := (used itemEnergy + sumBy modCost assignedMods)%Z in
  let energyUsedAndWasted := (modCost + originalCapacity itemEnergy)%Z in
  let energyInvested := Z.max 0 (modCost - originalCapacity itemEnergy) in
  if energyType_eqb finalEnergy (originalType itemEnergy)
     || energyType_eqb finalEnergy Any
  then energyInvested
  else energyUsedAndWasted.

(** *** The greedy pass over the bucket specific mods (lines 118-172) *)

Definition emptyAssignments : ModAssignments :=
  {| assigned := []; unassigned := [] |}.

Definition pushAssigned (mod' : Mod) (a : ModAssignments) : ModAssignments :=
  {| assigned := assigned a ++ [mod']; unassigned := unassigned a |}.

Definition pushUnassigned (mod' : Mod) (a : ModAssignments) : ModAssignments :=
  {| assigned := assigned a; unassigned := unassigned a ++ [mod'] |}.

(** [map.get(id)?.assigned || []] and [map.get(id)?.unassigned || []] *)
Definition assignedAt (m : JsMap.t ModAssignments) (itemId : string)
  : list Mod :=
  match JsMap.get itemId m with Some a => assigned a | None => [] end.

Definition unassignedAt (m : JsMap.t ModAssignments) (itemId : string)
  : list Mod :=
  match JsMap.get itemId m with Some a => unassigned a | None => [] end.

(** [map.get(id)?.assigned.push(mod)]: the record stored under [id] is
    updated in place; nothing happens when the key is missing. *)
Definition pushAt (push : Mod -> ModAssignments -> ModAssignments)
    (itemId : string) (mod' : Mod) (m : JsMap.t ModAssignments)
  : JsMap.t ModAssignments :=
  match JsMap.get itemId m with
  | Some a => JsMap.set itemId (push mod' a) m
  | None => m
  end.

(** The loop of lines 125-128; both maps start from this value. *)
Definition initialAssignments (items : list DimItem)
  : JsMap.t ModAssignments :=
  fold_left (fun m item => JsMap.set (id item) emptyAssignments m)
            items JsMap.empty.

(** The three shared pools and the map of the bucket specific pass. *)
Record Pools : Type := {
  generalMods : list Mod;
  combatMods : list Mod;
  activityMods : list Mod;
  bucketSpecificAssignments : JsMap.t ModAssignments
}.

Definition includes (l : list Z) (x : Z) : bool := existsb (Z.eqb x) l.

(** [items.find(item =>
      mod.plug.plugCategoryHash === bucketsToCategories[item.bucket.hash])] *)
Definition findItemForMod (items : list DimItem) (mod' : Mod)
  : option DimItem :=
  find (fun item =>
          match bucketsToCategories (bucket_hash item) with
          | Some category => Z.eqb (plugCategoryHash (plug mod')) category
          | None => false
          end)
       items.

(** One iteration of the loop of lines 144-172. *)
Definition divideMod (defs : D2ManifestDefinitions)
    (upgradeSpendTier : UpgradeSpendTier) (lockItemEnergyType : bool)
    (items : list DimItem) (p : Pools) (mod' : Mod) : Pools :=
  if Z.eqb (plugCategoryHash (plug mod'))
           armor2PlugCategoryHashesByName_general then
    {| generalMods := generalMods p ++ [mod'];
       combatMods := combatMods p;
       activityMods := activityMods p;
       bucketSpecificAssignments := bucketSpecificAssignments p |}
  else if includes combatCompatiblePlugCategoryHashes
                   (plugCategoryHash (plug mod')) then
    {| generalMods := generalMods p;
       combatMods := combatMods p ++ [mod'];
       activityMods := activityMods p;
       bucketSpecificAssignments := bucketSpecificAssignments p |}
  else if includes activityModPlugCategoryHashes
                   (plugCategoryHash (plug mod')) then
    {| generalMods := generalMods p;
       combatMods := combatMods p;
       activityMods := activityMods p ++ [mod'];
       bucketSpecificAssignments := bucketSpecificAssignments p |}
  else
    match findItemForMod items mod' with
    | Some itemForMod =>
        {| generalMods := generalMods p;
           combatMods := combatMods p;
           activityMods := activityMods p;
           bucketSpecificAssignments :=
             if isBucketSpecificModValid defs upgradeSpendTier
                  lockItemEnergyType itemForMod mod'
                  (assignedAt (bucketSpecificAssignments p) (id itemForMod))
             then pushAt pushAssigned (id itemForMod) mod'
                         (bucketSpecificAssignments p)
             else pushAt pushUnassigned (id itemForMod) mod'
                         (bucketSpecificAssignments p) |}
    | None => p
    end.

Definition divideMods (defs : D2ManifestDefinitions)
    (upgradeSpendTier : UpgradeSpendTier) (lockItemEnergyType : bool)
    (items : list DimItem) (mods : list Mod) : Pools :=
  fold_left (divideMod defs upgradeSpendTier lockItemEnergyType items) mods
    {| generalMods := [];
       combatMods := [];
       activityMods := [];
       bucketSpecificAssignments := initialAssignments items |}.

(** *** The search over the triples of permutations (lines 193-263) *)

(** What the search reads and never changes. *)
Record SearchEnv : Type := {
  env_items : list DimItem;
  itemSocketMetadata : JsMap.t (option (list ModSocketMetadata));
  itemEnergies : JsMap.t ItemEnergy
}.

(** [itemSocketMetadata[item.id]]: a missing key and a stored [undefined]
    read the same. *)
Definition socketMetadataAt (env : SearchEnv) (itemId : string)
  : option (list ModSocketMetadata) :=
  match JsMap.get itemId (itemSocketMetadata env) with
  | Some metadata => metadata
  | None => None
  end.

(** [permutation[i]]: [undefined] past the end, [null] for an empty place. *)
Definition permAt (permutation : list (option Mod)) (i : nat) : option Mod :=
  match nth_error permutation i with
  | Some (Some mod') => Some mod'
  | _ => None
  end.

(** The best assignment found so far with its two keys. *)
Record BestSoFar : Type := {
  bucketIndependentAssignments : JsMap.t ModAssignments;
  assignmentEnergyCost : Z;
  assignmentUnassignedModCount : Z
}.

(** The body of the loop over the items, lines 200-234, for one item: the
    validity predicates read the fields of [itemEnergies[item.id]]. *)
Definition assignSlot (itemEnergy : option ItemEnergy)
    (metadata : option (list ModSocketMetadata))
    (activityMod combatMod generalMod : option Mod)
  : Result ModAssignments :=
  afterActivity <-
    match activityMod with
    | Some a =>
        e <- deref itemEnergy ;;
        Ok (if isActivityModValid a metadata e
            then pushAssigned a emptyAssignments
            else pushUnassigned a emptyAssignments)
    | None => Ok emptyAssignments
    end ;;
  afterCombat <-
    match combatMod with
    | Some c =>
        e <- deref itemEnergy ;;
        Ok (if isCombatModValid c (assigned afterActivity) metadata e
            then pushAssigned c afterActivity
            else pushUnassigned c afterActivity)
    | None => Ok afterActivity
    end ;;
  match generalMod with
  | Some g =>
      e <- deref itemEnergy ;;
      Ok (if isModEnergyValid e g (assigned afterCombat)
          then pushAssigned g afterCombat
          else pushUnassigned g afterCombat)
  | None => Ok afterCombat
  end.

(** How the loop over the items ends: it runs to completion, or it leaves
    through [continue modLoop] at item [i]. *)
Inductive LoopOutcome : Type :=
| Completed (unassignedModCount : Z)
            (assignments : JsMap.t ModAssignments)
| ContinueModLoop (i : nat).

(** The loop of lines 199-242 from index [i] on, [rest] being the items
    from that index. *)
Fixpoint itemLoop (env : SearchEnv) (best : BestSoFar)
    (activityPermutation combatPermutation generalPermutation
       : list (option Mod))
    (i : nat) (rest : list DimItem) (unassignedModCount : Z)
    (assignments : JsMap.t ModAssignments) : Result LoopOutcome :=
  match rest with
  | [] => Ok (Completed unassignedModCount assignments)
  | item :: rest' =>
      slot <- assignSlot (JsMap.get (id item) (itemEnergies env))
                         (socketMetadataAt env (id item))
                         (permAt activityPermutation i)
                         (permAt combatPermutation i)
                         (permAt generalPermutation i) ;;
      if (assignmentUnassignedModCount best
          <? unassignedModCount + Z.of_nat (List.length (unassigned slot)))%Z
      then Ok (ContinueModLoop i)
      else
        itemLoop env best activityPermutation combatPermutation
          generalPermutation (S i) rest'
          (unassignedModCount + Z.of_nat (List.length (unassigned slot)))%Z
          (JsMap.set (id item) slot assignments)
  end.

(** The loop of lines 245-248. *)
Fixpoint energyLoop (env : SearchEnv)
    (assignments : JsMap.t ModAssignments) (energyUsedAndWasted : Z)
  : Result Z :=
  match assignments with
  | [] => Ok energyUsedAndWasted
  | (itemId, a) :: rest =>
      e <- deref (JsMap.get itemId (itemEnergies env)) ;;
      energyLoop env rest
        (energyUsedAndWasted + calculateEnergyChange e (assigned a))%Z
  end.

(** The test of lines 252-256. *)
Definition isImprovement (best : BestSoFar) (unassignedModCount : Z)
    (energyUsedAndWasted : Z) : bool :=
  (unassignedModCount <? assignmentUnassignedModCount best)%Z
  || ((unassignedModCount <=? assignmentUnassignedModCount best)%Z
      && (energyUsedAndWasted <? assignmentEnergyCost best)%Z).

(** The body of [modLoop] for one triple of permutations. *)
Definition evaluateTriple (env : SearchEnv) (best : BestSoFar)
    (activityPermutation combatPermutation generalPermutation
       : list (option Mod)) : Result BestSoFar :=
  outcome <- itemLoop env best activityPermutation combatPermutation
               generalPermutation 0 (env_items env) 0 JsMap.empty ;;
  match outcome with
  | ContinueModLoop _ => Ok best
  | Completed unassignedModCount assignments =>
      energyUsedAndWasted <- energyLoop env assignments 0 ;;
      if isImprovement best unassignedModCount energyUsedAndWasted
      then Ok {| bucketIndependentAssignments := assignments;
                 assignmentEnergyCost := energyUsedAndWasted;
                 assignmentUnassignedModCount := unassignedModCount |}
      else Ok best
  end.

(** The three nested loops of lines 193-263. *)
Definition searchLoop (env : SearchEnv)
    (activityModPermutations combatModPermutations generalModPermutations
       : list (list (option Mod)))
    (start : BestSoFar) : Result BestSoFar :=
  foldM (fun best activityPermutation =>
    foldM (fun best combatPermutation =>
      foldM (fun best generalPermutation =>
               evaluateTriple env best activityPermutation
                 combatPermutation generalPermutation)
            generalModPermutations best)
      combatModPermutations best)
    activityModPermutations start.

(** *** The merge of lines 265-279 *)

Definition mergeStep (bucketIndependent bucketSpecific
                        : JsMap.t ModAssignments)
    (acc : JsMap.t (list Mod) * list Mod) (item : DimItem)
  : JsMap.t (list Mod) * list Mod :=
  (JsMap.set (id item)
     (assignedAt bucketIndependent (id item)
      ++ assignedAt bucketSpecific (id item))
     (fst acc),
   snd acc
   ++ unassignedAt bucketIndependent (id item)
   ++ unassignedAt bucketSpecific (id item)).

Definition mergeResults (items : list DimItem)
    (bucketIndependent bucketSpecific : JsMap.t ModAssignments)
  : JsMap.t (list Mod) * list Mod :=
  fold_left (mergeStep bucketIndependent bucketSpecific) items
            (JsMap.empty, []).

(** *** The entry point *)

(** The state of the search before the first triple (lines 118-128). *)
Definition startOfSearch (items : list DimItem) : BestSoFar :=
  {| bucketIndependentAssignments := initialAssignments items;
     assignmentEnergyCost := 10000;
     assignmentUnassignedModCount := 10000 |}.

(** The read-only tables of lines 132-135 and 177-187. *)
Definition searchEnv (defs : D2ManifestDefinitions)
    (upgradeSpendTier : UpgradeSpendTier) (lockItemEnergyType : bool)
    (items : list DimItem) (pools : Pools) : SearchEnv :=
  {| env_items := items;
     itemSocketMetadata :=
       JsMap.mapValues getSpecialtySocketMetadatas (JsMap.keyBy id items);
     itemEnergies :=
       JsMap.mapValues
         (fun item =>
            buildItemEnergy defs item
              (assignedAt (bucketSpecificAssignments pools) (id item))
              upgradeSpendTier lockItemEnergyType)
         (JsMap.keyBy id items) |}.

(** The search of the winning shared-pool assignment (lines 118-263). *)
Definition searchWinner (defs : D2ManifestDefinitions)
    (upgradeSpendTier : UpgradeSpendTier) (lockItemEnergyType : bool)
    (items : list DimItem) (mods : list Mod) : Result BestSoFar :=
  let pools :=
    divideMods defs upgradeSpendTier lockItemEnergyType items mods in
  searchLoop
    (searchEnv defs upgradeSpendTier lockItemEnergyType items pools)
    (generateModPermutations (activityMods pools))
    (generateModPermutations (combatMods pools))
    (generateModPermutations (generalMods pools))
    (startOfSearch items).

Definition getCheapestModAssignments (items : list DimItem)
    (mods : list Mod) (defs : option D2ManifestDefinitions)
    (upgradeSpendTier : UpgradeSpendTier) (lockItemEnergyType : bool)
  : Result (JsMap.t (list Mod) * list Mod) :=
  match defs with
  | None => Ok (JsMap.empty, [])
  | Some defs =>
      let pools :=
        divideMods defs upgradeSpendTier lockItemEnergyType items mods in
      best <- searchWinner defs upgradeSpendTier lockItemEnergyType
                items mods ;;
      Ok (mergeResults items (bucketIndependentAssignments best)
            (bucketSpecificAssignments pools))
  end.

End Source.

(** ** Collaborators modelled from the specification *)

(** Modelled from the spec: [isModEnergyValid], imported from
    app/loadout-builder/mod-assignments.  Section 4.2: "General (shared-pool)
    validity: same capacity/type rule as bucket-specific, generalized to
    accept a variable list of already-assigned items at that slot (their
    costs sum into consumed-so-far)"; the bucket-specific rule is "its type
    tag is the slot's derived type, or either is wildcard, AND consumed-so-far
    plus item cost <= derived capacity". *)
Definition specIsModEnergyValid (itemEnergy : ItemEnergy) (modToAssign : Mod)
    (assignedMods : list Mod) : bool :=
  (energyType_eqb (modEnergyType modToAssign) (derivedType itemEnergy)
   || energyType_eqb (modEnergyType modToAssign) Any
   || energyType_eqb (derivedType itemEnergy) Any)
  && (used itemEnergy + sumBy modCost assignedMods + modCost modToAssign
      <=? derivedCapacity itemEnergy)%Z.

Definition DestinyEnergyType_eq_dec (a b : DestinyEnergyType) : {a = b} + {a <> b}.
Proof. decide equality. Defined.

Definition Mod_eq_dec (a b : Mod) : {a = b} + {a <> b}.
Proof.
  decide equality.
  - decide equality.
    + decide equality.
      decide equality.
      * apply DestinyEnergyType_eq_dec.
      * apply Z.eq_dec.
    + apply Z.eq_dec.
  - apply Z.eq_dec.
Defined.

Definition permutation_eq_dec (p q : list (option Mod)) : {p = q} + {p <> q}.
Proof. decide equality. decide equality. apply Mod_eq_dec. Defined.

Fixpoint insertEverywhere {A : Type} (x : A) (l : list A) : list (list A) :=
  match l with
  | [] => [[x]]
  | y :: l' => (x :: l) :: map (cons y) (insertEverywhere x l')
  end.

Fixpoint orderings {A : Type} (l : list A) : list (list A) :=
  match l with
  | [] => [[]]
  | x :: l' => flat_map (insertEverywhere x) (orderings l')
  end.

(** Modelled from the spec: [generateModPermutations], imported from
    app/loadout-builder/mod-permutations.  Section 4.4: "every ordering of
    (pool items distributed across slot positions, shorter pools padded with
    an absent marker)", "one permutation per distinct assignment".  The
    number of slot positions is fixed by the collaborator, not passed by the
    caller. *)
Definition specGenerateModPermutations (slotPositions : nat) (pool : list Mod)
  : list (list (option Mod)) :=
  nodup permutation_eq_dec
    (orderings (map Some pool
                ++ repeat None (slotPositions - List.length pool))).

(** ** Notions used to state the properties *)

(** The final type as the specification words it: the derived type unless it
    is the wildcard, in which case the first type of an assigned mod that is
    not the wildcard. *)
Definition firstConcreteType (mods : list Mod) : DestinyEnergyType :=
  match find (fun m => negb (energyType_eqb (modEnergyType m) Any)) mods with
  | Some m => modEnergyType m
  | None => Any
  end.

Definition specFinalType (derived : DestinyEnergyType) (mods : list Mod)
  : DestinyEnergyType :=
  match derived with
  | Any => firstConcreteType mods
  | t => t
  end.

(** The compatibility tags of all the sockets of a slot. *)
Definition slotCompatibleTags (metadata : option (list ModSocketMetadata))
  : list string :=
  match metadata with
  | Some metadatas => flat_map compatibleModTags metadatas
  | None => []
  end.

(** A candidate for a position, as a list of at most one mod. *)
Definition present (candidate : option Mod) : list Mod :=
  match candidate with
  | Some m => [m]
  | None => []
  end.

Definition keep (b : bool) (candidate : option Mod) : list Mod :=
  if b then present candidate else [].

(** The mods a permutation places on the first [slots] positions. *)
Definition placed (slots : nat) (permutation : list (option Mod)) : list Mod :=
  flat_map (fun i => present (permAt permutation i)) (seq 0 slots).

(** The candidates of the three permutations for position [j]. *)
Definition candidatesAt (ap cp gp : list (option Mod)) (j : nat) : list Mod :=
  present (permAt ap j) ++ present (permAt cp j) ++ present (permAt gp j).

(** All the mods recorded in a map of assignments. *)
Definition modsOf (m : JsMap.t ModAssignments) : list Mod :=
  flat_map (fun kv => assigned (snd kv) ++ unassigned (snd kv)) m.

(** Number of occurrences of a mod in a list. *)
Definition occurrences (l : list Mod) (x : Mod) : nat :=
  count_occ Mod_eq_dec l x.

Arguments occurrences : simpl never.

(** The two keys of a state of the search, compared as the claim on the
    progress of the search does: the count never grows and, at equal counts,
    the energy never grows and drops when the state changes. *)
Definition neverWorse (before after : BestSoFar) : Prop :=
  (assignmentUnassignedModCount after <= assignmentUnassignedModCount before)%Z
  /\ (assignmentUnassignedModCount after = assignmentUnassignedModCount before ->
      (assignmentEnergyCost after <= assignmentEnergyCost before)%Z
      /\ (after <> before ->
          (assignmentEnergyCost after < assignmentEnergyCost before)%Z)).

Section Notions.

Context {C : Collaborators}.

(** What [assignSlot] computes once the energy of the item is known. *)
Definition slotAssignments (e : ItemEnergy)
    (metadata : option (list ModSocketMetadata))
    (activityMod combatMod generalMod : option Mod) : ModAssignments :=
  let afterActivity :=
    match activityMod with
    | Some a => if isActivityModValid a metadata e
                then pushAssigned a emptyAssignments
                else pushUnassigned a emptyAssignments
    | None => emptyAssignments
    end in
  let afterCombat :=
    match combatMod with
    | Some c => if isCombatModValid c (assigned afterActivity) metadata e
                then pushAssigned c afterActivity
                else pushUnassigned c afterActivity
    | None => afterActivity
    end in
  match generalMod with
  | Some g => if isModEnergyValid e g (assigned afterCombat)
              then pushAssigned g afterCombat
              else pushUnassigned g afterCombat
  | None => afterCombat
  end.

(** The assignments the loop over the items computes for the item at
    index [i]. *)
Definition slotOf (env : SearchEnv)
    (activityPermutation combatPermutation generalPermutation
       : list (option Mod))
    (i : nat) (item : DimItem) : Result ModAssignments :=
  assignSlot (JsMap.get (id item) (itemEnergies env))
             (socketMetadataAt env (id item))
             (permAt activityPermutation i)
             (permAt combatPermutation i)
             (permAt generalPermutation i).

(** The assignments of all the items from index [i] on, whatever the best
    count so far: the loop over the items without its early exit. *)
Fixpoint slotsFrom (env : SearchEnv)
    (activityPermutation combatPermutation generalPermutation
       : list (option Mod))
    (i : nat) (rest : list DimItem)
  : Result (list (string * ModAssignments)) :=
  match rest with
  | [] => Ok []
  | item :: rest' =>
      slot <- slotOf env activityPermutation combatPermutation
                generalPermutation i item ;;
      slots <- slotsFrom env activityPermutation combatPermutation
                 generalPermutation (S i) rest' ;;
      Ok ((id item, slot) :: slots)
  end.

(** The unassigned count of a triple. *)
Fixpoint totalUnassigned (slots : list (string * ModAssignments)) : Z :=
  match slots with
  | [] => 0
  | kv :: rest =>
      (Z.of_nat (List.length (unassigned (snd kv))) + totalUnassigned rest)%Z
  end.

(** The map a triple builds: every slot is [set] under the id of its
    item, in order. *)
Definition recordAll (slots : list (string * ModAssignments))
    (m : JsMap.t ModAssignments) : JsMap.t ModAssignments :=
  fold_left (fun m kv => JsMap.set (fst kv) (snd kv) m) slots m.

(** Every item of the search has an entry in the table of energies. *)
Definition covers (env : SearchEnv) : Prop :=
  forall item, In item (env_items env) ->
               JsMap.get (id item) (itemEnergies env) <> None.

(** The triples in the order the three nested loops visit them. *)
Definition triplesOf (aps cps gps : list (list (option Mod)))
  : list (list (option Mod) * list (option Mod) * list (option Mod)) :=
  flat_map (fun a => flat_map (fun c => map (fun g => (a, c, g)) gps) cps)
           aps.

Definition evaluate (env : SearchEnv) (best : BestSoFar)
    (t : list (option Mod) * list (option Mod) * list (option Mod))
  : Result BestSoFar :=
  evaluateTriple env best (fst (fst t)) (snd (fst t)) (snd t).

(** The states of the search in order: the start, then the state after
    each triple. *)
Fixpoint bestSoFarTrace (env : SearchEnv)
    (triples : list (list (option Mod) * list (option Mod)
                     * list (option Mod)))
    (best : BestSoFar) : Result (list BestSoFar) :=
  match triples with
  | [] => Ok [best]
  | t :: rest =>
      next <- evaluate env best t ;;
      states <- bestSoFarTrace env rest next ;;
      Ok (best :: states)
  end.

(** A mod of one of the three shared pools (lines 145-150). *)
Definition inSharedPool (mod' : Mod) : bool :=
  Z.eqb (plugCategoryHash (plug mod')) armor2PlugCategoryHashesByName_general
  || includes combatCompatiblePlugCategoryHashes
              (plugCategoryHash (plug mod'))
  || includes activityModPlugCategoryHashes (plugCategoryHash (plug mod')).

(** A mod that the function puts somewhere: a mod of a shared pool, or a
    mod whose category is that of the bucket of some item. *)
Definition hasPlace (items : list DimItem) (mod' : Mod) : bool :=
  inSharedPool mod'
  || match findItemForMod items mod' with
     | Some _ => true
     | None => false
     end.

(** The generator offers at least one permutation of the pool, and each
    one places exactly the mods of the pool on the first [slots]
    positions. *)
Definition placesPool (slots : nat) (pool : list Mod) : Prop :=
  generateModPermutations pool <> []
  /\ forall p, In p (generateModPermutations pool) ->
               Permutation (placed slots p) pool.

(** The part of the rule of [isModEnergyValid] that bounds the energy: the
    predicate accepts a mod only if what the slot has used, the mods already
    assigned and the mod itself fit in the derived capacity.  The predicate
    modelled from the specification, [specIsModEnergyValid], has it. *)
Definition energyValidityWithinCapacity : Prop :=
  forall e mod' assignedMods,
    isModEnergyValid e mod' assignedMods = true ->
    (used e + sumBy modCost assignedMods + modCost mod'
     <= derivedCapacity e)%Z.

(** The bucket specific pass keeps every item within its capacity. *)
Definition preAssignedWithinCapacity (defs : D2ManifestDefinitions)
    (upgradeSpendTier : UpgradeSpendTier) (items : list DimItem)
    (p : Pools) : Prop :=
  forall item, In item items ->
    (sumBy modCost (assignedAt (bucketSpecificAssignments p) (id item))
     <= upgradeSpendTierToMaxEnergy defs upgradeSpendTier item)%Z.

(** A state of the search keeps every item within its capacity. *)
Definition searchWithinCapacity (defs : D2ManifestDefinitions)
    (upgradeSpendTier : UpgradeSpendTier) (items : list DimItem)
    (pools : Pools) (b : BestSoFar) : Prop :=
  forall item, In item items ->
    (sumBy modCost (assignedAt (bucketSpecificAssignments pools) (id item))
     + sumBy modCost (assignedAt (bucketIndependentAssignments b) (id item))
     <= upgradeSpendTierToMaxEnergy defs upgradeSpendTier item)%Z.

(** A state of the search that holds the map of a triple of the search
    whose loop over the items ran to completion. *)
Definition candidateOf (env : SearchEnv)
    (aps cps gps : list (list (option Mod))) (b : BestSoFar) : Prop :=
  exists ap cp gp slots,
    In ap aps /\ In cp cps /\ In gp gps
    /\ slotsFrom env ap cp gp 0 (env_items env) = Ok slots
    /\ bucketIndependentAssignments b = recordAll slots JsMap.empty.

(** The position of a slot's assigned list in the order of the pools:
    what is kept of the activity, combat and general candidates of one
    position of three permutations. *)
Definition orderedByPool (aps cps gps : list (list (option Mod)))
    (l : list Mod) : Prop :=
  exists ap cp gp i ka kc kg,
    In ap aps /\ In cp cps /\ In gp gps
    /\ l = keep ka (permAt ap i) ++ keep kc (permAt cp i)
           ++ keep kg (permAt gp i).

End Notions.

(** ** A concrete instance of the collaborators, used by the examples *)

Module Example.

Definition generalHash : Z := 100.
Definition activityHash : Z := 200.
Definition combatHash : Z := 300.
Definition helmetModHash : Z := 401.
Definition gauntletsModHash : Z := 402.
Definition unknownHash : Z := 999.

(** Armour of [slotPositions] pieces; every piece can be upgraded to the
    energy given as the spend tier; helmets (bucket 1) have a combat
    socket and gauntlets (bucket 2) an activity socket. *)
Definition collaborators (slotPositions : nat) : Collaborators :=
  {| D2ManifestDefinitions := unit;
     UpgradeSpendTier := Z;
     upgradeSpendTierToMaxEnergy := fun _ tier item =>
       Z.max tier
         (match energy item with Some e => energyCapacity e | None => 0 end);
     getItemEnergyType := fun _ item _ lockItemEnergyType assignedMods =>
       let original :=
         match energy item with Some e => item_energyType e | None => Any end
       in
       if lockItemEnergyType then original
       else match firstConcreteType assignedMods with
            | Any => original
            | t => t
            end;
     isModEnergyValid := specIsModEnergyValid;
     generateModPermutations := specGenerateModPermutations slotPositions;
     getModTypeTagByPlugCategoryHash := fun h =>
       if Z.eqb h activityHash then Some "deepstonecrypt"%string
       else if Z.eqb h combatHash then Some "chargedwithlight"%string
       else None;
     getSpecialtySocketMetadatas := fun item =>
       if Z.eqb (bucket_hash item) 1
       then Some [ {| compatibleModTags := ["chargedwithlight"%string] |} ]
       else if Z.eqb (bucket_hash item) 2
       then Some [ {| compatibleModTags := ["deepstonecrypt"%string] |} ]
       else None;
     bucketsToCategories := fun b =>
       if Z.eqb b 1 then Some helmetModHash
       else if Z.eqb b 2 then Some gauntletsModHash
       else None;
     armor2PlugCategoryHashesByName_general := generalHash;
     combatCompatiblePlugCategoryHashes := [combatHash];
     activityModPlugCategoryHashes := [activityHash] |}.

Definition mkMod (h category cost : Z) (t : DestinyEnergyType) : Mod :=
  {| hash := h;
     plug := {| plugCategoryHash := category;
                plug_energyCost :=
                  Some {| energyCost := cost; energyType := t |} |} |}.

Definition helmet : DimItem :=
  {| id := "helmet"; bucket_hash := 1;
     energy := Some {| energyCapacity := 5; item_energyType := Thermal |} |}.

Definition gauntlets : DimItem :=
  {| id := "gauntlets"; bucket_hash := 2;
     energy := Some {| energyCapacity := 3; item_energyType := Arc |} |}.

Definition generalMod : Mod := mkMod 1 generalHash 4 Any.
Definition helmetMod : Mod := mkMod 2 helmetModHash 3 Thermal.
Definition activityMod : Mod := mkMod 3 activityHash 1 Any.
Definition combatMod : Mod := mkMod 4 combatHash 2 Any.
Definition expensiveMod : Mod := mkMod 5 generalHash 7 Any.
Definition strayMod : Mod := mkMod 6 unknownHash 1 Any.
Definition arcMod : Mod := mkMod 7 generalHash 1 Arc.
Definition voidMod : Mod := mkMod 8 generalHash 1 Void.

End Example.

(** ** Notions used by the further properties of the search *)

(** The lexicographic order on the two keys of a state of the search. *)
Definition strictlyBetter (a b : BestSoFar) : Prop :=
  (assignmentUnassignedModCount a < assignmentUnassignedModCount b)%Z
  \/ (assignmentUnassignedModCount a = assignmentUnassignedModCount b
      /\ (assignmentEnergyCost a < assignmentEnergyCost b)%Z).

Definition noWorse (a b : BestSoFar) : Prop :=
  (assignmentUnassignedModCount a < assignmentUnassignedModCount b)%Z
  \/ (assignmentUnassignedModCount a = assignmentUnassignedModCount b
      /\ (assignmentEnergyCost a <= assignmentEnergyCost b)%Z).

(** [l] is made of elements of [p] in the order they have in [p]. *)
Inductive Subsequence {A : Type} : list A -> list A -> Prop :=
| Subsequence_nil : Subsequence [] []
| Subsequence_skip l p x : Subsequence l p -> Subsequence l (x :: p)
| Subsequence_take l p x : Subsequence l p -> Subsequence (x :: l) (x :: p).

Section FurtherNotions.

Context {C : Collaborators}.

(** The state a triple would leave as the best: its map, its energy and
    its unassigned count, computed without the early exit. *)
Definition candidateFor (env : SearchEnv)
    (t : list (option Mod) * list (option Mod) * list (option Mod))
  : Result BestSoFar :=
  slots <- slotsFrom env (fst (fst t)) (snd (fst t)) (snd t) 0
             (env_items env) ;;
  energyUsedAndWasted <- energyLoop env (recordAll slots JsMap.empty) 0 ;;
  Ok {| bucketIndependentAssignments := recordAll slots JsMap.empty;
        assignmentEnergyCost := energyUsedAndWasted;
        assignmentUnassignedModCount := totalUnassigned slots |}.

(** The three tests of lines 145-150, each with the ones before it
    failing. *)
Definition isGeneralMod (mod' : Mod) : bool :=
  Z.eqb (plugCategoryHash (plug mod')) armor2PlugCategoryHashesByName_general.

Definition isCombatMod (mod' : Mod) : bool :=
  negb (isGeneralMod mod')
  && includes combatCompatiblePlugCategoryHashes (plugCategoryHash (plug mod')).

Definition isActivityMod (mod' : Mod) : bool :=
  negb (isGeneralMod mod')
  && negb (includes combatCompatiblePlugCategoryHashes
                    (plugCategoryHash (plug mod')))
  && includes activityModPlugCategoryHashes (plugCategoryHash (plug mod')).

(** The mods the bucket specific pass records under an item id: those of
    no shared pool whose item, the first with a bucket of their category,
    has that id. *)
Definition targets (items : list DimItem) (itemId : string) (mod' : Mod)
  : bool :=
  negb (inSharedPool mod')
  && match findItemForMod items mod' with
     | Some item => String.eqb (id item) itemId
     | None => false
     end.

End FurtherNotions.

(** ** A second instance of the collaborators, used by the examples *)

Module MoreExamples.

(** The collaborators of [Example] with a generator that offers no
    permutation at all. *)
Definition noPermutations : Collaborators :=
  {| D2ManifestDefinitions := unit;
     UpgradeSpendTier := Z;
     upgradeSpendTierToMaxEnergy :=
       @upgradeSpendTierToMaxEnergy (Example.collaborators 0);
     getItemEnergyType := @getItemEnergyType (Example.collaborators 0);
     isModEnergyValid := specIsModEnergyValid;
     generateModPermutations := fun _ => [];
     getModTypeTagByPlugCategoryHash :=
       @getModTypeTagByPlugCategoryHash (Example.collaborators 0);
     getSpecialtySocketMetadatas :=
       @getSpecialtySocketMetadatas (Example.collaborators 0);
     bucketsToCategories := @bucketsToCategories (Example.collaborators 0);
     armor2PlugCategoryHashesByName_general := Example.generalHash;
     combatCompatiblePlugCategoryHashes := [Example.combatHash];
     activityModPlugCategoryHashes := [Example.activityHash] |}.

End MoreExamples.

(** ** Render keys and sort keys *)

(** [`${n}`] for an integer [n]. *)
Definition numberToString (n : Z) : string :=
  NilZero.string_of_int (Z.to_int n).

(** A [Record<number, number>]: [None] is a missing property. *)
Definition Counts : Type := Z -> option Z.

Definition noCounts : Counts := fun _ => None.

(** [counts[h] = v] *)
Definition setCount (h v : Z) (counts : Counts) : Counts :=
  fun k => if Z.eqb k h then Some v else counts k.

(** [!counts[h]]: the property is missing or zero. *)
Definition isFalsyCount (o : option Z) : bool :=
  match o with
  | Some v => Z.eqb v 0
  | None => true
  end.

(** [getModRenderKey]: the key, and the counts after the call, which
    mutates its argument.  The count read for the key is defined, since it
    has just been set when it was missing. *)
Definition getModRenderKey (mod' : Mod) (counts : Counts) : string * Counts :=
  let counts1 :=
    if isFalsyCount (counts (hash mod'))
    then setCount (hash mod') 0 counts
    else counts in
  let n := match counts1 (hash mod') with Some v => v | None => 0%Z end in
  ((numberToString (hash mod') ++ "-" ++ numberToString n)%string,
   setCount (hash mod') (n + 1) counts1).

(** The keys of a list of sibling mods rendered in order with one counts
    object. *)
Fixpoint renderKeys (mods : list Mod) (counts : Counts)
  : list string * Counts :=
  match mods with
  | [] => ([], counts)
  | mod' :: rest =>
      let (key, counts1) := getModRenderKey mod' counts in
      let (keys, counts2) := renderKeys rest counts1 in
      (key :: keys, counts2)
  end.

(** [Array.prototype.indexOf] on a list of hashes. *)
Fixpoint indexOf (l : list Z) (x : Z) : Z :=
  match l with
  | [] => (-1)%Z
  | y :: l' =>
      if Z.eqb y x then 0%Z
      else let i := indexOf l' x in
           if Z.eqb i (-1) then (-1)%Z else (i + 1)%Z
  end.

(** The first key of [sortMods] and of [sortModGroups] (lines 33-36 and
    50-54) for a plug category hash, [knownModPlugCategoryHashes] being
    imported from another module. *)
Definition knownIndexKey (knownModPlugCategoryHashes : list Z)
    (plugCategoryHash : Z) : Z :=
  let knownIndex := indexOf knownModPlugCategoryHashes plugCategoryHash in
  if Z.eqb knownIndex (-1)
  then Z.of_nat (List.length knownModPlugCategoryHashes)
  else knownIndex.

(** The key of the mod of hash [h] that is the [n]-th of its hash. *)
Definition renderKey (h n : Z) : string :=
  (numberToString h ++ "-" ++ numberToString n)%string.

(** [counts[h]] read as a number, a missing property counting for zero. *)
Definition countAt (counts : Counts) (h : Z) : Z :=
  match counts h with
  | Some v => v
  | None => 0%Z
  end.

(** The number of mods of hash [h] in a list. *)
Definition hashCount (h : Z) (mods : list Mod) : nat :=
  List.length (filter (fun m => Z.eqb (hash m) h) mods).

(** A string with the character [-] in it. *)
Fixpoint hasDash (s : string) : bool :=
  match s with
  | EmptyString => false
  | String c s' => Ascii.eqb c "-" || hasDash s'
  end.

(** * Properties *)

(** ** The error monad *)

Lemma bind_Ok_inv (A B : Type) (r : Result A) (k : A -> Result B) (b : B) :
  bind r k = Ok b -> exists a, r = Ok a /\ k a = Ok b.
Proof.
  destruct r as [a|]; simpl; intros H.
  - exists a; split; [reflexivity | exact H].
  - discriminate.
Qed.

Lemma foldM_app (A B : Type) (f : B -> A -> Result B) (l1 l2 : list A) (b : B) :
  foldM f (l1 ++ l2) b = (b' <- foldM f l1 b ;; foldM f l2 b').
Proof.
  revert b; induction l1 as [|a l1 IH]; intros b; simpl.
  - reflexivity.
  - destruct (f b a) as [b'|]; simpl; [apply IH | reflexivity].
Qed.

Lemma foldM_ext (A B : Type) (f f' : B -> A -> Result B) (l : list A) (b : B) :
  (forall b a, f b a = f' b a) -> foldM f l b = foldM f' l b.
Proof.
  intros Hext. revert b; induction l as [|a l IH]; intros b; simpl.
  - reflexivity.
  - rewrite Hext. destruct (f' b a); simpl; auto.
Qed.

Lemma foldM_map (A A' B : Type) (f : B -> A -> Result B) (g : A' -> A)
    (l : list A') (b : B) :
  foldM f (map g l) b = foldM (fun b x => f b (g x)) l b.
Proof.
  revert b; induction l as [|a l IH]; intros b; simpl.
  - reflexivity.
  - destruct (f b (g a)); simpl; auto.
Qed.

Lemma foldM_flat_map (A A' B : Type) (f : B -> A -> Result B)
    (g : A' -> list A) (l : list A') (b : B) :
  foldM f (flat_map g l) b = foldM (fun b x => foldM f (g x) b) l b.
Proof.
  revert b; induction l as [|a l IH]; intros b; simpl.
  - reflexivity.
  - rewrite foldM_app. destruct (foldM f (g a) b); simpl; auto.
Qed.

Lemma foldM_invariant (A B : Type) (P : B -> Prop) (f : B -> A -> Result B)
    (l : list A) :
  (forall b a b', P b -> In a l -> f b a = Ok b' -> P b') ->
  forall b b', P b -> foldM f l b = Ok b' -> P b'.
Proof.
  induction l as [|a l IH]; intros Hstep b b' Hb; simpl.
  - now intros [= <-].
  - intros H. apply bind_Ok_inv in H. destruct H as [b1 [H1 H2]].
    apply IH with (b := b1); auto.
    + intros b2 a2 b2' Hb2 Hin. apply Hstep; simpl; auto.
    + apply (Hstep b a b1); simpl; auto.
Qed.

Lemma foldM_defined (A B : Type) (f : B -> A -> Result B) (l : list A) :
  (forall b a, In a l -> exists b', f b a = Ok b') ->
  forall b, exists b', foldM f l b = Ok b'.
Proof.
  induction l as [|a l IH]; intros Hdef b; simpl.
  - now exists b.
  - destruct (Hdef b a) as [b1 H1]; [now left|]. rewrite H1. simpl.
    apply IH. intros b2 a2 Hin. apply Hdef. now right.
Qed.

(** ** Maps *)

Module JsMapFacts.
Import JsMap.

Section Facts.
Variable V : Type.
Implicit Types (m : t V) (k : string) (v : V).

Lemma get_set_same k v m : get k (set k v m) = Some v.
Proof.
  induction m as [|[k' v'] m IH]; simpl.
  - now rewrite String.eqb_refl.
  - destruct (String.eqb k k') eqn:E; simpl; rewrite ?E, ?String.eqb_refl;
      auto.
Qed.

Lemma get_set_other k k' v m : k <> k' -> get k (set k' v m) = get k m.
Proof.
  intros Hne; induction m as [|[k2 v2] m IH]; simpl.
  - apply String.eqb_neq in Hne. now rewrite Hne.
  - destruct (String.eqb k' k2) eqn:E; simpl.
    + apply String.eqb_eq in E; subst k2.
      apply String.eqb_neq in Hne. now rewrite Hne.
    + now rewrite IH.
Qed.

Lemma get_In_keys k m : get k m <> None <-> In k (keys m).
Proof.
  induction m as [|[k' v'] m IH]; simpl.
  - split; [congruence | tauto].
  - destruct (String.eqb k k') eqn:E.
    + apply String.eqb_eq in E; subst. split; [auto | congruence].
    + apply String.eqb_neq in E. rewrite IH. split; [auto | intros [H|H]];
        congruence || auto.
Qed.

Lemma get_None_keys k m : get k m = None <-> ~ In k (keys m).
Proof.
  rewrite <- get_In_keys. destruct (get k m); split; intros H;
    try discriminate; try reflexivity; try (intros H'; congruence).
  exfalso. apply H. discriminate.
Qed.

Lemma keys_set k v m :
  forall k', In k' (keys (set k v m)) <-> k' = k \/ In k' (keys m).
Proof.
  intros k'; induction m as [|[k2 v2] m IH]; simpl.
  - intuition.
  - destruct (String.eqb k k2) eqn:E; simpl.
    + apply String.eqb_eq in E; subst. intuition.
    + rewrite IH. intuition.
Qed.

Lemma set_fresh k v m : ~ In k (keys m) -> set k v m = m ++ [(k, v)].
Proof.
  induction m as [|[k' v'] m IH]; simpl; intros Hnin.
  - reflexivity.
  - destruct (String.eqb k k') eqn:E.
    + apply String.eqb_eq in E; subst. tauto.
    + rewrite IH by tauto. reflexivity.
Qed.

Lemma keys_set_present k v m : In k (keys m) -> keys (set k v m) = keys m.
Proof.
  induction m as [|[k' v'] m IH]; simpl; intros Hin.
  - contradiction.
  - destruct (String.eqb k k') eqn:E; simpl.
    + apply String.eqb_eq in E; now subst.
    + apply String.eqb_neq in E. rewrite IH; [reflexivity|].
      destruct Hin; congruence.
Qed.

Lemma In_set k v m kv : In kv (set k v m) -> kv = (k, v) \/ In kv m.
Proof.
  induction m as [|[k' v'] m IH]; simpl.
  - intros [<-|[]]. now left.
  - destruct (String.eqb k k'); simpl.
    + intros [<-|H]; auto.
    + intros [<-|H]; auto. apply IH in H. tauto.
Qed.

Lemma get_In k v m : get k m = Some v -> In (k, v) m.
Proof.
  induction m as [|[k' v'] m IH]; simpl; [discriminate|].
  destruct (String.eqb k k') eqn:E.
  - apply String.eqb_eq in E; subst. intros [= ->]. now left.
  - auto.
Qed.

End Facts.

Lemma get_mapValues (V W : Type) (f : V -> W) k (m : t V) :
  get k (mapValues f m) = option_map f (get k m).
Proof.
  induction m as [|[k' v'] m IH]; simpl; [reflexivity|].
  destruct (String.eqb k k'); auto.
Qed.

(** What [_.keyBy] stores under a key is an element of the list that has
    that key. *)
Lemma get_keyBy (V : Type) (key : V -> string) (l : list V) k v :
  get k (keyBy key l) = Some v -> In v l /\ key v = k.
Proof.
  unfold keyBy.
  assert (G : forall m,
             get k (fold_left (fun m v => set (key v) v m) l m) = Some v ->
             (In v l /\ key v = k) \/ get k m = Some v).
  { induction l as [|x l IH]; intros m; simpl; [auto|].
    intros H. apply IH in H. destruct H as [[H1 H2]|H]; [auto|].
    destruct (string_dec k (key x)) as [->|Hne].
    - rewrite get_set_same in H. injection H as ->. auto.
    - rewrite get_set_other in H by assumption. auto. }
  intros H. apply G in H. destruct H as [H|H]; [exact H | discriminate].
Qed.

Lemma keyBy_defined (V : Type) (key : V -> string) (l : list V) x :
  In x l -> get (key x) (keyBy key l) <> None.
Proof.
  unfold keyBy.
  assert (G : forall m,
             In x l \/ get (key x) m <> None ->
             get (key x) (fold_left (fun m v => set (key v) v m) l m)
             <> None).
  { induction l as [|y l IH]; intros m; simpl.
    - intros [[]|H]; exact H.
    - intros [[->|H]|H]; apply IH.
      + right. rewrite get_set_same. discriminate.
      + now left.
      + right. destruct (string_dec (key x) (key y)) as [E|E].
        * rewrite E, get_set_same. discriminate.
        * now rewrite get_set_other. }
  intros H. apply G. now left.
Qed.

(** With distinct keys, [_.keyBy] stores every element under its key. *)
Lemma get_keyBy_NoDup (V : Type) (key : V -> string) (l : list V) x :
  NoDup (map key l) -> In x l -> get (key x) (keyBy key l) = Some x.
Proof.
  intros Hnd Hin.
  destruct (get (key x) (keyBy key l)) as [y|] eqn:E.
  - apply get_keyBy in E. destruct E as [Hy Hk]. f_equal.
    clear - Hnd Hin Hy Hk.
    induction l as [|z l IH]; simpl in *; [contradiction|].
    inversion Hnd as [|? ? Hz Hnd']; subst.
    destruct Hin as [->|Hin], Hy as [Hy|Hy]; subst; auto.
    + exfalso. apply Hz. rewrite <- Hk. now apply in_map.
    + exfalso. apply Hz. rewrite Hk. now apply in_map.
  - exfalso. revert E. now apply keyBy_defined.
Qed.

End JsMapFacts.

(** ** The scoring function *)

Lemma energyType_eqb_eq (a b : DestinyEnergyType) :
  energyType_eqb a b = true <-> a = b.
Proof.
  unfold energyType_eqb. rewrite Z.eqb_eq.
  split; [|now intros ->].
  destruct a, b; simpl; intros H; try reflexivity; discriminate.
Qed.

Lemma energyType_eqb_neq (a b : DestinyEnergyType) :
  energyType_eqb a b = false <-> a <> b.
Proof.
  rewrite <- energyType_eqb_eq. destruct (energyType_eqb a b); split;
    congruence.
Qed.

Lemma resolveFinalEnergy_concrete (t : DestinyEnergyType) (mods : list Mod) :
  t <> Any -> resolveFinalEnergy t mods = t.
Proof.
  intros Hne. destruct mods as [|m mods]; simpl; [reflexivity|].
  apply energyType_eqb_neq in Hne. now rewrite Hne.
Qed.

Lemma resolveFinalEnergy_wildcard (mods : list Mod) :
  resolveFinalEnergy Any mods = firstConcreteType mods.
Proof.
  unfold firstConcreteType.
  induction mods as [|m mods IH]; simpl; [reflexivity|].
  unfold modEnergyType at 1.
  destruct (plug_energyCost (plug m)) as [c|] eqn:Ec; simpl.
  - destruct (energyType c) eqn:Et; simpl; [exact IH|..];
      unfold modEnergyType; rewrite Ec, Et;
      apply resolveFinalEnergy_concrete; discriminate.
  - exact IH.
Qed.

Lemma resolveFinalEnergy_spec (derived : DestinyEnergyType) (mods : list Mod) :
  resolveFinalEnergy derived mods = specFinalType derived mods.
Proof.
  destruct derived; simpl specFinalType;
    try (apply resolveFinalEnergy_concrete; discriminate).
  apply resolveFinalEnergy_wildcard.
Qed.

(** C5.  The energy change of a slot is [max 0 (totalCost - originalCapacity)]
    when the final type is the original type or the wildcard, and
    [totalCost + originalCapacity] otherwise; [totalCost] is the energy
    already used plus the costs of the assigned mods, and the final type,
    which the loop of the code computes, is the derived type unless that is
    the wildcard, in which case it is the first type of an assigned mod that
    is not the wildcard (an Arc mod followed by a Void mod gives Arc). *)
Theorem calculateEnergyChange_by_final_type
    (itemEnergy : ItemEnergy) (assignedMods : list Mod) :
  let totalCost := (used itemEnergy + sumBy modCost assignedMods)%Z in
  let finalType := specFinalType (derivedType itemEnergy) assignedMods in
  resolveFinalEnergy (derivedType itemEnergy) assignedMods = finalType
  /\ (finalType = originalType itemEnergy \/ finalType = Any ->
      calculateEnergyChange itemEnergy assignedMods
      = Z.max 0 (totalCost - originalCapacity itemEnergy))
  /\ (~ (finalType = originalType itemEnergy \/ finalType = Any) ->
      calculateEnergyChange itemEnergy assignedMods
      = (totalCost + originalCapacity itemEnergy)%Z)
  /\ (forall arc void,
        modEnergyType arc = Arc -> modEnergyType void = Void ->
        resolveFinalEnergy Any [arc; void] = Arc
        /\ specFinalType Any [arc; void] = Arc).
Proof.
  intros totalCost finalType.
  assert (E : resolveFinalEnergy (derivedType itemEnergy) assignedMods
              = finalType) by apply resolveFinalEnergy_spec.
  split; [exact E|].
  unfold calculateEnergyChange. rewrite E. fold totalCost.
  split; [|split].
  - intros [H|H].
    + apply energyType_eqb_eq in H. now rewrite H.
    + apply energyType_eqb_eq in H. rewrite H. now rewrite orb_true_r.
  - intros H.
    destruct (energyType_eqb finalType (originalType itemEnergy)) eqn:E1.
    + exfalso. apply H. left. now apply energyType_eqb_eq.
    + destruct (energyType_eqb finalType Any) eqn:E2; simpl.
      * exfalso. apply H. right. now apply energyType_eqb_eq.
      * reflexivity.
  - intros arc void Harc Hvoid. rewrite resolveFinalEnergy_spec. simpl.
    unfold firstConcreteType. simpl. rewrite Harc. simpl. now split.
Qed.

(** ** The validity predicates of the specialty mods *)

Section Validity.

Context {C : Collaborators}.

Lemma someMetadataIncludes_true metadata tag :
  someMetadataIncludes metadata tag = true ->
  In tag (slotCompatibleTags metadata).
Proof.
  destruct metadata as [metadatas|]; simpl; [|discriminate].
  rewrite existsb_exists. intros [md [Hin Hex]].
  apply existsb_exists in Hex. destruct Hex as [t [Ht Heq]].
  apply String.eqb_eq in Heq; subst t.
  apply in_flat_map. now exists md.
Qed.

Lemma tagFits_true modTag metadata :
  tagFits modTag metadata = true ->
  exists tag, modTag = Some tag /\ In tag (slotCompatibleTags metadata).
Proof.
  destruct modTag as [tag|]; simpl; [|discriminate].
  rewrite andb_true_iff. intros [_ H].
  exists tag. split; [reflexivity|]. now apply someMetadataIncludes_true.
Qed.

(** C8.  An activity or combat mod is valid for a slot only if the tag of
    its plug category exists and is one of the compatible tags of the
    slot's socket metadata; a mod whose category has no tag is invalid for
    every slot. *)
Theorem specialty_validity_requires_tag
    (mod' : Mod) (assignedMods : list Mod)
    (metadata : option (list ModSocketMetadata)) (itemEnergy : ItemEnergy) :
  let modTag :=
    getModTypeTagByPlugCategoryHash (plugCategoryHash (plug mod')) in
  (isActivityModValid mod' metadata itemEnergy = true ->
   exists tag, modTag = Some tag /\ In tag (slotCompatibleTags metadata))
  /\ (isCombatModValid mod' assignedMods metadata itemEnergy = true ->
      exists tag, modTag = Some tag /\ In tag (slotCompatibleTags metadata))
  /\ (modTag = None ->
      isActivityModValid mod' metadata itemEnergy = false
      /\ isCombatModValid mod' assignedMods metadata itemEnergy = false).
Proof.
  intros modTag. unfold isActivityModValid, isCombatModValid. fold modTag.
  repeat split.
  - rewrite andb_true_iff. intros [_ H]. now apply tagFits_true.
  - rewrite andb_true_iff. intros [_ H]. now apply tagFits_true.
  - rewrite H. simpl. apply andb_false_r.
  - rewrite H. simpl. apply andb_false_r.
Qed.

End Validity.

(** ** One triple of permutations *)

Section TripleFacts.

Context {C : Collaborators}.
Implicit Types (env : SearchEnv) (best : BestSoFar).
Implicit Types (ap cp gp : list (option Mod)).

Lemma assignSlot_Some e md a c g :
  assignSlot (Some e) md a c g = Ok (slotAssignments e md a c g).
Proof. destruct a, c, g; reflexivity. Qed.

Lemma assignSlot_None md a c g v :
  assignSlot None md a c g = Ok v ->
  a = None /\ c = None /\ g = None /\ v = emptyAssignments.
Proof.
  destruct a, c, g; simpl; try discriminate. intros [= <-]. auto.
Qed.

Lemma assignSlot_nothing ie md :
  assignSlot ie md None None None = Ok emptyAssignments.
Proof. reflexivity. Qed.

Ltac pick_kept :=
  first [ exists true, true, true; split; reflexivity
        | exists true, true, false; split; reflexivity
        | exists true, false, true; split; reflexivity
        | exists true, false, false; split; reflexivity
        | exists false, true, true; split; reflexivity
        | exists false, true, false; split; reflexivity
        | exists false, false, true; split; reflexivity
        | exists false, false, false; split; reflexivity ].

(** The assigned mods of a slot are what is kept of the activity, combat
    and general candidates, in that order; the unassigned ones are the
    rest, in the same order. *)
Lemma slotAssignments_shape e md a c g :
  exists ka kc kg,
    assigned (slotAssignments e md a c g)
    = keep ka a ++ keep kc c ++ keep kg g
    /\ unassigned (slotAssignments e md a c g)
       = keep (negb ka) a ++ keep (negb kc) c ++ keep (negb kg) g.
Proof.
  unfold slotAssignments.
  destruct a as [a|]; [destruct (isActivityModValid a md e)|];
    (destruct c as [c|];
     [match goal with
      | |- context [isCombatModValid ?x ?y ?z ?w] =>
          destruct (isCombatModValid x y z w)
      end|]);
    (destruct g as [g|];
     [match goal with
      | |- context [isModEnergyValid ?x ?y ?z] =>
          destruct (isModEnergyValid x y z)
      end|]);
    pick_kept.
Qed.

Lemma assignSlot_shape ie md a c g v :
  assignSlot ie md a c g = Ok v ->
  exists ka kc kg,
    assigned v = keep ka a ++ keep kc c ++ keep kg g
    /\ unassigned v = keep (negb ka) a ++ keep (negb kc) c
                      ++ keep (negb kg) g.
Proof.
  destruct ie as [e|].
  - rewrite assignSlot_Some. intros [= <-]. apply slotAssignments_shape.
  - intros H. apply assignSlot_None in H.
    destruct H as (-> & -> & -> & ->). exists true, true, true. now split.
Qed.

Lemma totalUnassigned_nonneg slots : (0 <= totalUnassigned slots)%Z.
Proof. induction slots as [|kv slots IH]; simpl; lia. Qed.

(** The loop over the items either leaves early, and then the unassigned
    count of the triple exceeds the best count, or records all the slots
    of the triple. *)
Lemma itemLoop_slots env best ap cp gp :
  forall rest i u m slots,
    slotsFrom env ap cp gp i rest = Ok slots ->
    (exists j, itemLoop env best ap cp gp i rest u m
               = Ok (ContinueModLoop j)
               /\ (assignmentUnassignedModCount best
                   < u + totalUnassigned slots)%Z)
    \/ itemLoop env best ap cp gp i rest u m
       = Ok (Completed (u + totalUnassigned slots) (recordAll slots m)).
Proof.
  induction rest as [|item rest IH]; intros i u m slots Hs; simpl in Hs.
  - injection Hs as <-. simpl. right. now rewrite Z.add_0_r.
  - apply bind_Ok_inv in Hs. destruct Hs as [slot [Hslot Hs]].
    apply bind_Ok_inv in Hs. destruct Hs as [slots' [Hrest Hs]].
    injection Hs as <-. simpl totalUnassigned.
    pose proof (totalUnassigned_nonneg slots') as Hnn.
    unfold slotOf in Hslot. simpl itemLoop. rewrite Hslot. simpl bind.
    specialize (IH (S i) (u + Z.of_nat (List.length (unassigned slot)))%Z
                   (JsMap.set (id item) slot m) slots' Hrest).
    destruct (Z.ltb_spec (assignmentUnassignedModCount best)
                (u + Z.of_nat (List.length (unassigned slot)))) as [Hlt|Hge].
    + left. exists i. split; [reflexivity | lia].
    + destruct IH as [[j [Hj Hlt]]|IH].
      * left. exists j. split; [exact Hj | lia].
      * right. rewrite IH. simpl. now rewrite Z.add_assoc.
Qed.

Lemma itemLoop_app env best ap cp gp :
  forall l1 l2 i u m,
    itemLoop env best ap cp gp i (l1 ++ l2) u m
    = (outcome <- itemLoop env best ap cp gp i l1 u m ;;
       match outcome with
       | Completed u' m' =>
           itemLoop env best ap cp gp (i + List.length l1) l2 u' m'
       | ContinueModLoop j => Ok (ContinueModLoop j)
       end).
Proof.
  induction l1 as [|item l1 IH]; intros l2 i u m; simpl.
  - now rewrite Nat.add_0_r.
  - destruct (assignSlot _ _ _ _ _) as [slot|]; simpl; [|reflexivity].
    destruct (Z.ltb _ _); [reflexivity|].
    rewrite IH. now rewrite Nat.add_succ_r.
Qed.

(** What a triple can do to the state of the search. *)
Lemma evaluateTriple_cases env best ap cp gp b' :
  evaluateTriple env best ap cp gp = Ok b' ->
  b' = best
  \/ exists count assignments energyUsedAndWasted,
       itemLoop env best ap cp gp 0 (env_items env) 0 JsMap.empty
       = Ok (Completed count assignments)
       /\ energyLoop env assignments 0 = Ok energyUsedAndWasted
       /\ isImprovement best count energyUsedAndWasted = true
       /\ b' = {| bucketIndependentAssignments := assignments;
                  assignmentEnergyCost := energyUsedAndWasted;
                  assignmentUnassignedModCount := count |}.
Proof.
  unfold evaluateTriple. intros H.
  apply bind_Ok_inv in H. destruct H as [[count assignments|j] [Hloop H]].
  - apply bind_Ok_inv in H. destruct H as [energy [Henergy H]].
    destruct (isImprovement best count energy) eqn:Himp.
    + injection H as <-. right. now exists count, assignments, energy.
    + injection H as <-. now left.
  - injection H as <-. now left.
Qed.

Lemma isImprovement_true best count energy :
  isImprovement best count energy = true <->
  (count < assignmentUnassignedModCount best)%Z
  \/ (count = assignmentUnassignedModCount best
      /\ (energy < assignmentEnergyCost best)%Z).
Proof.
  unfold isImprovement.
  rewrite orb_true_iff, andb_true_iff, Z.ltb_lt, Z.leb_le, Z.ltb_lt. lia.
Qed.

(** C3.  The best so far is replaced by the candidate of a triple exactly
    when the unassigned count of the triple is strictly less than the best
    count, or equal to it with a strictly smaller energy; a triple equal on
    both keys leaves the incumbent in place. *)
Theorem replacement_rule env best ap cp gp slots energyUsedAndWasted :
  slotsFrom env ap cp gp 0 (env_items env) = Ok slots ->
  energyLoop env (recordAll slots JsMap.empty) 0 = Ok energyUsedAndWasted ->
  let count := totalUnassigned slots in
  let candidate :=
    {| bucketIndependentAssignments := recordAll slots JsMap.empty;
       assignmentEnergyCost := energyUsedAndWasted;
       assignmentUnassignedModCount := count |} in
  let better :=
    (count < assignmentUnassignedModCount best)%Z
    \/ (count = assignmentUnassignedModCount best
        /\ (energyUsedAndWasted < assignmentEnergyCost best)%Z) in
  (better ->
   evaluateTriple env best ap cp gp = Ok candidate /\ candidate <> best)
  /\ (~ better -> evaluateTriple env best ap cp gp = Ok best)
  /\ (count = assignmentUnassignedModCount best ->
      energyUsedAndWasted = assignmentEnergyCost best ->
      evaluateTriple env best ap cp gp = Ok best).
Proof.
  intros Hslots Henergy count candidate better.
  assert (Hdiff : better -> candidate <> best).
  { intros Hb Heq. subst candidate better. rewrite <- Heq in Hb.
    simpl in Hb. lia. }
  assert (Hcases :
            (better -> evaluateTriple env best ap cp gp = Ok candidate)
            /\ (~ better -> evaluateTriple env best ap cp gp = Ok best)).
  { unfold evaluateTriple.
    destruct (itemLoop_slots env best ap cp gp (env_items env) 0 0
                JsMap.empty Hslots) as [[j [Hj Hlt]]|Hdone].
    - rewrite Hj. simpl. split; [|reflexivity].
      intros Hb. exfalso. subst better count. simpl in Hlt. lia.
    - rewrite Hdone. simpl bind. rewrite Henergy. simpl bind.
      simpl Z.add. fold count. fold candidate.
      destruct (isImprovement best count energyUsedAndWasted) eqn:Himp.
      + split; [reflexivity|]. intros Hn. exfalso. apply Hn.
        now apply isImprovement_true.
      + split; [|reflexivity]. intros Hb.
        apply isImprovement_true in Hb. congruence. }
  destruct Hcases as [Hyes Hno].
  split; [|split].
  - intros Hb. split; [now apply Hyes | now apply Hdiff].
  - exact Hno.
  - intros Hc He. apply Hno. subst better. lia.
Qed.

(** C4.  When, at some item, the running unassigned count plus the mods
    the item leaves unassigned exceeds the best count, the loop over the
    items is left at that item whatever the remaining items are, the
    triple is not scored, the best so far is unchanged and the search goes
    on with the next general permutation. *)
Theorem early_abandonment env best ap cp gp processed item rest
    running assignments slot :
  env_items env = processed ++ item :: rest ->
  itemLoop env best ap cp gp 0 processed 0 JsMap.empty
  = Ok (Completed running assignments) ->
  slotOf env ap cp gp (List.length processed) item = Ok slot ->
  (assignmentUnassignedModCount best
   < running + Z.of_nat (List.length (unassigned slot)))%Z ->
  itemLoop env best ap cp gp 0 (env_items env) 0 JsMap.empty
  = Ok (ContinueModLoop (List.length processed))
  /\ evaluateTriple env best ap cp gp = Ok best
  /\ forall generalModPermutations,
       foldM (fun b g => evaluateTriple env b ap cp g)
             (gp :: generalModPermutations) best
       = foldM (fun b g => evaluateTriple env b ap cp g)
               generalModPermutations best.
Proof.
  intros Hitems Hprefix Hslot Hexceeds.
  assert (Hloop : itemLoop env best ap cp gp 0 (env_items env) 0 JsMap.empty
                  = Ok (ContinueModLoop (List.length processed))).
  { rewrite Hitems, itemLoop_app, Hprefix. simpl.
    unfold slotOf in Hslot. rewrite Hslot. simpl.
    apply Z.ltb_lt in Hexceeds. now rewrite Hexceeds. }
  assert (Heval : evaluateTriple env best ap cp gp = Ok best).
  { unfold evaluateTriple. now rewrite Hloop. }
  split; [exact Hloop|]. split; [exact Heval|].
  intros gps. simpl. now rewrite Heval.
Qed.

End TripleFacts.

(** The rule of replacement on a helmet with one general mod that fits, at
    the start of the search. *)
Lemma replacement_rule_witness :
  let C := Example.collaborators 1 in
  let env :=
    searchEnv tt 10%Z false [Example.helmet]
      (divideMods tt 10%Z false [Example.helmet] [Example.generalMod]) in
  evaluateTriple env (startOfSearch [Example.helmet])
    [None] [None] [Some Example.generalMod]
  = Ok {| bucketIndependentAssignments :=
            [("helmet"%string,
              {| assigned := [Example.generalMod]; unassigned := [] |})];
          assignmentEnergyCost := 0;
          assignmentUnassignedModCount := 0 |}.
Proof.
  intros C env.
  apply (@replacement_rule C env (startOfSearch [Example.helmet])
           [None] [None] [Some Example.generalMod]
           [("helmet"%string,
             {| assigned := [Example.generalMod]; unassigned := [] |})]
           0%Z eq_refl eq_refl).
  left. vm_compute. reflexivity.
Defined.

(** A general mod that does not fit the helmet, against a best count of
    zero: the gauntlets are never looked at. *)
Lemma early_abandonment_witness :
  let C := Example.collaborators 2 in
  let items := [Example.helmet; Example.gauntlets] in
  let env :=
    searchEnv tt 5%Z false items
      (divideMods tt 5%Z false items [Example.expensiveMod]) in
  let best :=
    {| bucketIndependentAssignments := initialAssignments items;
       assignmentEnergyCost := 0;
       assignmentUnassignedModCount := 0 |} in
  evaluateTriple env best [] [] [Some Example.expensiveMod; None] = Ok best.
Proof.
  intros C items env best.
  apply (@early_abandonment C env best [] [] [Some Example.expensiveMod; None]
           [] Example.helmet [Example.gauntlets] 0%Z JsMap.empty
           {| assigned := []; unassigned := [Example.expensiveMod] |}
           eq_refl eq_refl eq_refl).
  vm_compute. reflexivity.
Defined.

(** ** The whole search *)

Section SearchFacts.

Context {C : Collaborators}.
Implicit Types (env : SearchEnv) (best : BestSoFar).
Implicit Types (ap cp gp : list (option Mod)).

Lemma searchLoop_triples env aps cps gps start :
  searchLoop env aps cps gps start
  = foldM (evaluate env) (triplesOf aps cps gps) start.
Proof.
  unfold searchLoop, triplesOf.
  rewrite foldM_flat_map. apply foldM_ext. intros b a.
  rewrite foldM_flat_map. apply foldM_ext. intros b' c.
  rewrite foldM_map. reflexivity.
Qed.

Lemma in_triplesOf aps cps gps a c g :
  In (a, c, g) (triplesOf aps cps gps) <->
  In a aps /\ In c cps /\ In g gps.
Proof.
  unfold triplesOf. rewrite in_flat_map. split.
  - intros [a' [Ha H]]. apply in_flat_map in H. destruct H as [c' [Hc H]].
    apply in_map_iff in H. destruct H as [g' [[= -> -> ->] Hg]]. auto.
  - intros (Ha & Hc & Hg). exists a. split; [exact Ha|].
    apply in_flat_map. exists c. split; [exact Hc|].
    apply in_map_iff. now exists g.
Qed.

(** *** No lookup of the search fails *)

Lemma slotOf_defined env ap cp gp i item :
  JsMap.get (id item) (itemEnergies env) <> None ->
  exists slot, slotOf env ap cp gp i item = Ok slot.
Proof.
  unfold slotOf. destruct (JsMap.get (id item) (itemEnergies env)) as [e|];
    [|congruence].
  intros _. rewrite assignSlot_Some. eauto.
Qed.

Lemma slotsFrom_defined env ap cp gp rest :
  (forall item, In item rest ->
                JsMap.get (id item) (itemEnergies env) <> None) ->
  forall i, exists slots,
    slotsFrom env ap cp gp i rest = Ok slots
    /\ map fst slots = map id rest.
Proof.
  induction rest as [|item rest IH]; intros Hcov i; simpl.
  - now exists [].
  - destruct (@slotOf_defined env ap cp gp i item) as [slot Hslot];
      [apply Hcov; now left|].
    destruct (IH (fun it H => Hcov it (or_intror H)) (S i))
      as [slots [Hslots Hkeys]].
    rewrite Hslot, Hslots. simpl. eexists. split; [reflexivity|].
    simpl. now rewrite Hkeys.
Qed.

Lemma In_recordAll slots :
  forall m kv, In kv (recordAll slots m) -> In kv slots \/ In kv m.
Proof.
  unfold recordAll.
  induction slots as [|[k v] slots IH]; intros m kv; simpl; [auto|].
  intros H. apply IH in H. destruct H as [H|H]; [auto|].
  apply JsMapFacts.In_set in H. destruct H as [->|H]; auto.
Qed.

Lemma energyLoop_defined env m :
  (forall kv, In kv m -> JsMap.get (fst kv) (itemEnergies env) <> None) ->
  forall acc, exists energy, energyLoop env m acc = Ok energy.
Proof.
  induction m as [|[k a] m IH]; intros Hcov acc; simpl.
  - now exists acc.
  - specialize (Hcov (k, a)) as Hk. simpl in Hk.
    destruct (JsMap.get k (itemEnergies env)) as [e|];
      [|exfalso; apply Hk; auto]. simpl.
    apply IH. intros kv Hin. apply Hcov. now right.
Qed.

Lemma evaluateTriple_defined env best ap cp gp :
  covers env -> exists b', evaluateTriple env best ap cp gp = Ok b'.
Proof.
  intros Hcov.
  destruct (@slotsFrom_defined env ap cp gp (env_items env) Hcov 0)
    as [slots [Hslots Hkeys]].
  unfold evaluateTriple.
  destruct (itemLoop_slots env best ap cp gp (env_items env) 0 0
              JsMap.empty Hslots) as [[j [Hj _]]|Hdone].
  - rewrite Hj. simpl. eauto.
  - rewrite Hdone. simpl bind.
    destruct (@energyLoop_defined env (recordAll slots JsMap.empty))
      with (acc := 0%Z) as [energy Henergy].
    { intros [k v] Hin. apply In_recordAll in Hin.
      destruct Hin as [Hin|[]]. simpl.
      assert (Hk : In k (map id (env_items env))).
      { rewrite <- Hkeys. apply in_map_iff. now exists (k, v). }
      apply in_map_iff in Hk. destruct Hk as [item [<- Hitem]].
      now apply Hcov. }
    rewrite Henergy. simpl. destruct (isImprovement _ _ _); eauto.
Qed.

Lemma searchLoop_defined env aps cps gps start :
  covers env -> exists b, searchLoop env aps cps gps start = Ok b.
Proof.
  intros Hcov. rewrite searchLoop_triples. apply foldM_defined.
  intros b [[a c] g] _. now apply evaluateTriple_defined.
Qed.

Lemma searchEnv_covers defs tier lock items pools :
  covers (searchEnv defs tier lock items pools).
Proof.
  intros item Hin. simpl in *. rewrite JsMapFacts.get_mapValues.
  pose proof (@JsMapFacts.keyBy_defined DimItem id items item Hin) as H.
  destruct (JsMap.get (id item) (JsMap.keyBy id items)); simpl; congruence.
Qed.

Lemma searchWinner_defined defs tier lock items mods :
  exists best, searchWinner defs tier lock items mods = Ok best.
Proof. apply searchLoop_defined, searchEnv_covers. Qed.

(** C6.  Without definitions the result is the empty map and the empty
    list, and with any arguments at all the function returns: no call
    raises. *)
Theorem absent_definitions_give_empty_result_and_nothing_throws
    (items : list DimItem) (mods : list Mod)
    (upgradeSpendTier : UpgradeSpendTier) (lockItemEnergyType : bool) :
  getCheapestModAssignments items mods None upgradeSpendTier
    lockItemEnergyType
  = Ok (JsMap.empty, [])
  /\ forall defs,
       exists result,
         getCheapestModAssignments items mods defs upgradeSpendTier
           lockItemEnergyType
         = Ok result.
Proof.
  split; [reflexivity|].
  intros [defs|]; simpl; [|eauto].
  destruct (searchWinner_defined defs upgradeSpendTier lockItemEnergyType
              items mods) as [best Hbest].
  rewrite Hbest. simpl. eauto.
Qed.

End SearchFacts.

(** ** Progress of the search *)

Lemma neverWorse_refl (b : BestSoFar) : neverWorse b b.
Proof.
  unfold neverWorse. split; [lia|]. intros _. split; [lia|].
  intros H. now contradiction H.
Qed.

Lemma neverWorse_trans : Transitive neverWorse.
Proof.
  intros a b c [Hab1 Hab2] [Hbc1 Hbc2]. unfold neverWorse.
  split; [lia|]. intros Hca.
  assert (Hba : assignmentUnassignedModCount b
                = assignmentUnassignedModCount a) by lia.
  assert (Hcb : assignmentUnassignedModCount c
                = assignmentUnassignedModCount b) by lia.
  destruct (Hab2 Hba) as [Hab3 Hab4]. destruct (Hbc2 Hcb) as [Hbc3 Hbc4].
  split; [lia|]. intros Hne.
  destruct (Z.eq_dec (assignmentEnergyCost b) (assignmentEnergyCost a))
    as [Eba|Nba]; [|lia].
  destruct (Z.eq_dec (assignmentEnergyCost c) (assignmentEnergyCost b))
    as [Ecb|Ncb]; [|lia].
  exfalso.
  assert (Hnn : c <> b -> False) by (intros H; apply Hbc4 in H; lia).
  apply Hnn. intros ->.
  apply Hab4 in Hne. lia.
Qed.

Section Progress.

Context {C : Collaborators}.

Lemma evaluateTriple_neverWorse env best ap cp gp b' :
  evaluateTriple env best ap cp gp = Ok b' -> neverWorse best b'.
Proof.
  intros H. apply evaluateTriple_cases in H.
  destruct H as [->|(count & assignments & energy & _ & _ & Himp & ->)].
  - apply neverWorse_refl.
  - apply isImprovement_true in Himp. unfold neverWorse. simpl.
    split; [lia|]. intros Heq. split; [lia|]. intros _. lia.
Qed.

(** The states the search goes through form a chain for [neverWorse]
    that starts at the start and ends at the result. *)
Lemma trace_of_fold env triples :
  forall b b',
    foldM (evaluate env) triples b = Ok b' ->
    exists rest,
      bestSoFarTrace env triples b = Ok (b :: rest)
      /\ (forall d, last (b :: rest) d = b')
      /\ Sorted neverWorse (b :: rest).
Proof.
  induction triples as [|t triples IH]; intros b b'; simpl.
  - intros [= <-]. exists []. repeat split; auto.
  - intros H. apply bind_Ok_inv in H. destruct H as [b1 [H1 H2]].
    destruct (IH b1 b' H2) as [rest [Htrace [Hlast Hsorted]]].
    rewrite H1. simpl. rewrite Htrace. simpl.
    exists (b1 :: rest). split; [reflexivity|]. split.
    + intros d. exact (Hlast d).
    + constructor; [exact Hsorted|]. constructor.
      destruct t as [[a c] g]. exact (evaluateTriple_neverWorse _ _ _ _ _ H1).
Qed.

(** C9.  Along the states of the search, taken in the order of the
    triples, the unassigned count never increases, and between two states
    with the same count the energy never increases and strictly decreases
    when the state has been replaced; this holds for consecutive states
    and for any earlier and later state. *)
Theorem search_progress_is_monotone
    (items : list DimItem) (mods : list Mod) (defs : D2ManifestDefinitions)
    (upgradeSpendTier : UpgradeSpendTier) (lockItemEnergyType : bool) :
  let pools :=
    divideMods defs upgradeSpendTier lockItemEnergyType items mods in
  let env :=
    searchEnv defs upgradeSpendTier lockItemEnergyType items pools in
  let triples :=
    triplesOf (generateModPermutations (activityMods pools))
              (generateModPermutations (combatMods pools))
              (generateModPermutations (generalMods pools)) in
  exists trace,
    bestSoFarTrace env triples (startOfSearch items) = Ok trace
    /\ searchWinner defs upgradeSpendTier lockItemEnergyType items mods
       = Ok (last trace (startOfSearch items))
    /\ Sorted neverWorse trace
    /\ StronglySorted neverWorse trace.
Proof.
  intros pools env triples.
  destruct (searchWinner_defined defs upgradeSpendTier lockItemEnergyType
              items mods) as [best Hbest].
  assert (Hfold : foldM (evaluate env) triples (startOfSearch items)
                  = Ok best).
  { rewrite <- Hbest. unfold searchWinner. now rewrite searchLoop_triples. }
  destruct (trace_of_fold env triples _ Hfold)
    as [rest [Htrace [Hlast Hsorted]]].
  exists (startOfSearch items :: rest).
  split; [exact Htrace|]. split; [now rewrite Hlast|].
  split; [exact Hsorted|].
  apply Sorted_StronglySorted; [exact neverWorse_trans | exact Hsorted].
Qed.

End Progress.

(** ** Order of the mods of a slot *)

Section PoolOrder.

Context {C : Collaborators}.

(** A loop over the items that runs to completion has recorded the slots
    of the triple. *)
Lemma itemLoop_completed env best ap cp gp :
  forall rest i u m u' m',
    itemLoop env best ap cp gp i rest u m = Ok (Completed u' m') ->
    exists slots,
      slotsFrom env ap cp gp i rest = Ok slots
      /\ m' = recordAll slots m
      /\ u' = (u + totalUnassigned slots)%Z
      /\ (u' <= assignmentUnassignedModCount best \/ rest = [])%Z.
Proof.
  induction rest as [|item rest IH]; intros i u m u' m'; simpl.
  - intros [= <- <-]. exists []. simpl. rewrite Z.add_0_r. auto.
  - intros H. apply bind_Ok_inv in H. destruct H as [slot [Hslot H]].
    destruct (Z.ltb_spec (assignmentUnassignedModCount best)
                (u + Z.of_nat (List.length (unassigned slot)))) as [Hlt|Hge];
      [discriminate|].
    apply IH in H. destruct H as [slots (Hslots & -> & -> & Hle)].
    exists ((id item, slot) :: slots). unfold slotOf. rewrite Hslot.
    simpl. rewrite Hslots. simpl. repeat split; [lia|].
    left. destruct Hle as [Hle| ->]; [lia|].
    simpl in Hslots. injection Hslots as <-. simpl. lia.
Qed.

Lemma slotsFrom_entries env ap cp gp :
  forall rest i slots,
    slotsFrom env ap cp gp i rest = Ok slots ->
    forall kv, In kv slots ->
      exists j item,
        In item rest /\ fst kv = id item
        /\ slotOf env ap cp gp j item = Ok (snd kv).
Proof.
  induction rest as [|item rest IH]; intros i slots; simpl.
  - intros [= <-] kv [].
  - intros H. apply bind_Ok_inv in H. destruct H as [slot [Hslot H]].
    apply bind_Ok_inv in H. destruct H as [slots' [Hslots [= <-]]].
    intros kv [<-|Hin].
    + exists i, item. simpl. auto.
    + destruct (IH _ _ Hslots kv Hin) as [j [it (Hit & Hk & Hs)]].
      exists j, it. auto.
Qed.

Lemma initialAssignments_entries items kv :
  In kv (initialAssignments items) -> snd kv = emptyAssignments.
Proof.
  unfold initialAssignments.
  assert (G : forall m : JsMap.t ModAssignments,
             (forall kv, In kv m -> snd kv = emptyAssignments) ->
             forall kv,
               In kv (fold_left
                        (fun m item => JsMap.set (id item) emptyAssignments m)
                        items m) ->
               snd kv = emptyAssignments).
  { induction items as [|item items IH]; intros m Hm kv'; simpl; [auto|].
    apply IH. intros kv2 H2. apply JsMapFacts.In_set in H2.
    destruct H2 as [->|H2]; auto. }
  apply G. intros kv' [].
Qed.

(** Every entry of the map of a completed triple lists what is kept of
    the activity, combat and general candidates of one position. *)
Lemma completed_in_pool_order env best ap cp gp count assignments :
  itemLoop env best ap cp gp 0 (env_items env) 0 JsMap.empty
  = Ok (Completed count assignments) ->
  Forall (fun kv =>
            exists i ka kc kg,
              assigned (snd kv)
              = keep ka (permAt ap i) ++ keep kc (permAt cp i)
                ++ keep kg (permAt gp i))
         assignments.
Proof.
  intros H. apply itemLoop_completed in H.
  destruct H as [slots (Hslots & -> & _)].
  apply Forall_forall. intros kv Hin.
  apply In_recordAll in Hin. destruct Hin as [Hin|[]].
  destruct (slotsFrom_entries _ _ _ _ _ _ Hslots kv Hin)
    as [j [item (_ & _ & Hslot)]].
  unfold slotOf in Hslot. apply assignSlot_shape in Hslot.
  destruct Hslot as (ka & kc & kg & Ha & _). now exists j, ka, kc, kg.
Qed.

(** C10.  In every candidate that the search builds, and in the winning
    one, the assigned list of a slot is made of the activity mod, then the
    combat mod, then the general mod of one position of the permutations,
    each of them present or missing; no other order occurs. *)
Theorem search_assigns_in_pool_order
    (items : list DimItem) (mods : list Mod) (defs : D2ManifestDefinitions)
    (upgradeSpendTier : UpgradeSpendTier) (lockItemEnergyType : bool) :
  let pools :=
    divideMods defs upgradeSpendTier lockItemEnergyType items mods in
  let env :=
    searchEnv defs upgradeSpendTier lockItemEnergyType items pools in
  let aps := generateModPermutations (activityMods pools) in
  let cps := generateModPermutations (combatMods pools) in
  let gps := generateModPermutations (generalMods pools) in
  (forall best ap cp gp count assignments,
      In ap aps -> In cp cps -> In gp gps ->
      itemLoop env best ap cp gp 0 items 0 JsMap.empty
      = Ok (Completed count assignments) ->
      Forall (fun kv => orderedByPool aps cps gps (assigned (snd kv)))
             assignments)
  /\ exists best,
       searchWinner defs upgradeSpendTier lockItemEnergyType items mods
       = Ok best
       /\ Forall (fun kv =>
                    assigned (snd kv) = []
                    \/ orderedByPool aps cps gps (assigned (snd kv)))
                 (bucketIndependentAssignments best).
Proof.
  intros pools env aps cps gps.
  assert (Hcand : forall best ap cp gp count assignments,
             In ap aps -> In cp cps -> In gp gps ->
             itemLoop env best ap cp gp 0 items 0 JsMap.empty
             = Ok (Completed count assignments) ->
             Forall (fun kv => orderedByPool aps cps gps (assigned (snd kv)))
                    assignments).
  { intros best ap cp gp count assignments Ha Hc Hg H.
    apply (completed_in_pool_order env) in H.
    eapply Forall_impl; [|exact H]. intros kv (i & ka & kc & kg & E).
    exists ap, cp, gp, i, ka, kc, kg. auto. }
  split; [exact Hcand|].
  destruct (searchWinner_defined defs upgradeSpendTier lockItemEnergyType
              items mods) as [best Hbest].
  exists best. split; [exact Hbest|].
  unfold searchWinner in Hbest. rewrite searchLoop_triples in Hbest.
  fold pools in Hbest. fold env in Hbest. fold aps cps gps in Hbest.
  apply (@foldM_invariant _ _
           (fun b => Forall (fun kv =>
                               assigned (snd kv) = []
                               \/ orderedByPool aps cps gps
                                    (assigned (snd kv)))
                            (bucketIndependentAssignments b))
           (evaluate env) (triplesOf aps cps gps))
    with (b := startOfSearch items); [| |exact Hbest].
  - intros b [[a c] g] b' Hb Hin Heval.
    apply in_triplesOf in Hin. destruct Hin as (Ha & Hc & Hg).
    apply evaluateTriple_cases in Heval.
    destruct Heval as [->|(count & assignments & energy & Hloop & _ & _ & ->)];
      [exact Hb|].
    simpl. eapply Forall_impl; [|exact (Hcand b a c g _ _ Ha Hc Hg Hloop)].
    intros kv H. now right.
  - simpl. apply Forall_forall. intros kv Hin. left.
    now rewrite (initialAssignments_entries _ _ Hin).
Qed.

End PoolOrder.

(** ** The merge *)

Section Merge.

Context {C : Collaborators}.

(** Under the id of an item the merged map holds the assigned mods of the
    search followed by those of the bucket specific pass. *)
Lemma mergeResults_get items bucketIndependent bucketSpecific item :
  In item items ->
  JsMap.get (id item)
    (fst (mergeResults items bucketIndependent bucketSpecific))
  = Some (assignedAt bucketIndependent (id item)
          ++ assignedAt bucketSpecific (id item)).
Proof.
  unfold mergeResults. intros Hin.
  assert (G : forall acc,
             In item items
             \/ JsMap.get (id item) (fst acc)
                = Some (assignedAt bucketIndependent (id item)
                        ++ assignedAt bucketSpecific (id item)) ->
             JsMap.get (id item)
               (fst (fold_left (mergeStep bucketIndependent bucketSpecific)
                       items acc))
             = Some (assignedAt bucketIndependent (id item)
                     ++ assignedAt bucketSpecific (id item))).
  { clear Hin. induction items as [|x items IH]; intros acc; simpl.
    - intros [[]|H]; exact H.
    - intros H. apply IH.
      destruct H as [[->|H]|H]; [right|now left|right]; simpl.
      + apply JsMapFacts.get_set_same.
      + destruct (string_dec (id item) (id x)) as [E|E].
        * rewrite <- E. apply JsMapFacts.get_set_same.
        * now rewrite JsMapFacts.get_set_other. }
  apply G. now left.
Qed.

(** With distinct ids the merged map has one entry per item, in the order
    of the items, and the flat list goes through the items in order. *)
Lemma mergeResults_NoDup items bucketIndependent bucketSpecific :
  NoDup (map id items) ->
  mergeResults items bucketIndependent bucketSpecific
  = (map (fun item =>
            (id item,
             assignedAt bucketIndependent (id item)
             ++ assignedAt bucketSpecific (id item)))
         items,
     flat_map (fun item =>
                 unassignedAt bucketIndependent (id item)
                 ++ unassignedAt bucketSpecific (id item))
              items).
Proof.
  unfold mergeResults. intros Hnd.
  assert (G : forall m u,
             NoDup (JsMap.keys m ++ map id items) ->
             fold_left (mergeStep bucketIndependent bucketSpecific) items
                       (m, u)
             = (m ++ map (fun item =>
                            (id item,
                             assignedAt bucketIndependent (id item)
                             ++ assignedAt bucketSpecific (id item)))
                         items,
                u ++ flat_map (fun item =>
                                 unassignedAt bucketIndependent (id item)
                                 ++ unassignedAt bucketSpecific (id item))
                              items)).
  { clear Hnd. induction items as [|x items IH]; intros m u Hnd; simpl.
    - now rewrite !app_nil_r.
    - unfold mergeStep at 2. simpl fst. simpl snd.
      rewrite JsMapFacts.set_fresh.
      + rewrite IH.
        * now rewrite <- !app_assoc.
        * unfold JsMap.keys. rewrite map_app. simpl.
          rewrite <- app_assoc. exact Hnd.
      + apply NoDup_remove_2 in Hnd. intros H. apply Hnd.
        apply in_or_app. now left. }
  apply (G [] []). exact Hnd.
Qed.

(** C1 (as the code has it).  For every input with definitions the
    function returns, and under the id of every item the merged map lists
    the assigned mods of the winner of the search first and the assigned
    mods of the bucket specific pass after them. *)
Theorem merged_lists_search_winner_first
    (items : list DimItem) (mods : list Mod) (defs : D2ManifestDefinitions)
    (upgradeSpendTier : UpgradeSpendTier) (lockItemEnergyType : bool) :
  let pools :=
    divideMods defs upgradeSpendTier lockItemEnergyType items mods in
  exists best,
    searchWinner defs upgradeSpendTier lockItemEnergyType items mods
    = Ok best
    /\ getCheapestModAssignments items mods (Some defs) upgradeSpendTier
         lockItemEnergyType
       = Ok (mergeResults items (bucketIndependentAssignments best)
               (bucketSpecificAssignments pools))
    /\ Forall (fun item =>
                 JsMap.get (id item)
                   (fst (mergeResults items
                           (bucketIndependentAssignments best)
                           (bucketSpecificAssignments pools)))
                 = Some (assignedAt (bucketIndependentAssignments best)
                                    (id item)
                         ++ assignedAt (bucketSpecificAssignments pools)
                                       (id item)))
              items.
Proof.
  intros pools.
  destruct (searchWinner_defined defs upgradeSpendTier lockItemEnergyType
              items mods) as [best Hbest].
  exists best. split; [exact Hbest|]. split.
  - simpl. rewrite Hbest. reflexivity.
  - apply Forall_forall. intros item Hin. now apply mergeResults_get.
Qed.

End Merge.

(** C1 (as the specification has it) fails: on a helmet with one helmet mod
    and one general mod, both of which fit, the bucket specific pass assigns
    the helmet mod, the search assigns the general mod, and the merged list
    starts with the general mod. *)
Lemma merged_bucket_specific_first_counterexample :
  let C := Example.collaborators 1 in
  let items := [Example.helmet] in
  let mods := [Example.helmetMod; Example.generalMod] in
  let preAssigned :=
    assignedAt (bucketSpecificAssignments (divideMods tt 10%Z false items mods))
               "helmet" in
  exists best merged unassigned searchAssigned,
    searchWinner tt 10%Z false items mods = Ok best
    /\ searchAssigned = assignedAt (bucketIndependentAssignments best) "helmet"
    /\ getCheapestModAssignments items mods (Some tt) 10%Z false
       = Ok (merged, unassigned)
    /\ preAssigned = [Example.helmetMod]
    /\ searchAssigned = [Example.generalMod]
    /\ JsMap.get "helmet" merged
       = Some [Example.generalMod; Example.helmetMod]
    /\ JsMap.get "helmet" merged <> Some (preAssigned ++ searchAssigned).
Proof.
  intros C items mods preAssigned.
  exists {| bucketIndependentAssignments :=
              [("helmet"%string,
                {| assigned := [Example.generalMod]; unassigned := [] |})];
            assignmentEnergyCost := 2;
            assignmentUnassignedModCount := 0 |},
         [("helmet"%string, [Example.generalMod; Example.helmetMod])],
         [], [Example.generalMod].
  repeat split; try reflexivity.
  vm_compute. discriminate.
Qed.

(** ** Capacity *)

Lemma sumBy_app (A : Type) (f : A -> Z) (l1 l2 : list A) :
  sumBy f (l1 ++ l2) = (sumBy f l1 + sumBy f l2)%Z.
Proof. induction l1 as [|x l1 IH]; simpl; [reflexivity | lia]. Qed.

Lemma NoDup_id_inj (items : list DimItem) (a b : DimItem) :
  NoDup (map id items) -> In a items -> In b items -> id a = id b -> a = b.
Proof.
  induction items as [|x items IH]; simpl; [contradiction|].
  intros Hnd Ha Hb E. inversion Hnd as [|? ? Hx Hnd']; subst.
  destruct Ha as [->|Ha], Hb as [->|Hb]; auto.
  - exfalso. apply Hx. rewrite E. now apply in_map.
  - exfalso. apply Hx. rewrite <- E. now apply in_map.
Qed.

Section Capacity.

Context {C : Collaborators}.

Lemma assignedAt_pushAt_other push k k' mod' m :
  k' <> k -> assignedAt (pushAt push k mod' m) k' = assignedAt m k'.
Proof.
  intros Hne. unfold assignedAt, pushAt.
  destruct (JsMap.get k m); [|reflexivity].
  now rewrite JsMapFacts.get_set_other.
Qed.

Lemma assignedAt_pushAssigned k mod' m :
  assignedAt (pushAt pushAssigned k mod' m) k
  = match JsMap.get k m with
    | Some a => assigned a ++ [mod']
    | None => []
    end.
Proof.
  unfold assignedAt, pushAt.
  destruct (JsMap.get k m) as [a|] eqn:E.
  - now rewrite JsMapFacts.get_set_same.
  - now rewrite E.
Qed.

Lemma assignedAt_pushUnassigned k k' mod' m :
  assignedAt (pushAt pushUnassigned k mod' m) k' = assignedAt m k'.
Proof.
  destruct (string_dec k' k) as [->|Hne].
  - unfold assignedAt, pushAt.
    destruct (JsMap.get k m) as [a|] eqn:E.
    + now rewrite JsMapFacts.get_set_same.
    + now rewrite E.
  - now apply assignedAt_pushAt_other.
Qed.

Lemma assignedAt_initial items k : assignedAt (initialAssignments items) k = [].
Proof.
  unfold assignedAt.
  destruct (JsMap.get k (initialAssignments items)) as [a|] eqn:E;
    [|reflexivity].
  apply JsMapFacts.get_In in E. apply initialAssignments_entries in E.
  simpl in E. now subst a.
Qed.

Variable defs : D2ManifestDefinitions.
Variable upgradeSpendTier : UpgradeSpendTier.
Variable lockItemEnergyType : bool.
Variable items : list DimItem.

Hypothesis distinct_ids : NoDup (map id items).

Lemma divideMod_within_capacity p mod' :
  preAssignedWithinCapacity defs upgradeSpendTier items p ->
  preAssignedWithinCapacity defs upgradeSpendTier items
    (divideMod defs upgradeSpendTier lockItemEnergyType items p mod').
Proof.
  intros Hp. unfold divideMod.
  destruct (Z.eqb _ _); [exact Hp|].
  destruct (includes combatCompatiblePlugCategoryHashes _); [exact Hp|].
  destruct (includes activityModPlugCategoryHashes _); [exact Hp|].
  destruct (findItemForMod items mod') as [itemForMod|] eqn:Efind;
    [|exact Hp].
  apply find_some in Efind. destruct Efind as [Hfor _].
  intros item Hin. simpl.
  destruct (isBucketSpecificModValid _ _ _ _ _ _) eqn:Evalid.
  - destruct (string_dec (id item) (id itemForMod)) as [E|E].
    + assert (item = itemForMod) by (eapply NoDup_id_inj; eauto). subst item.
      rewrite assignedAt_pushAssigned.
      unfold isBucketSpecificModValid in Evalid.
      apply andb_true_iff in Evalid. destruct Evalid as [_ Hle].
      apply Z.leb_le in Hle. unfold assignedAt in Hle.
      specialize (Hp itemForMod Hin). unfold assignedAt in Hp.
      destruct (JsMap.get (id itemForMod) (bucketSpecificAssignments p));
        [|exact Hp].
      rewrite sumBy_app. simpl. lia.
    + rewrite assignedAt_pushAt_other by exact E. now apply Hp.
  - rewrite assignedAt_pushUnassigned. now apply Hp.
Qed.

Lemma divideMods_within_capacity mods :
  (forall item, In item items ->
     (0 <= upgradeSpendTierToMaxEnergy defs upgradeSpendTier item)%Z) ->
  preAssignedWithinCapacity defs upgradeSpendTier items
    (divideMods defs upgradeSpendTier lockItemEnergyType items mods).
Proof.
  intros Hcap. unfold divideMods.
  assert (G : forall p, preAssignedWithinCapacity defs upgradeSpendTier items p ->
                        preAssignedWithinCapacity defs upgradeSpendTier items
                          (fold_left
                             (divideMod defs upgradeSpendTier
                                lockItemEnergyType items) mods p)).
  { induction mods as [|m mods IH]; intros p Hp; simpl; [exact Hp|].
    apply IH. now apply divideMod_within_capacity. }
  apply G. intros item Hin. simpl. rewrite assignedAt_initial. simpl.
  now apply Hcap.
Qed.

(** The table of energies holds, under the id of an item, the energy
    built from that item. *)
Lemma itemEnergies_get pools item :
  In item items ->
  JsMap.get (id item)
    (itemEnergies
       (searchEnv defs upgradeSpendTier lockItemEnergyType items pools))
  = Some (buildItemEnergy defs item
            (assignedAt (bucketSpecificAssignments pools) (id item))
            upgradeSpendTier lockItemEnergyType).
Proof.
  intros Hin. simpl. rewrite JsMapFacts.get_mapValues.
  now rewrite (JsMapFacts.get_keyBy_NoDup id items item distinct_ids Hin).
Qed.

Hypothesis valid_within_capacity : energyValidityWithinCapacity.

Lemma isActivityModValid_energy a md e :
  isActivityModValid a md e = true -> isModEnergyValid e a [] = true.
Proof. unfold isActivityModValid. now intros H%andb_true_iff. Qed.

Lemma isCombatModValid_energy c l md e :
  isCombatModValid c l md e = true -> isModEnergyValid e c l = true.
Proof. unfold isCombatModValid. now intros H%andb_true_iff. Qed.

(** The mods a slot ends up with fit, together with what the bucket
    specific pass used, in the derived capacity. *)
Lemma slotAssignments_capacity e md a c g :
  (used e <= derivedCapacity e)%Z ->
  (used e + sumBy modCost (assigned (slotAssignments e md a c g))
   <= derivedCapacity e)%Z.
Proof.
  intros Hbase. unfold slotAssignments.
  destruct a as [a|];
    [destruct (isActivityModValid a md e) eqn:Ea;
     [apply isActivityModValid_energy, valid_within_capacity in Ea|]|];
    (destruct c as [c|];
     [match goal with
      | |- context [isCombatModValid ?x ?y ?z ?w] =>
          destruct (isCombatModValid x y z w) eqn:Ec;
          [apply isCombatModValid_energy, valid_within_capacity in Ec|]
      end|]);
    (destruct g as [g|];
     [match goal with
      | |- context [isModEnergyValid ?x ?y ?z] =>
          destruct (isModEnergyValid x y z) eqn:Eg;
          [apply valid_within_capacity in Eg|]
      end|]);
    simpl in *; lia.
Qed.

Lemma evaluateTriple_within_capacity pools best ap cp gp b' :
  preAssignedWithinCapacity defs upgradeSpendTier items pools ->
  searchWithinCapacity defs upgradeSpendTier items pools best ->
  evaluateTriple
    (searchEnv defs upgradeSpendTier lockItemEnergyType items pools)
    best ap cp gp = Ok b' ->
  searchWithinCapacity defs upgradeSpendTier items pools b'.
Proof.
  intros Hpre Hbest Heval. apply evaluateTriple_cases in Heval.
  destruct Heval
    as [->|(count & assignments & energy & Hloop & _ & _ & ->)];
    [exact Hbest|].
  apply itemLoop_completed in Hloop.
  destruct Hloop as [slots (Hslots & -> & _)].
  intros item Hin. simpl. unfold assignedAt at 2.
  destruct (JsMap.get (id item) (recordAll slots JsMap.empty)) as [v|] eqn:Eg.
  - apply JsMapFacts.get_In, In_recordAll in Eg. destruct Eg as [Eg|[]].
    destruct (slotsFrom_entries _ _ _ _ _ _ Hslots _ Eg)
      as [j [item' (Hin' & Hid & Hslot)]].
    simpl in Hid, Hslot, Hin'.
    assert (item = item') by (eapply NoDup_id_inj; eauto). subst item'.
    unfold slotOf in Hslot. rewrite itemEnergies_get in Hslot by exact Hin.
    rewrite assignSlot_Some in Hslot. injection Hslot as <-.
    match goal with
    | |- context [slotAssignments ?e _ _ _ _] =>
        pose proof (slotAssignments_capacity e
                      (socketMetadataAt
                         (searchEnv defs upgradeSpendTier lockItemEnergyType
                            items pools) (id item))
                      (permAt ap j) (permAt cp j) (permAt gp j)) as Hcap
    end.
    simpl in Hcap. apply Hcap. now apply Hpre.
  - simpl. specialize (Hpre item Hin). lia.
Qed.

Lemma searchWinner_within_capacity mods best :
  (forall item, In item items ->
     (0 <= upgradeSpendTierToMaxEnergy defs upgradeSpendTier item)%Z) ->
  searchWinner defs upgradeSpendTier lockItemEnergyType items mods = Ok best ->
  searchWithinCapacity defs upgradeSpendTier items
    (divideMods defs upgradeSpendTier lockItemEnergyType items mods) best.
Proof.
  intros Hcap Hbest.
  pose proof (divideMods_within_capacity mods Hcap) as Hpre.
  unfold searchWinner in Hbest. rewrite searchLoop_triples in Hbest.
  revert Hbest.
  apply (@foldM_invariant _ _
           (searchWithinCapacity defs upgradeSpendTier items
              (divideMods defs upgradeSpendTier lockItemEnergyType items
                 mods))).
  - intros b [[a c] g] b' Hb _ Heval.
    eapply evaluateTriple_within_capacity; eauto.
  - intros item Hin. simpl. rewrite assignedAt_initial. simpl.
    specialize (Hpre item Hin). lia.
Qed.

End Capacity.

Lemma Forall2_map_right (A B : Type) (P : A -> B -> Prop) (f : A -> B)
    (l : list A) :
  (forall x, In x l -> P x (f x)) -> Forall2 P l (map f l).
Proof.
  induction l as [|x l IH]; simpl; intros H; constructor; auto.
Qed.

Lemma spec_validity_within_capacity (e : ItemEnergy) (mod' : Mod)
    (assignedMods : list Mod) :
  specIsModEnergyValid e mod' assignedMods = true ->
  (used e + sumBy modCost assignedMods + modCost mod' <= derivedCapacity e)%Z.
Proof.
  unfold specIsModEnergyValid. intros H. apply andb_true_iff in H.
  destruct H as [_ H]. now apply Z.leb_le.
Qed.

(** C7 (as the code has it).  When the ids of the slots are distinct, the
    derived capacities are
    not negative and the general validity predicate accepts a mod only
    within the derived capacity, the merged map has one entry per slot, and
    the costs of the mods of every entry (those of the search and those of
    the bucket specific pass) sum to at most the derived capacity of the
    slot. *)
Theorem assigned_mods_fit_derived_capacity {C : Collaborators}
    (items : list DimItem) (mods : list Mod) (defs : D2ManifestDefinitions)
    (upgradeSpendTier : UpgradeSpendTier) (lockItemEnergyType : bool) :
  NoDup (map id items) ->
  energyValidityWithinCapacity ->
  (forall item, In item items ->
     (0 <= upgradeSpendTierToMaxEnergy defs upgradeSpendTier item)%Z) ->
  exists merged unassignedMods,
    getCheapestModAssignments items mods (Some defs) upgradeSpendTier
      lockItemEnergyType
    = Ok (merged, unassignedMods)
    /\ Forall2 (fun item kv =>
                  fst kv = id item
                  /\ (sumBy modCost (snd kv)
                      <= upgradeSpendTierToMaxEnergy defs upgradeSpendTier
                           item)%Z)
               items merged.
Proof.
  intros Hnd Hvalid Hcap.
  destruct (searchWinner_defined defs upgradeSpendTier lockItemEnergyType
              items mods) as [best Hbest].
  pose proof (@searchWinner_within_capacity C defs upgradeSpendTier
                lockItemEnergyType items Hnd Hvalid mods best Hcap Hbest)
    as Hwithin.
  simpl. rewrite Hbest. simpl. rewrite mergeResults_NoDup by exact Hnd.
  eexists. eexists. split; [reflexivity|].
  apply Forall2_map_right. intros item Hin. simpl.
  split; [reflexivity|]. rewrite sumBy_app.
  specialize (Hwithin item Hin). lia.
Qed.

(** The capacity of a helmet and of gauntlets that may be upgraded to ten,
    with mods of every pool. *)
Lemma assigned_mods_fit_derived_capacity_witness :
  let C := Example.collaborators 2 in
  let items := [Example.helmet; Example.gauntlets] in
  let mods := [Example.helmetMod; Example.generalMod; Example.activityMod;
               Example.combatMod; Example.expensiveMod] in
  exists merged unassignedMods,
    getCheapestModAssignments items mods (Some tt) 10%Z false
    = Ok (merged, unassignedMods)
    /\ Forall2 (fun item kv =>
                  fst kv = id item
                  /\ (sumBy modCost (snd kv)
                      <= upgradeSpendTierToMaxEnergy tt 10%Z item)%Z)
               items merged.
Proof.
  intros C items mods.
  apply (@assigned_mods_fit_derived_capacity C items mods tt 10%Z false).
  - repeat constructor; simpl; intuition discriminate.
  - exact spec_validity_within_capacity.
  - intros item _. simpl. lia.
Defined.

(** C7 (as the specification has it) fails: two slots that share an id
    share the entries of the maps, so that a helmet mod of cost five, which
    fits the helmet of capacity five, is listed under the id of a second
    slot of derived capacity three; and a slot of negative derived capacity
    is over its capacity with no mod at all. *)
Lemma shared_id_exceeds_capacity_counterexample :
  (let C := Example.collaborators 2 in
   let twin :=
     {| id := "helmet"; bucket_hash := 2;
        energy := Some {| energyCapacity := 3; item_energyType := Arc |} |} in
   let bigHelmetMod := Example.mkMod 9 Example.helmetModHash 5 Thermal in
   exists merged unassignedMods assignedMods,
     getCheapestModAssignments [Example.helmet; twin] [bigHelmetMod]
       (Some tt) 0%Z false
     = Ok (merged, unassignedMods)
     /\ JsMap.get (id twin) merged = Some assignedMods
     /\ upgradeSpendTierToMaxEnergy tt 0%Z twin = 3%Z
     /\ sumBy modCost assignedMods = 5%Z
     /\ ~ (sumBy modCost assignedMods
           <= upgradeSpendTierToMaxEnergy tt 0%Z twin)%Z)
  /\ (let C := Example.collaborators 1 in
      let indebted :=
        {| id := "indebted"; bucket_hash := 3;
           energy :=
             Some {| energyCapacity := -3; item_energyType := Any |} |} in
      exists merged unassignedMods assignedMods,
        getCheapestModAssignments [indebted] [] (Some tt) (-3)%Z false
        = Ok (merged, unassignedMods)
        /\ JsMap.get (id indebted) merged = Some assignedMods
        /\ upgradeSpendTierToMaxEnergy tt (-3)%Z indebted = (-3)%Z
        /\ ~ (sumBy modCost assignedMods
              <= upgradeSpendTierToMaxEnergy tt (-3)%Z indebted)%Z).
Proof.
  split.
  - intros C twin bigHelmetMod.
    exists [("helmet"%string, [bigHelmetMod])], [], [bigHelmetMod].
    repeat split; try reflexivity. vm_compute. intros H. now apply H.
  - intros C indebted.
    exists [("indebted"%string, [])], [], [].
    repeat split; try reflexivity. vm_compute. intros H. now apply H.
Qed.

(** ** Conservation of the mods *)

Lemma perm_by_occurrences (l1 l2 : list Mod) :
  (forall x, occurrences l1 x = occurrences l2 x) -> Permutation l1 l2.
Proof. apply Permutation_count_occ. Qed.

Lemma occurrences_of_perm (l1 l2 : list Mod) :
  Permutation l1 l2 -> forall x, occurrences l1 x = occurrences l2 x.
Proof. apply Permutation_count_occ. Qed.

Lemma occurrences_app (l1 l2 : list Mod) (x : Mod) :
  occurrences (l1 ++ l2) x = occurrences l1 x + occurrences l2 x.
Proof. apply count_occ_app. Qed.

Lemma occurrences_flat_map_app (A : Type) (f g : A -> list Mod) (l : list A)
    (x : Mod) :
  occurrences (flat_map (fun a => f a ++ g a) l) x
  = occurrences (flat_map f l) x + occurrences (flat_map g l) x.
Proof.
  induction l as [|a l IH]; simpl; [reflexivity|].
  rewrite !occurrences_app, IH. lia.
Qed.

Lemma occurrences_flat_map_ext (A : Type) (f g : A -> list Mod) (l : list A)
    (x : Mod) :
  (forall a, In a l -> occurrences (f a) x = occurrences (g a) x) ->
  occurrences (flat_map f l) x = occurrences (flat_map g l) x.
Proof.
  induction l as [|a l IH]; simpl; intros H; [reflexivity|].
  rewrite !occurrences_app, IH, (H a); auto.
Qed.

Lemma occurrences_nil (x : Mod) : occurrences [] x = 0.
Proof. reflexivity. Qed.

Lemma occurrences_keep (k : bool) (o : option Mod) (x : Mod) :
  occurrences (keep k o) x + occurrences (keep (negb k) o) x
  = occurrences (present o) x.
Proof. destruct k; unfold keep, negb; rewrite occurrences_nil; lia. Qed.

Lemma length_keep (k : bool) (o : option Mod) :
  List.length (keep k o) <= List.length (present o).
Proof. destruct k; simpl; lia. Qed.

(** Reading a map through the ids of the items visits its entries, when
    the keys of the map are the ids of the items and these are distinct. *)
Lemma flat_map_by_items (f : ModAssignments -> list Mod) :
  forall (m : JsMap.t ModAssignments) (items : list DimItem),
    NoDup (map id items) ->
    JsMap.keys m = map id items ->
    flat_map (fun item =>
                match JsMap.get (id item) m with
                | Some a => f a
                | None => []
                end) items
    = flat_map (fun kv => f (snd kv)) m.
Proof.
  induction m as [|[k v] m IH]; intros [|item items] Hnd Hkeys;
    simpl in *; try discriminate; [reflexivity|].
  injection Hkeys as Hk Hkeys. subst k.
  rewrite String.eqb_refl. f_equal.
  inversion Hnd as [|? ? Hfresh Hnd']; subst.
  rewrite <- (IH items Hnd' Hkeys).
  clear - Hfresh. induction items as [|x items IH]; simpl; [reflexivity|].
  simpl in Hfresh.
  destruct (String.eqb (id x) (id item)) eqn:E.
  - apply String.eqb_eq in E. exfalso. apply Hfresh. left. now symmetry.
  - f_equal. apply IH. tauto.
Qed.

Section Conservation.

Context {C : Collaborators}.

(** *** The slots of a triple hold the mods the permutations place *)

Lemma assignSlot_mods ie md a c g v :
  assignSlot ie md a c g = Ok v ->
  (forall x, occurrences (assigned v ++ unassigned v) x
             = occurrences (present a ++ present c ++ present g) x)
  /\ List.length (unassigned v)
     <= List.length (present a ++ present c ++ present g).
Proof.
  intros H. apply assignSlot_shape in H.
  destruct H as (ka & kc & kg & -> & ->). split.
  - intros x. rewrite !occurrences_app.
    pose proof (occurrences_keep ka a x).
    pose proof (occurrences_keep kc c x).
    pose proof (occurrences_keep kg g x). lia.
  - rewrite !length_app.
    pose proof (length_keep (negb ka) a).
    pose proof (length_keep (negb kc) c).
    pose proof (length_keep (negb kg) g). lia.
Qed.

Lemma slotsFrom_mods env ap cp gp :
  forall rest i slots,
    slotsFrom env ap cp gp i rest = Ok slots ->
    map fst slots = map id rest
    /\ (forall x,
           occurrences (modsOf slots) x
           = occurrences
               (flat_map (candidatesAt ap cp gp) (seq i (List.length rest)))
               x)
    /\ (totalUnassigned slots
        <= Z.of_nat
             (List.length
                (flat_map (candidatesAt ap cp gp)
                   (seq i (List.length rest)))))%Z.
Proof.
  induction rest as [|item rest IH]; intros i slots; simpl.
  - intros [= <-]. simpl. repeat split; lia.
  - intros H. apply bind_Ok_inv in H. destruct H as [slot [Hslot H]].
    apply bind_Ok_inv in H. destruct H as [slots' [Hslots [= <-]]].
    destruct (IH _ _ Hslots) as (Hkeys & Hocc & Hlen).
    unfold slotOf in Hslot. apply assignSlot_mods in Hslot.
    destruct Hslot as [Hocc1 Hlen1].
    simpl. split; [now rewrite Hkeys|]. split.
    + intros x. unfold modsOf in *. simpl.
      rewrite (occurrences_app (assigned slot ++ unassigned slot)).
      rewrite (occurrences_app (candidatesAt ap cp gp i)).
      rewrite Hocc1, Hocc. reflexivity.
    + rewrite length_app. unfold candidatesAt at 1. lia.
Qed.

Lemma candidatesAt_placed ap cp gp n x :
  occurrences (flat_map (candidatesAt ap cp gp) (seq 0 n)) x
  = occurrences (placed n ap) x + occurrences (placed n cp) x
    + occurrences (placed n gp) x.
Proof.
  unfold candidatesAt, placed.
  rewrite occurrences_flat_map_app, occurrences_flat_map_app. lia.
Qed.

Lemma recordAll_fresh slots :
  forall m, NoDup (JsMap.keys m ++ map fst slots) ->
            recordAll slots m = m ++ slots.
Proof.
  unfold recordAll.
  induction slots as [|[k v] slots IH]; intros m Hnd; simpl.
  - now rewrite app_nil_r.
  - rewrite JsMapFacts.set_fresh.
    + rewrite IH.
      * now rewrite <- app_assoc.
      * unfold JsMap.keys. rewrite map_app. simpl. rewrite <- app_assoc.
        exact Hnd.
    + simpl in Hnd. apply NoDup_remove_2 in Hnd. intros H. apply Hnd.
      apply in_or_app. now left.
Qed.

(** *** The pools and the bucket specific pass hold every mod that has
    a place *)

Lemma pushAt_cons_same push k v' mod' (m : JsMap.t ModAssignments) :
  pushAt push k mod' ((k, v') :: m) = (k, push mod' v') :: m.
Proof. unfold pushAt. simpl. now rewrite String.eqb_refl. Qed.

Lemma pushAt_cons_other push k k' v' mod' (m : JsMap.t ModAssignments) :
  k <> k' ->
  pushAt push k mod' ((k', v') :: m) = (k', v') :: pushAt push k mod' m.
Proof.
  intros Hne. apply String.eqb_neq in Hne. unfold pushAt. simpl.
  rewrite Hne. destruct (JsMap.get k m); simpl; now rewrite ?Hne.
Qed.

Lemma modsOf_pushAt push k mod' m :
  (forall a x, occurrences (assigned (push mod' a)
                            ++ unassigned (push mod' a)) x
               = occurrences (assigned a ++ unassigned a) x
                 + occurrences [mod'] x) ->
  In k (JsMap.keys m) ->
  forall x, occurrences (modsOf (pushAt push k mod' m)) x
            = occurrences (modsOf m) x + occurrences [mod'] x.
Proof.
  intros Hpush. induction m as [|[k' v'] m IH]; simpl; [contradiction|].
  intros Hin x. destruct (string_dec k k') as [<-|Hne].
  - rewrite pushAt_cons_same. unfold modsOf. simpl.
    rewrite (occurrences_app (assigned (push mod' v')
                              ++ unassigned (push mod' v'))).
    rewrite (occurrences_app (assigned v' ++ unassigned v')).
    rewrite Hpush. lia.
  - rewrite pushAt_cons_other by exact Hne. unfold modsOf in *. simpl.
    rewrite (occurrences_app (assigned v' ++ unassigned v')).
    rewrite (occurrences_app (assigned v' ++ unassigned v')).
    rewrite IH; [lia|]. destruct Hin as [E|Hin]; [congruence | exact Hin].
Qed.

Lemma pushAssigned_mods mod' a x :
  occurrences (assigned (pushAssigned mod' a)
               ++ unassigned (pushAssigned mod' a)) x
  = occurrences (assigned a ++ unassigned a) x + occurrences [mod'] x.
Proof. simpl. rewrite !occurrences_app. lia. Qed.

Lemma pushUnassigned_mods mod' a x :
  occurrences (assigned (pushUnassigned mod' a)
               ++ unassigned (pushUnassigned mod' a)) x
  = occurrences (assigned a ++ unassigned a) x + occurrences [mod'] x.
Proof. simpl. rewrite !occurrences_app. lia. Qed.

Lemma keys_pushAt push k mod' m :
  JsMap.keys (pushAt push k mod' m) = JsMap.keys m.
Proof.
  unfold pushAt. destruct (JsMap.get k m) as [a|] eqn:E; [|reflexivity].
  apply JsMapFacts.keys_set_present. apply JsMapFacts.get_In_keys.
  congruence.
Qed.

Lemma keys_initialAssignments items :
  NoDup (map id items) ->
  JsMap.keys (initialAssignments items) = map id items.
Proof.
  unfold initialAssignments. intros Hnd.
  assert (G : forall m : JsMap.t ModAssignments,
             NoDup (JsMap.keys m ++ map id items) ->
             JsMap.keys
               (fold_left
                  (fun m item => JsMap.set (id item) emptyAssignments m)
                  items m)
             = JsMap.keys m ++ map id items).
  { clear Hnd. induction items as [|x items IH]; intros m Hnd; simpl.
    - now rewrite app_nil_r.
    - rewrite IH.
      + rewrite JsMapFacts.set_fresh.
        * unfold JsMap.keys. rewrite map_app. simpl.
          now rewrite <- app_assoc.
        * simpl in Hnd. apply NoDup_remove_2 in Hnd. intros H. apply Hnd.
          apply in_or_app. now left.
      + rewrite JsMapFacts.set_fresh.
        * unfold JsMap.keys. rewrite map_app. simpl.
          rewrite <- app_assoc. exact Hnd.
        * simpl in Hnd. apply NoDup_remove_2 in Hnd. intros H. apply Hnd.
          apply in_or_app. now left. }
  apply (G []). exact Hnd.
Qed.

Lemma divideMod_conserves defs tier lock items p mod' l :
  (forall item, In item items ->
                In (id item) (JsMap.keys (bucketSpecificAssignments p))) ->
  (forall x, occurrences l x
             = occurrences (generalMods p) x + occurrences (combatMods p) x
               + occurrences (activityMods p) x
               + occurrences (modsOf (bucketSpecificAssignments p)) x) ->
  let p' := divideMod defs tier lock items p mod' in
  JsMap.keys (bucketSpecificAssignments p')
  = JsMap.keys (bucketSpecificAssignments p)
  /\ forall x, occurrences (l ++ filter (hasPlace items) [mod']) x
               = occurrences (generalMods p') x
                 + occurrences (combatMods p') x
                 + occurrences (activityMods p') x
                 + occurrences (modsOf (bucketSpecificAssignments p')) x.
Proof.
  intros Hkeys Hocc p'. subst p'.
  unfold divideMod, hasPlace, inSharedPool in *. simpl filter.
  destruct (Z.eqb _ _); simpl.
  { split; [reflexivity|]. intros x.
    rewrite 2!occurrences_app, Hocc. lia. }
  destruct (includes combatCompatiblePlugCategoryHashes _); simpl.
  { split; [reflexivity|]. intros x.
    rewrite 2!occurrences_app, Hocc. lia. }
  destruct (includes activityModPlugCategoryHashes _); simpl.
  { split; [reflexivity|]. intros x.
    rewrite 2!occurrences_app, Hocc. lia. }
  destruct (findItemForMod items mod') as [itemForMod|] eqn:Efind.
  2:{ split; [reflexivity|]. intros x. rewrite app_nil_r. apply Hocc. }
  apply find_some in Efind. destruct Efind as [Hfor _].
  specialize (Hkeys itemForMod Hfor). simpl.
  destruct (isBucketSpecificModValid _ _ _ _ _ _).
  - split; [apply keys_pushAt|]. intros x.
    rewrite occurrences_app, Hocc.
    rewrite (modsOf_pushAt pushAssigned (id itemForMod) mod'
               (bucketSpecificAssignments p)
               (pushAssigned_mods mod') Hkeys). lia.
  - split; [apply keys_pushAt|]. intros x.
    rewrite occurrences_app, Hocc.
    rewrite (modsOf_pushAt pushUnassigned (id itemForMod) mod'
               (bucketSpecificAssignments p)
               (pushUnassigned_mods mod') Hkeys). lia.
Qed.

Lemma modsOf_initialAssignments items x :
  occurrences (modsOf (initialAssignments items)) x = 0.
Proof.
  unfold modsOf.
  assert (G : forall m : JsMap.t ModAssignments,
             (forall kv, In kv m -> snd kv = emptyAssignments) ->
             occurrences
               (flat_map (fun kv => assigned (snd kv) ++ unassigned (snd kv))
                  m) x = 0).
  { induction m as [|kv m IH]; intros Hm; simpl; [reflexivity|].
    rewrite occurrences_app, IH by (intros; apply Hm; now right).
    rewrite (Hm kv) by now left. reflexivity. }
  apply G. intros kv. apply initialAssignments_entries.
Qed.

Lemma divideMods_conserves defs tier lock items mods :
  NoDup (map id items) ->
  let p := divideMods defs tier lock items mods in
  JsMap.keys (bucketSpecificAssignments p) = map id items
  /\ forall x, occurrences (filter (hasPlace items) mods) x
               = occurrences (generalMods p) x
                 + occurrences (combatMods p) x
                 + occurrences (activityMods p) x
                 + occurrences (modsOf (bucketSpecificAssignments p)) x.
Proof.
  intros Hnd p. subst p. unfold divideMods.
  assert (G : forall p l,
             JsMap.keys (bucketSpecificAssignments p) = map id items ->
             (forall x, occurrences l x
                        = occurrences (generalMods p) x
                          + occurrences (combatMods p) x
                          + occurrences (activityMods p) x
                          + occurrences
                              (modsOf (bucketSpecificAssignments p)) x) ->
             let p' := fold_left (divideMod defs tier lock items) mods p in
             JsMap.keys (bucketSpecificAssignments p') = map id items
             /\ forall x, occurrences (l ++ filter (hasPlace items) mods) x
                          = occurrences (generalMods p') x
                            + occurrences (combatMods p') x
                            + occurrences (activityMods p') x
                            + occurrences
                                (modsOf (bucketSpecificAssignments p')) x).
  { induction mods as [|m mods IH]; intros p l Hkeys Hocc.
    - simpl. rewrite app_nil_r. auto.
    - destruct (@divideMod_conserves defs tier lock items p m l)
        as [Hkeys' Hocc']; auto.
      { intros item Hin. rewrite Hkeys. now apply in_map. }
      specialize (IH (divideMod defs tier lock items p m)
                     (l ++ filter (hasPlace items) [m])).
      simpl fold_left.
      replace (l ++ filter (hasPlace items) (m :: mods))
        with ((l ++ filter (hasPlace items) [m])
              ++ filter (hasPlace items) mods).
      + apply IH; [congruence | exact Hocc'].
      + rewrite <- app_assoc. f_equal. simpl.
        destruct (hasPlace items m); reflexivity. }
  apply (G _ []).
  - simpl. now apply keys_initialAssignments.
  - intros x. simpl. now rewrite modsOf_initialAssignments.
Qed.

(** *** The winner of the search is the candidate of a triple *)

Lemma evaluateTriple_candidate env aps cps gps best ap cp gp b' :
  In ap aps -> In cp cps -> In gp gps ->
  candidateOf env aps cps gps best ->
  evaluateTriple env best ap cp gp = Ok b' ->
  candidateOf env aps cps gps b'.
Proof.
  intros Ha Hc Hg Hbest Heval. apply evaluateTriple_cases in Heval.
  destruct Heval
    as [->|(count & assignments & energy & Hloop & _ & _ & ->)];
    [exact Hbest|].
  apply itemLoop_completed in Hloop.
  destruct Hloop as [slots (Hslots & -> & _)].
  exists ap, cp, gp, slots. simpl. auto.
Qed.

(** A triple whose unassigned count is below the best count replaces
    the best. *)
Lemma evaluateTriple_below env aps cps gps best ap cp gp slots b' :
  In ap aps -> In cp cps -> In gp gps ->
  slotsFrom env ap cp gp 0 (env_items env) = Ok slots ->
  (totalUnassigned slots < assignmentUnassignedModCount best)%Z ->
  evaluateTriple env best ap cp gp = Ok b' ->
  candidateOf env aps cps gps b'.
Proof.
  intros Ha Hc Hg Hslots Hlt Heval.
  exists ap, cp, gp, slots. repeat (split; [assumption|]).
  unfold evaluateTriple in Heval.
  destruct (itemLoop_slots env best ap cp gp (env_items env) 0 0
              JsMap.empty Hslots) as [[j [_ Hgt]]|Hdone]; [simpl in Hgt; lia|].
  rewrite Hdone in Heval. simpl bind in Heval.
  apply bind_Ok_inv in Heval. destruct Heval as [energy [_ Heval]].
  simpl Z.add in Heval.
  assert (Himp : isImprovement best (totalUnassigned slots) energy = true).
  { apply isImprovement_true. now left. }
  rewrite Himp in Heval. now injection Heval as <-.
Qed.

Lemma totalUnassigned_bound env ap cp gp slots n a c g :
  slotsFrom env ap cp gp 0 (env_items env) = Ok slots ->
  n = List.length (env_items env) ->
  Permutation (placed n ap) a ->
  Permutation (placed n cp) c ->
  Permutation (placed n gp) g ->
  (totalUnassigned slots
   <= Z.of_nat (List.length a + List.length c + List.length g))%Z
  /\ forall x, occurrences (modsOf slots) x
               = occurrences a x + occurrences c x + occurrences g x.
Proof.
  intros Hslots -> Pa Pc Pg.
  destruct (slotsFrom_mods _ _ _ _ _ _ Hslots) as (_ & Hocc & Hlen).
  assert (P : Permutation
                (flat_map (candidatesAt ap cp gp)
                   (seq 0 (List.length (env_items env))))
                (a ++ c ++ g)).
  { apply perm_by_occurrences. intros x.
    rewrite candidatesAt_placed, !occurrences_app.
    rewrite (occurrences_of_perm Pa), (occurrences_of_perm Pc),
      (occurrences_of_perm Pg). lia. }
  split.
  - apply Permutation_length in P. rewrite !length_app in P. lia.
  - intros x. rewrite Hocc, (occurrences_of_perm P), !occurrences_app. lia.
Qed.

End Conservation.

Lemma filter_all (A : Type) (f : A -> bool) (l : list A) :
  (forall x, In x l -> f x = true) -> filter f l = l.
Proof.
  induction l as [|x l IH]; simpl; intros H; [reflexivity|].
  rewrite (H x) by now left. f_equal. apply IH. intros y Hy. apply H.
  now right.
Qed.

(** C2 (as the code has it).  With definitions, distinct slot ids, fewer
    than 10000 mods and a generator that offers at least one permutation per
    pool and places exactly the mods of the pool on the first positions, one
    per slot: the mods of the output, that is the assigned lists of the
    slots followed by the flat unassigned list, are a permutation of the
    input mods that have a place (a shared pool, or a slot of their
    category); a mod without a place is in neither.  Hence, when every input
    mod has a place, every input mod appears exactly once and the numbers of
    mods agree. *)
Theorem every_placed_mod_is_conserved {C : Collaborators}
    (items : list DimItem) (mods : list Mod) (defs : D2ManifestDefinitions)
    (upgradeSpendTier : UpgradeSpendTier) (lockItemEnergyType : bool) :
  let pools :=
    divideMods defs upgradeSpendTier lockItemEnergyType items mods in
  NoDup (map id items) ->
  placesPool (List.length items) (activityMods pools) ->
  placesPool (List.length items) (combatMods pools) ->
  placesPool (List.length items) (generalMods pools) ->
  (Z.of_nat (List.length mods) < 10000)%Z ->
  exists merged unassignedMods,
    getCheapestModAssignments items mods (Some defs) upgradeSpendTier
      lockItemEnergyType
    = Ok (merged, unassignedMods)
    /\ Permutation (filter (hasPlace items) mods)
                   (List.concat (JsMap.values merged) ++ unassignedMods)
    /\ ((forall mod', In mod' mods -> hasPlace items mod' = true) ->
        Permutation mods (List.concat (JsMap.values merged) ++ unassignedMods)
        /\ List.length mods
           = List.length (List.concat (JsMap.values merged))
             + List.length unassignedMods).
Proof.
  intros pools Hnd [Hane Ha] [Hcne Hc] [Hgne Hg] Hfew.
  set (env := searchEnv defs upgradeSpendTier lockItemEnergyType items pools).
  set (aps := generateModPermutations (activityMods pools)) in *.
  set (cps := generateModPermutations (combatMods pools)) in *.
  set (gps := generateModPermutations (generalMods pools)) in *.
  destruct (divideMods_conserves defs upgradeSpendTier lockItemEnergyType
              items mods Hnd) as [HkeysS HoccS].
  fold pools in HkeysS, HoccS.
  assert (Hlen : List.length (generalMods pools)
                 + List.length (combatMods pools)
                 + List.length (activityMods pools)
                 <= List.length mods).
  { assert (P : Permutation (filter (hasPlace items) mods)
                  (generalMods pools ++ combatMods pools
                   ++ activityMods pools
                   ++ modsOf (bucketSpecificAssignments pools))).
    { apply perm_by_occurrences. intros x. rewrite !occurrences_app, HoccS.
      lia. }
    apply Permutation_length in P. rewrite !length_app in P.
    pose proof (filter_length_le (hasPlace items) mods). lia. }
  (* the winner is the candidate of a triple *)
  destruct (searchWinner_defined defs upgradeSpendTier lockItemEnergyType
              items mods) as [best Hbest].
  assert (Hcand : candidateOf env aps cps gps best).
  { unfold searchWinner in Hbest. rewrite searchLoop_triples in Hbest.
    fold pools env aps cps gps in Hbest.
    destruct aps as [|ap aps'] eqn:Eaps; [congruence|].
    destruct cps as [|cp cps'] eqn:Ecps; [congruence|].
    destruct gps as [|gp gps'] eqn:Egps; [congruence|].
    simpl in Hbest. apply bind_Ok_inv in Hbest.
    destruct Hbest as [b1 [Hfirst Hrest]].
    assert (Hb1 : candidateOf env (ap :: aps') (cp :: cps') (gp :: gps') b1).
    { destruct (@slotsFrom_defined C env ap cp gp (env_items env)
                  (@searchEnv_covers C defs upgradeSpendTier
                     lockItemEnergyType items pools) 0)
        as [slots [Hslots _]].
      apply (@evaluateTriple_below C env _ _ _ (startOfSearch items)
               ap cp gp slots b1); simpl; auto.
      destruct (@totalUnassigned_bound C env ap cp gp slots
                  (List.length items) (activityMods pools)
                  (combatMods pools) (generalMods pools) Hslots eq_refl)
        as [Hbound _]; [apply Ha|apply Hc|apply Hg|]; simpl; auto.
      lia. }
    revert Hrest.
    apply (@foldM_invariant _ _
             (candidateOf env (ap :: aps') (cp :: cps') (gp :: gps'))
             (evaluate env)); [|exact Hb1].
    intros b [[a c] g] b' Hb Hin Heval.
    assert (Hin' : In (a, c, g)
                      (triplesOf (ap :: aps') (cp :: cps') (gp :: gps'))).
    { simpl. right. exact Hin. }
    apply in_triplesOf in Hin'. destruct Hin' as (Ha' & Hc' & Hg').
    eapply evaluateTriple_candidate; eauto. }
  destruct Hcand as (ap & cp & gp & slots & Hap & Hcp & Hgp & Hslots & HW).
  destruct (@totalUnassigned_bound C env ap cp gp slots
              (List.length items) (activityMods pools)
              (combatMods pools) (generalMods pools) Hslots eq_refl
              (Ha ap Hap) (Hc cp Hcp) (Hg gp Hgp)) as [_ HoccW].
  destruct (slotsFrom_mods _ _ _ _ _ _ Hslots) as (HkeysW & _ & _).
  simpl in HkeysW.
  rewrite recordAll_fresh in HW by (simpl; now rewrite HkeysW).
  simpl in HW.
  (* the merged result *)
  simpl. rewrite Hbest. simpl. fold pools.
  rewrite mergeResults_NoDup by exact Hnd.
  eexists. eexists. split; [reflexivity|].
  assert (P : Permutation (filter (hasPlace items) mods)
                (List.concat
                   (JsMap.values
                      (map (fun item =>
                              (id item,
                               assignedAt (bucketIndependentAssignments best)
                                          (id item)
                               ++ assignedAt (bucketSpecificAssignments pools)
                                             (id item)))
                           items))
                 ++ flat_map
                      (fun item =>
                         unassignedAt (bucketIndependentAssignments best)
                                      (id item)
                         ++ unassignedAt (bucketSpecificAssignments pools)
                                         (id item))
                      items)).
  { unfold JsMap.values. rewrite map_map. simpl.
    rewrite <- flat_map_concat_map.
    apply perm_by_occurrences. intros x.
    rewrite occurrences_app, !occurrences_flat_map_app.
    unfold assignedAt, unassignedAt.
    rewrite (flat_map_by_items assigned (bucketIndependentAssignments best)
               items Hnd) by (rewrite HW; exact HkeysW).
    rewrite (flat_map_by_items unassigned (bucketIndependentAssignments best)
               items Hnd) by (rewrite HW; exact HkeysW).
    rewrite (flat_map_by_items assigned (bucketSpecificAssignments pools)
               items Hnd HkeysS).
    rewrite (flat_map_by_items unassigned (bucketSpecificAssignments pools)
               items Hnd HkeysS).
    specialize (HoccS x). specialize (HoccW x).
    unfold modsOf in HoccS, HoccW.
    rewrite occurrences_flat_map_app in HoccS, HoccW.
    rewrite HW. lia. }
  split; [exact P|].
  intros Hall. rewrite (filter_all _ _ Hall) in P.
  split; [exact P|].
  apply Permutation_length in P. now rewrite length_app in P.
Qed.

(** C2 (as the specification has it) fails: a mod whose category is neither
    shared nor that of a slot is in neither output; a general mod offered to
    no slot at all is dropped; and two slots with the same id share one
    entry of the map of a triple, so one of two general mods is lost. *)
Lemma unplaced_mods_are_dropped_counterexample :
  (let C := Example.collaborators 1 in
   let mods := [Example.strayMod] in
   exists merged unassignedMods,
     getCheapestModAssignments [Example.helmet] mods (Some tt) 10%Z false
     = Ok (merged, unassignedMods)
     /\ ~ In Example.strayMod
            (List.concat (JsMap.values merged) ++ unassignedMods)
     /\ List.length mods
        <> List.length (List.concat (JsMap.values merged))
           + List.length unassignedMods)
  /\ (let C := Example.collaborators 0 in
      let mods := [Example.generalMod] in
      exists merged unassignedMods,
        getCheapestModAssignments [] mods (Some tt) 10%Z false
        = Ok (merged, unassignedMods)
        /\ List.length mods
           <> List.length (List.concat (JsMap.values merged))
              + List.length unassignedMods)
  /\ (let C := Example.collaborators 2 in
      let mods := [Example.generalMod; Example.arcMod] in
      let twin :=
        {| id := "helmet"; bucket_hash := 2;
           energy := Some {| energyCapacity := 3; item_energyType := Arc |} |}
      in
      exists merged unassignedMods,
        getCheapestModAssignments [Example.helmet; twin] mods (Some tt)
          10%Z false
        = Ok (merged, unassignedMods)
        /\ List.length mods
           <> List.length (List.concat (JsMap.values merged))
              + List.length unassignedMods).
Proof.
  split; [|split].
  - exists [("helmet"%string, [])], []. split; [reflexivity|].
    split; simpl; [tauto | lia].
  - exists [], []. split; [reflexivity|]. simpl. lia.
  - exists [("helmet"%string, [Example.arcMod])], [].
    split; [reflexivity|]. simpl. lia.
Qed.

(** Conservation on a helmet and gauntlets with a helmet mod, two general
    mods, an activity mod, a combat mod and a mod without a place. *)
Lemma every_placed_mod_is_conserved_witness :
  let C := Example.collaborators 2 in
  let items := [Example.helmet; Example.gauntlets] in
  let mods := [Example.helmetMod; Example.generalMod; Example.activityMod;
               Example.strayMod; Example.combatMod; Example.expensiveMod] in
  exists merged unassignedMods,
    getCheapestModAssignments items mods (Some tt) 10%Z false
    = Ok (merged, unassignedMods)
    /\ Permutation (filter (hasPlace items) mods)
                   (List.concat (JsMap.values merged) ++ unassignedMods)
    /\ ((forall mod', In mod' mods -> hasPlace items mod' = true) ->
        Permutation mods (List.concat (JsMap.values merged) ++ unassignedMods)
        /\ List.length mods
           = List.length (List.concat (JsMap.values merged))
             + List.length unassignedMods).
Proof.
  intros C items mods.
  apply (@every_placed_mod_is_conserved C items mods tt 10%Z false).
  - repeat constructor; simpl; intuition discriminate.
  - split; [vm_compute; discriminate|]. intros p Hin. vm_compute in Hin.
    destruct Hin as [<-|[<-|[]]]; vm_compute; apply Permutation_refl.
  - split; [vm_compute; discriminate|]. intros p Hin. vm_compute in Hin.
    destruct Hin as [<-|[<-|[]]]; vm_compute; apply Permutation_refl.
  - split; [vm_compute; discriminate|]. intros p Hin. vm_compute in Hin.
    destruct Hin as [<-|[<-|[]]]; vm_compute;
      first [apply Permutation_refl | apply perm_swap].
  - simpl. lia.
Defined.

(** The score of a helmet of original capacity five and type Thermal that
    holds a general mod of cost four. *)
Lemma calculateEnergyChange_by_final_type_witness :
  calculateEnergyChange
    {| used := 0; originalCapacity := 5; derivedCapacity := 10;
       originalType := Thermal; derivedType := Thermal |}
    [Example.generalMod]
  = Z.max 0 (0 + sumBy modCost [Example.generalMod] - 5).
Proof.
  apply (proj1 (proj2 (calculateEnergyChange_by_final_type
                         {| used := 0; originalCapacity := 5;
                            derivedCapacity := 10;
                            originalType := Thermal;
                            derivedType := Thermal |}
                         [Example.generalMod]))).
  left. reflexivity.
Defined.

(** The activity mod of the examples is valid for the gauntlets, whose
    socket has its tag. *)
Lemma specialty_validity_requires_tag_witness :
  let C := Example.collaborators 2 in
  exists tag,
    getModTypeTagByPlugCategoryHash
      (plugCategoryHash (plug Example.activityMod)) = Some tag
    /\ In tag (slotCompatibleTags
                 (getSpecialtySocketMetadatas Example.gauntlets)).
Proof.
  intros C.
  apply (proj1 (@specialty_validity_requires_tag C Example.activityMod []
                  (getSpecialtySocketMetadatas Example.gauntlets)
                  {| used := 0; originalCapacity := 3; derivedCapacity := 10;
                     originalType := Arc; derivedType := Arc |})).
  reflexivity.
Defined.

(** The candidate of the only triple of a helmet with one general mod. *)
Lemma search_assigns_in_pool_order_witness :
  let C := Example.collaborators 1 in
  let items := [Example.helmet] in
  let mods := [Example.generalMod] in
  let pools := divideMods tt 10%Z false items mods in
  Forall (fun kv =>
            orderedByPool (generateModPermutations (activityMods pools))
              (generateModPermutations (combatMods pools))
              (generateModPermutations (generalMods pools))
              (assigned (snd kv)))
         [("helmet"%string,
           {| assigned := [Example.generalMod]; unassigned := [] |})].
Proof.
  intros C items mods pools.
  apply (proj1 (@search_assigns_in_pool_order C items mods tt 10%Z false)
           (startOfSearch items) [None] [None] [Some Example.generalMod] 0%Z).
  - vm_compute. auto.
  - vm_compute. auto.
  - vm_compute. auto.
  - reflexivity.
Defined.

(** * Further properties *)

(** ** The winner of the search is the first best triple *)

Lemma foldM_prefix_invariant (A B : Type) (P : list A -> B -> Prop)
    (f : B -> A -> Result B) :
  (forall l a b b', P l b -> f b a = Ok b' -> P (l ++ [a]) b') ->
  forall l processed b b',
    P processed b -> foldM f l b = Ok b' -> P (processed ++ l) b'.
Proof.
  intros Hstep. induction l as [|a l IH]; intros processed b b' Hb; simpl.
  - intros [= <-]. now rewrite app_nil_r.
  - intros H. apply bind_Ok_inv in H. destruct H as [b1 [H1 H2]].
    replace (processed ++ a :: l) with ((processed ++ [a]) ++ l)
      by (now rewrite <- app_assoc).
    apply (IH _ b1); [|exact H2]. now apply (Hstep processed a b).
Qed.

Lemma strictlyBetter_noWorse (a b : BestSoFar) :
  strictlyBetter a b -> noWorse a b.
Proof. unfold strictlyBetter, noWorse. lia. Qed.

Lemma strictlyBetter_trans_noWorse (a b c : BestSoFar) :
  strictlyBetter a b -> noWorse b c -> strictlyBetter a c.
Proof. unfold strictlyBetter, noWorse. lia. Qed.

Lemma strictlyBetter_trans (a b c : BestSoFar) :
  strictlyBetter a b -> strictlyBetter b c -> strictlyBetter a c.
Proof. unfold strictlyBetter. lia. Qed.

Lemma noWorse_trans (a b c : BestSoFar) :
  noWorse a b -> noWorse b c -> noWorse a c.
Proof. unfold noWorse. lia. Qed.

Lemma noWorse_refl (a : BestSoFar) : noWorse a a.
Proof. unfold noWorse. lia. Qed.

Section FirstBest.

Context {C : Collaborators}.
Implicit Types (env : SearchEnv) (best : BestSoFar).

Lemma candidateFor_defined env t :
  covers env -> exists cand, candidateFor env t = Ok cand.
Proof.
  intros Hcov. destruct t as [[ap cp] gp]. unfold candidateFor. simpl.
  destruct (@slotsFrom_defined C env ap cp gp (env_items env) Hcov 0)
    as [slots [Hslots Hkeys]].
  rewrite Hslots. simpl.
  destruct (@energyLoop_defined env (recordAll slots JsMap.empty))
    with (acc := 0%Z) as [energy Henergy].
  { intros [k v] Hin. apply In_recordAll in Hin.
    destruct Hin as [Hin|[]]. simpl.
    assert (Hk : In k (map id (env_items env))).
    { rewrite <- Hkeys. apply in_map_iff. now exists (k, v). }
    apply in_map_iff in Hk. destruct Hk as [item [<- Hitem]].
    now apply Hcov. }
  rewrite Henergy. simpl. eauto.
Qed.

(** What a triple does to the best, in terms of the state it would
    leave: it replaces the best when that state is strictly better, and
    leaves the best as it is otherwise. *)
Lemma evaluate_candidate env best t cand :
  candidateFor env t = Ok cand ->
  (strictlyBetter cand best -> evaluate env best t = Ok cand)
  /\ (~ strictlyBetter cand best ->
      evaluate env best t = Ok best /\ noWorse best cand).
Proof.
  destruct t as [[ap cp] gp]. unfold candidateFor, evaluate. simpl.
  intros H. apply bind_Ok_inv in H. destruct H as [slots [Hslots H]].
  apply bind_Ok_inv in H. destruct H as [energy [Henergy [= <-]]].
  unfold strictlyBetter, noWorse. simpl.
  unfold evaluateTriple.
  destruct (itemLoop_slots env best ap cp gp (env_items env) 0 0
              JsMap.empty Hslots) as [[j [Hj Hlt]]|Hdone].
  - rewrite Hj. simpl in *. split; [lia|]. intros _. split; [reflexivity|lia].
  - rewrite Hdone. simpl bind. rewrite Henergy. simpl bind. simpl Z.add.
    destruct (isImprovement best (totalUnassigned slots) energy) eqn:Himp.
    + split; [reflexivity|]. intros Hn. exfalso. apply Hn.
      now apply isImprovement_true.
    + split.
      * intros Hb. apply isImprovement_true in Hb. congruence.
      * intros Hn. split; [reflexivity|].
        assert (Hni : ~ ((totalUnassigned slots
                          < assignmentUnassignedModCount best)%Z
                         \/ (totalUnassigned slots
                             = assignmentUnassignedModCount best
                             /\ (energy < assignmentEnergyCost best)%Z)))
          by exact Hn.
        lia.
Qed.

(** After the triples [triples], either no triple was strictly better
    than the start, which is still the best, or the best is the state of
    a triple that is strictly better than the start and than every triple
    before it, and no worse than every triple after it. *)
Lemma fold_first_best env triples start best :
  covers env ->
  foldM (evaluate env) triples start = Ok best ->
  (best = start
   /\ forall t, In t triples ->
        exists cand, candidateFor env t = Ok cand /\ noWorse start cand)
  \/ (exists before t after,
        triples = before ++ t :: after
        /\ candidateFor env t = Ok best
        /\ strictlyBetter best start
        /\ (forall t', In t' before ->
              exists cand, candidateFor env t' = Ok cand
                           /\ strictlyBetter best cand)
        /\ (forall t', In t' after ->
              exists cand, candidateFor env t' = Ok cand
                           /\ noWorse best cand)).
Proof.
  intros Hcov Hfold.
  pose (P := fun (l : list (list (option Mod) * list (option Mod)
                            * list (option Mod))) (b : BestSoFar) =>
    (b = start
     /\ forall t, In t l ->
          exists cand, candidateFor env t = Ok cand /\ noWorse start cand)
    \/ (exists before t after,
          l = before ++ t :: after
          /\ candidateFor env t = Ok b
          /\ strictlyBetter b start
          /\ (forall t', In t' before ->
                exists cand, candidateFor env t' = Ok cand
                             /\ strictlyBetter b cand)
          /\ (forall t', In t' after ->
                exists cand, candidateFor env t' = Ok cand
                             /\ noWorse b cand))).
  change (P ([] ++ triples) best).
  apply (@foldM_prefix_invariant _ _ P (evaluate env)) with (b := start);
    [| |exact Hfold].
  - intros l t b b' Hb Heval.
    destruct (@candidateFor_defined env t Hcov) as [cand Hcand].
    destruct (@evaluate_candidate env b t cand Hcand) as [Hyes Hno].
    assert (Hdec : strictlyBetter cand b \/ ~ strictlyBetter cand b)
      by (unfold strictlyBetter; lia).
    destruct Hdec as [Hbetter|Hnot].
    + rewrite (Hyes Hbetter) in Heval. injection Heval as <-.
      right. exists l, t, []. split; [reflexivity|]. split; [exact Hcand|].
      destruct Hb as [[-> Hall]|(before & t0 & after & -> & Hc0 & Hs0 & Hbef
                                 & Haft)].
      * split; [exact Hbetter|]. split; [|intros t' []].
        intros t' Hin. destruct (Hall t' Hin) as [c' [Hc' Hn']].
        exists c'. split; [exact Hc'|].
        eapply strictlyBetter_trans_noWorse; eauto.
      * split; [eapply strictlyBetter_trans; eauto|].
        split; [|intros t' []].
        intros t' Hin. apply in_app_or in Hin.
        destruct Hin as [Hin|[<-|Hin]].
        -- destruct (Hbef t' Hin) as [c' [Hc' Hn']]. exists c'.
           split; [exact Hc'|]. eapply strictlyBetter_trans; eauto.
        -- exists b. split; [exact Hc0 | exact Hbetter].
        -- destruct (Haft t' Hin) as [c' [Hc' Hn']]. exists c'.
           split; [exact Hc'|].
           eapply strictlyBetter_trans_noWorse; eauto.
    + destruct (Hno Hnot) as [Hsame Hnw]. rewrite Hsame in Heval.
      injection Heval as <-.
      destruct Hb as [[-> Hall]|(before & t0 & after & -> & Hc0 & Hs0 & Hbef
                                 & Haft)].
      * left. split; [reflexivity|]. intros t' Hin. apply in_app_or in Hin.
        destruct Hin as [Hin|[<-|[]]]; [now apply Hall|].
        exists cand. auto.
      * right. exists before, t0, (after ++ [t]).
        split; [now rewrite <- app_assoc|].
        split; [exact Hc0|]. split; [exact Hs0|]. split; [exact Hbef|].
        intros t' Hin. apply in_app_or in Hin.
        destruct Hin as [Hin|[<-|[]]]; [now apply Haft|].
        exists cand. auto.
  - left. split; [reflexivity|]. intros t [].
Qed.

(** X1.  The winner of the search is no worse, in the lexicographic order
    of unassigned count then energy, than the start keys (10000, 10000)
    and than the state every triple of permutations would leave, the
    triples abandoned early included. *)
Theorem winner_is_no_worse_than_any_triple
    (items : list DimItem) (mods : list Mod) (defs : D2ManifestDefinitions)
    (upgradeSpendTier : UpgradeSpendTier) (lockItemEnergyType : bool) :
  let pools :=
    divideMods defs upgradeSpendTier lockItemEnergyType items mods in
  let env :=
    searchEnv defs upgradeSpendTier lockItemEnergyType items pools in
  let triples :=
    triplesOf (generateModPermutations (activityMods pools))
              (generateModPermutations (combatMods pools))
              (generateModPermutations (generalMods pools)) in
  exists best,
    searchWinner defs upgradeSpendTier lockItemEnergyType items mods = Ok best
    /\ noWorse best (startOfSearch items)
    /\ Forall (fun t => exists cand,
                 candidateFor env t = Ok cand /\ noWorse best cand)
              triples.
Proof.
  intros pools env triples.
  destruct (searchWinner_defined defs upgradeSpendTier lockItemEnergyType
              items mods) as [best Hbest].
  exists best. split; [exact Hbest|].
  unfold searchWinner in Hbest. rewrite searchLoop_triples in Hbest.
  apply fold_first_best in Hbest; [|apply searchEnv_covers].
  fold pools in Hbest. fold env in Hbest. fold triples in Hbest.
  destruct Hbest as [[-> Hall]|(before & t & after & E & Hc & Hs & Hbef
                               & Haft)].
  - split; [apply noWorse_refl|]. apply Forall_forall. exact Hall.
  - split; [now apply strictlyBetter_noWorse|].
    apply Forall_forall. intros t' Hin. rewrite E in Hin.
    apply in_app_or in Hin. destruct Hin as [Hin|[<-|Hin]].
    + destruct (Hbef t' Hin) as [c' [Hc' Hn']]. exists c'.
      split; [exact Hc'|]. now apply strictlyBetter_noWorse.
    + exists best. split; [exact Hc | apply noWorse_refl].
    + now apply Haft.
Qed.

(** X2.  The winner of the search is either the start, and then no triple
    is strictly better than the start keys, or the state of the first
    triple, in the order of the loops, that attains the best keys: that
    triple is strictly better than the start, every triple visited before
    it is strictly worse than it, and no triple visited after it is
    better. *)
Theorem winner_is_first_best_triple
    (items : list DimItem) (mods : list Mod) (defs : D2ManifestDefinitions)
    (upgradeSpendTier : UpgradeSpendTier) (lockItemEnergyType : bool) :
  let pools :=
    divideMods defs upgradeSpendTier lockItemEnergyType items mods in
  let env :=
    searchEnv defs upgradeSpendTier lockItemEnergyType items pools in
  let triples :=
    triplesOf (generateModPermutations (activityMods pools))
              (generateModPermutations (combatMods pools))
              (generateModPermutations (generalMods pools)) in
  exists best,
    searchWinner defs upgradeSpendTier lockItemEnergyType items mods = Ok best
    /\ ((best = startOfSearch items
         /\ Forall (fun t => exists cand,
                      candidateFor env t = Ok cand
                      /\ noWorse (startOfSearch items) cand)
                   triples)
        \/ exists before t after,
             triples = before ++ t :: after
             /\ candidateFor env t = Ok best
             /\ strictlyBetter best (startOfSearch items)
             /\ Forall (fun t' => exists cand,
                          candidateFor env t' = Ok cand
                          /\ strictlyBetter best cand)
                       before
             /\ Forall (fun t' => exists cand,
                          candidateFor env t' = Ok cand
                          /\ noWorse best cand)
                       after).
Proof.
  intros pools env triples.
  destruct (searchWinner_defined defs upgradeSpendTier lockItemEnergyType
              items mods) as [best Hbest].
  exists best. split; [exact Hbest|].
  unfold searchWinner in Hbest. rewrite searchLoop_triples in Hbest.
  apply fold_first_best in Hbest; [|apply searchEnv_covers].
  fold pools in Hbest. fold env in Hbest. fold triples in Hbest.
  destruct Hbest
    as [[-> Hall]|(before & t & after & E & Hc & Hs & Hbef & Haft)].
  - left. split; [reflexivity|]. apply Forall_forall. exact Hall.
  - right. exists before, t, after.
    split; [exact E|]. split; [exact Hc|]. split; [exact Hs|].
    split; apply Forall_forall; assumption.
Qed.

End FirstBest.

(** ** The keys of the winner describe its map *)

Section WinnerKeys.

Context {C : Collaborators}.

Lemma totalUnassigned_length (slots : list (string * ModAssignments)) :
  totalUnassigned slots
  = Z.of_nat (List.length (flat_map (fun kv => unassigned (snd kv)) slots)).
Proof.
  induction slots as [|kv slots IH]; simpl; [reflexivity|].
  rewrite length_app, IH. lia.
Qed.

(** X3.  With distinct slot ids, unless the winner is the start, its
    unassigned count is the number of mods in the unassigned lists of its
    map and its energy is the sum the energy loop computes over its map. *)
Theorem winner_keys_describe_its_map
    (items : list DimItem) (mods : list Mod) (defs : D2ManifestDefinitions)
    (upgradeSpendTier : UpgradeSpendTier) (lockItemEnergyType : bool) :
  NoDup (map id items) ->
  let pools :=
    divideMods defs upgradeSpendTier lockItemEnergyType items mods in
  let env :=
    searchEnv defs upgradeSpendTier lockItemEnergyType items pools in
  exists best,
    searchWinner defs upgradeSpendTier lockItemEnergyType items mods = Ok best
    /\ (best = startOfSearch items
        \/ (assignmentUnassignedModCount best
            = Z.of_nat
                (List.length
                   (flat_map (fun kv => unassigned (snd kv))
                      (bucketIndependentAssignments best)))
            /\ energyLoop env (bucketIndependentAssignments best) 0
               = Ok (assignmentEnergyCost best)
            /\ JsMap.keys (bucketIndependentAssignments best)
               = map id items)).
Proof.
  intros Hnd pools env.
  destruct (searchWinner_defined defs upgradeSpendTier lockItemEnergyType
              items mods) as [best Hbest].
  exists best. split; [exact Hbest|].
  unfold searchWinner in Hbest. rewrite searchLoop_triples in Hbest.
  apply fold_first_best in Hbest; [|apply searchEnv_covers].
  fold pools in Hbest. fold env in Hbest.
  destruct Hbest as [[-> _]|(before & [[ap cp] gp] & after & _ & Hc & _)];
    [now left|].
  right. unfold candidateFor in Hc. simpl in Hc.
  apply bind_Ok_inv in Hc. destruct Hc as [slots [Hslots Hc]].
  apply bind_Ok_inv in Hc. destruct Hc as [energy [Henergy [= <-]]].
  simpl. destruct (slotsFrom_mods _ _ _ _ _ _ Hslots) as (Hkeys & _ & _).
  simpl in Hkeys.
  assert (E : recordAll slots JsMap.empty = slots).
  { rewrite recordAll_fresh by (simpl; now rewrite Hkeys). reflexivity. }
  rewrite E in *. split; [apply totalUnassigned_length|].
  split; [exact Henergy | exact Hkeys].
Qed.

End WinnerKeys.

(** The keys of the winner on a helmet and gauntlets. *)
Lemma winner_keys_describe_its_map_witness :
  let C := Example.collaborators 2 in
  let items := [Example.helmet; Example.gauntlets] in
  let mods := [Example.generalMod; Example.expensiveMod] in
  exists best,
    searchWinner tt 5%Z false items mods = Ok best
    /\ (best = startOfSearch items
        \/ (assignmentUnassignedModCount best
            = Z.of_nat
                (List.length
                   (flat_map (fun kv => unassigned (snd kv))
                      (bucketIndependentAssignments best)))
            /\ energyLoop
                 (searchEnv tt 5%Z false items
                    (divideMods tt 5%Z false items mods))
                 (bucketIndependentAssignments best) 0
               = Ok (assignmentEnergyCost best)
            /\ JsMap.keys (bucketIndependentAssignments best)
               = map id items)).
Proof.
  intros C items mods.
  apply (@winner_keys_describe_its_map C items mods tt 5%Z false).
  repeat constructor; simpl; intuition discriminate.
Defined.

(** ** The three shared pools *)

Section SharedPools.

Context {C : Collaborators}.

Lemma divideMod_pools defs tier lock items p mod' :
  let p' := divideMod defs tier lock items p mod' in
  generalMods p' = generalMods p ++ filter isGeneralMod [mod']
  /\ combatMods p' = combatMods p ++ filter isCombatMod [mod']
  /\ activityMods p' = activityMods p ++ filter isActivityMod [mod'].
Proof.
  unfold divideMod, isCombatMod, isActivityMod, isGeneralMod. simpl.
  destruct (Z.eqb _ _); simpl.
  { now rewrite !app_nil_r. }
  destruct (includes combatCompatiblePlugCategoryHashes _); simpl.
  { now rewrite !app_nil_r. }
  destruct (includes activityModPlugCategoryHashes _); simpl.
  { now rewrite !app_nil_r. }
  destruct (findItemForMod items mod'); simpl; now rewrite !app_nil_r.
Qed.

Lemma divideMods_pools defs tier lock items mods :
  let pools := divideMods defs tier lock items mods in
  generalMods pools = filter isGeneralMod mods
  /\ combatMods pools = filter isCombatMod mods
  /\ activityMods pools = filter isActivityMod mods.
Proof.
  unfold divideMods.
  assert (G : forall p,
             let p' := fold_left (divideMod defs tier lock items) mods p in
             generalMods p' = generalMods p ++ filter isGeneralMod mods
             /\ combatMods p' = combatMods p ++ filter isCombatMod mods
             /\ activityMods p' = activityMods p ++ filter isActivityMod mods).
  { induction mods as [|m mods IH]; intros p.
    - simpl. now rewrite !app_nil_r.
    - simpl fold_left.
      destruct (IH (divideMod defs tier lock items p m)) as (Hg & Hc & Ha).
      destruct (divideMod_pools defs tier lock items p m)
        as (Hg1 & Hc1 & Ha1).
      cbv zeta in *. rewrite Hg, Hc, Ha, Hg1, Hc1, Ha1.
      rewrite <- !app_assoc, <- !filter_app. auto. }
  apply (G {| generalMods := []; combatMods := []; activityMods := [];
              bucketSpecificAssignments := initialAssignments items |}).
Qed.

(** X4.  The three shared pools are the input mods that pass the tests of
    lines 145-150, in input order: the general pool holds the mods of
    the general category, the combat pool the other mods of a combat
    category, and the activity pool the mods of an activity category that
    are in neither of the first two. *)
Theorem shared_pools_are_filters_of_the_input
    (items : list DimItem) (mods : list Mod) (defs : D2ManifestDefinitions)
    (upgradeSpendTier : UpgradeSpendTier) (lockItemEnergyType : bool) :
  let pools :=
    divideMods defs upgradeSpendTier lockItemEnergyType items mods in
  generalMods pools = filter isGeneralMod mods
  /\ combatMods pools = filter isCombatMod mods
  /\ activityMods pools = filter isActivityMod mods.
Proof. apply divideMods_pools. Qed.

End SharedPools.

(** ** The bucket specific pass, slot by slot *)

Lemma Subsequence_app_skip (A : Type) (l p q : list A) :
  Subsequence l p -> Subsequence l (p ++ q).
Proof.
  intros H. induction H as [|l p x H IH|l p x H IH]; simpl.
  - induction q as [|y q IHq]; [apply Subsequence_nil|].
    apply Subsequence_skip. exact IHq.
  - apply Subsequence_skip. exact IH.
  - apply Subsequence_take. exact IH.
Qed.

Lemma Subsequence_snoc (A : Type) (l p : list A) (x : A) :
  Subsequence l p -> Subsequence (l ++ [x]) (p ++ [x]).
Proof.
  intros H. induction H as [|l p y H IH|l p y H IH]; simpl.
  - apply Subsequence_take, Subsequence_nil.
  - apply Subsequence_skip. exact IH.
  - apply Subsequence_take. exact IH.
Qed.

Section BucketSpecificPass.

Context {C : Collaborators}.

Lemma get_pushAt_same push k mod' (m : JsMap.t ModAssignments) a :
  JsMap.get k m = Some a ->
  JsMap.get k (pushAt push k mod' m) = Some (push mod' a).
Proof.
  intros E. unfold pushAt. rewrite E. apply JsMapFacts.get_set_same.
Qed.

Lemma get_pushAt_other push k k' mod' (m : JsMap.t ModAssignments) :
  k' <> k -> JsMap.get k' (pushAt push k mod' m) = JsMap.get k' m.
Proof.
  intros Hne. unfold pushAt. destruct (JsMap.get k m); [|reflexivity].
  now apply JsMapFacts.get_set_other.
Qed.

Lemma keys_initialAssignments_in items item :
  In item items -> In (id item) (JsMap.keys (initialAssignments items)).
Proof.
  unfold initialAssignments. intros Hin.
  assert (G : forall m : JsMap.t ModAssignments,
             In item items \/ In (id item) (JsMap.keys m) ->
             In (id item)
                (JsMap.keys
                   (fold_left
                      (fun m item => JsMap.set (id item) emptyAssignments m)
                      items m))).
  { clear Hin. induction items as [|x items IH]; intros m; simpl.
    - intros [[]|H]; exact H.
    - intros H. apply IH. destruct H as [[->|H]|H]; [right|now left|right];
        apply JsMapFacts.keys_set; auto. }
  apply G. now left.
Qed.

(** What the pass has recorded under [itemId] after the mods [l]. *)
Lemma divideMod_records defs tier lock items p mod' l itemId :
  (forall item, In item items ->
                In (id item) (JsMap.keys (bucketSpecificAssignments p))) ->
  Subsequence (assignedAt (bucketSpecificAssignments p) itemId)
              (filter (targets items itemId) l) ->
  Subsequence (unassignedAt (bucketSpecificAssignments p) itemId)
              (filter (targets items itemId) l) ->
  (forall x, occurrences (assignedAt (bucketSpecificAssignments p) itemId
                          ++ unassignedAt (bucketSpecificAssignments p) itemId)
                         x
             = occurrences (filter (targets items itemId) l) x) ->
  let p' := divideMod defs tier lock items p mod' in
  Subsequence (assignedAt (bucketSpecificAssignments p') itemId)
              (filter (targets items itemId) (l ++ [mod']))
  /\ Subsequence (unassignedAt (bucketSpecificAssignments p') itemId)
                 (filter (targets items itemId) (l ++ [mod']))
  /\ forall x,
       occurrences (assignedAt (bucketSpecificAssignments p') itemId
                    ++ unassignedAt (bucketSpecificAssignments p') itemId) x
       = occurrences (filter (targets items itemId) (l ++ [mod'])) x.
Proof.
  intros Hkeys Ha Hu Hocc p'. subst p'. rewrite filter_app.
  assert (F1 : forall f : Mod -> bool,
             filter f [mod'] = if f mod' then [mod'] else [])
    by reflexivity.
  rewrite F1. unfold divideMod.
  destruct (Z.eqb _ _) eqn:E1.
  { assert (T : targets items itemId mod' = false)
      by (unfold targets, inSharedPool; now rewrite E1).
    rewrite T, app_nil_r. auto. }
  destruct (includes combatCompatiblePlugCategoryHashes _) eqn:E2.
  { assert (T : targets items itemId mod' = false)
      by (unfold targets, inSharedPool; now rewrite E1, E2).
    rewrite T, app_nil_r. auto. }
  destruct (includes activityModPlugCategoryHashes _) eqn:E3.
  { assert (T : targets items itemId mod' = false)
      by (unfold targets, inSharedPool; now rewrite E1, E2, E3).
    rewrite T, app_nil_r. auto. }
  destruct (findItemForMod items mod') as [itemForMod|] eqn:Efind.
  2:{ assert (T : targets items itemId mod' = false)
        by (unfold targets, inSharedPool; now rewrite E1, E2, E3, Efind).
      rewrite T, app_nil_r. auto. }
  assert (T : targets items itemId mod'
              = String.eqb (id itemForMod) itemId)
    by (unfold targets, inSharedPool; now rewrite E1, E2, E3, Efind).
  rewrite T. clear T F1.
  apply find_some in Efind. destruct Efind as [Hfor _].
  specialize (Hkeys itemForMod Hfor).
  apply JsMapFacts.get_In_keys in Hkeys.
  destruct (JsMap.get (id itemForMod) (bucketSpecificAssignments p))
    as [a|] eqn:Eget; [|congruence]. clear Hkeys.
  simpl bucketSpecificAssignments.
  destruct (String.eqb (id itemForMod) itemId) eqn:Eid.
  - apply String.eqb_eq in Eid. subst itemId.
    unfold assignedAt, unassignedAt in *. rewrite Eget in Ha, Hu, Hocc.
    destruct (isBucketSpecificModValid _ _ _ _ _ _);
      rewrite (get_pushAt_same _ _ _ _ Eget); simpl.
    + split; [now apply Subsequence_snoc|].
      split; [now apply Subsequence_app_skip|].
      intros x. specialize (Hocc x). rewrite !occurrences_app in *. lia.
    + split; [now apply Subsequence_app_skip|].
      split; [now apply Subsequence_snoc|].
      intros x. specialize (Hocc x). rewrite !occurrences_app in *. lia.
  - apply String.eqb_neq in Eid. rewrite app_nil_r.
    unfold assignedAt, unassignedAt in *.
    destruct (isBucketSpecificModValid _ _ _ _ _ _);
      rewrite get_pushAt_other by congruence; auto.
Qed.

Lemma divideMods_records defs tier lock items mods itemId :
  let S := bucketSpecificAssignments (divideMods defs tier lock items mods) in
  Subsequence (assignedAt S itemId) (filter (targets items itemId) mods)
  /\ Subsequence (unassignedAt S itemId) (filter (targets items itemId) mods)
  /\ (forall x, occurrences (assignedAt S itemId ++ unassignedAt S itemId) x
                = occurrences (filter (targets items itemId) mods) x)
  /\ forall item, In item items -> In (id item) (JsMap.keys S).
Proof.
  unfold divideMods.
  assert (G : forall p l,
             (forall item, In item items ->
                In (id item) (JsMap.keys (bucketSpecificAssignments p))) ->
             Subsequence (assignedAt (bucketSpecificAssignments p) itemId)
                         (filter (targets items itemId) l) ->
             Subsequence (unassignedAt (bucketSpecificAssignments p) itemId)
                         (filter (targets items itemId) l) ->
             (forall x,
                 occurrences
                   (assignedAt (bucketSpecificAssignments p) itemId
                    ++ unassignedAt (bucketSpecificAssignments p) itemId) x
                 = occurrences (filter (targets items itemId) l) x) ->
             let S := bucketSpecificAssignments
                        (fold_left (divideMod defs tier lock items) mods p) in
             Subsequence (assignedAt S itemId)
                         (filter (targets items itemId) (l ++ mods))
             /\ Subsequence (unassignedAt S itemId)
                            (filter (targets items itemId) (l ++ mods))
             /\ (forall x,
                    occurrences (assignedAt S itemId ++ unassignedAt S itemId)
                                x
                    = occurrences (filter (targets items itemId) (l ++ mods))
                                  x)
             /\ forall item, In item items -> In (id item) (JsMap.keys S)).
  { induction mods as [|m mods IH]; intros p l Hkeys Ha Hu Hocc.
    - simpl. rewrite app_nil_r. auto.
    - simpl fold_left.
      destruct (@divideMod_records defs tier lock items p m l itemId
                  Hkeys Ha Hu Hocc) as (Ha' & Hu' & Hocc').
      replace (l ++ m :: mods) with ((l ++ [m]) ++ mods)
        by (now rewrite <- app_assoc).
      apply IH; auto.
      intros item Hin.
      assert (Ek : JsMap.keys
                     (bucketSpecificAssignments
                        (divideMod defs tier lock items p m))
                   = JsMap.keys (bucketSpecificAssignments p)).
      { unfold divideMod.
        destruct (Z.eqb _ _); [reflexivity|].
        destruct (includes combatCompatiblePlugCategoryHashes _);
          [reflexivity|].
        destruct (includes activityModPlugCategoryHashes _); [reflexivity|].
        destruct (findItemForMod items m); [|reflexivity]. simpl.
        destruct (isBucketSpecificModValid _ _ _ _ _ _); apply keys_pushAt. }
      rewrite Ek. now apply Hkeys. }
  apply (G _ []); simpl.
  - intros item. apply keys_initialAssignments_in.
  - rewrite assignedAt_initial. constructor.
  - unfold unassignedAt.
    destruct (JsMap.get itemId (initialAssignments items)) as [a|] eqn:E;
      [|constructor].
    apply JsMapFacts.get_In, initialAssignments_entries in E. simpl in E.
    subst a. constructor.
  - intros x. rewrite assignedAt_initial. unfold unassignedAt.
    destruct (JsMap.get itemId (initialAssignments items)) as [a|] eqn:E;
      [|reflexivity].
    apply JsMapFacts.get_In, initialAssignments_entries in E. simpl in E.
    now subst a.
Qed.

(** X5.  Under every item id the bucket specific pass records exactly the
    input mods that target that id (mods of no shared pool whose first
    item with a bucket of their category has the id): each of them is in
    the assigned or in the unassigned list, and both lists keep the
    order of the input. *)
Theorem bucket_specific_pass_records_targeting_mods_in_order
    (items : list DimItem) (mods : list Mod) (defs : D2ManifestDefinitions)
    (upgradeSpendTier : UpgradeSpendTier) (lockItemEnergyType : bool)
    (itemId : string) :
  let S :=
    bucketSpecificAssignments
      (divideMods defs upgradeSpendTier lockItemEnergyType items mods) in
  Subsequence (assignedAt S itemId) (filter (targets items itemId) mods)
  /\ Subsequence (unassignedAt S itemId) (filter (targets items itemId) mods)
  /\ Permutation (assignedAt S itemId ++ unassignedAt S itemId)
                 (filter (targets items itemId) mods).
Proof.
  intros S.
  destruct (divideMods_records defs upgradeSpendTier lockItemEnergyType
              items mods itemId) as (Ha & Hu & Hocc & _).
  split; [exact Ha|]. split; [exact Hu|].
  apply perm_by_occurrences. exact Hocc.
Qed.

End BucketSpecificPass.

(** ** Lookups by item id never miss *)

Section Lookups.

Context {C : Collaborators}.

Lemma keys_recordAll_in slots :
  forall (m : JsMap.t ModAssignments) k,
    In k (map fst slots) \/ In k (JsMap.keys m) ->
    In k (JsMap.keys (recordAll slots m)).
Proof.
  unfold recordAll.
  induction slots as [|[k0 v0] slots IH]; intros m k; simpl.
  - intros [[]|H]; exact H.
  - intros H. apply IH. destruct H as [[<-|H]|H]; [right|now left|right];
      apply JsMapFacts.keys_set; auto.
Qed.

Lemma NoDup_keys_set (V : Type) (k : string) (v : V) (m : JsMap.t V) :
  NoDup (JsMap.keys m) -> NoDup (JsMap.keys (JsMap.set k v m)).
Proof.
  intros Hnd. destruct (in_dec string_dec k (JsMap.keys m)) as [Hin|Hnin].
  - now rewrite JsMapFacts.keys_set_present.
  - rewrite JsMapFacts.set_fresh by exact Hnin.
    unfold JsMap.keys in *. rewrite map_app. simpl.
    apply NoDup_app; [exact Hnd | repeat constructor; intros [] |].
    intros x Hx [<-|[]]. now apply Hnin.
Qed.

(** X6.  Every lookup by item id that the function makes finds an entry:
    the map of the bucket specific pass, the table of energies and the map
    of the winner of the search all have an entry for the id of every
    item, so that none of the fallbacks for a missing entry is taken. *)
Theorem lookups_by_item_id_never_miss
    (items : list DimItem) (mods : list Mod) (defs : D2ManifestDefinitions)
    (upgradeSpendTier : UpgradeSpendTier) (lockItemEnergyType : bool) :
  let pools :=
    divideMods defs upgradeSpendTier lockItemEnergyType items mods in
  let env :=
    searchEnv defs upgradeSpendTier lockItemEnergyType items pools in
  exists best,
    searchWinner defs upgradeSpendTier lockItemEnergyType items mods = Ok best
    /\ Forall (fun item =>
                 JsMap.get (id item) (bucketSpecificAssignments pools) <> None
                 /\ JsMap.get (id item) (itemEnergies env) <> None
                 /\ JsMap.get (id item) (bucketIndependentAssignments best)
                    <> None)
              items.
Proof.
  intros pools env.
  destruct (searchWinner_defined defs upgradeSpendTier lockItemEnergyType
              items mods) as [best Hbest].
  exists best. split; [exact Hbest|].
  apply Forall_forall. intros item Hin.
  split; [|split].
  - apply JsMapFacts.get_In_keys.
    destruct (divideMods_records defs upgradeSpendTier lockItemEnergyType
                items mods (id item)) as (_ & _ & _ & Hkeys).
    now apply Hkeys.
  - now apply (@searchEnv_covers C defs upgradeSpendTier lockItemEnergyType
                 items pools).
  - apply JsMapFacts.get_In_keys.
    unfold searchWinner in Hbest. rewrite searchLoop_triples in Hbest.
    apply fold_first_best in Hbest; [|apply searchEnv_covers].
    destruct Hbest
      as [[-> _]|(before & [[ap cp] gp] & after & _ & Hc & _)].
    + simpl. now apply keys_initialAssignments_in.
    + unfold candidateFor in Hc. simpl in Hc.
      apply bind_Ok_inv in Hc. destruct Hc as [slots [Hslots Hc]].
      apply bind_Ok_inv in Hc. destruct Hc as [energy [_ [= <-]]].
      simpl. apply keys_recordAll_in. left.
      destruct (slotsFrom_mods _ _ _ _ _ _ Hslots) as (Hkeys & _ & _).
      rewrite Hkeys. simpl. now apply in_map.
Qed.

Lemma keys_mergeResults items bucketIndependent bucketSpecific :
  NoDup (JsMap.keys
           (fst (mergeResults items bucketIndependent bucketSpecific)))
  /\ forall k,
       In k (JsMap.keys
               (fst (mergeResults items bucketIndependent bucketSpecific)))
       <-> In k (map id items).
Proof.
  unfold mergeResults.
  assert (G : forall acc,
             NoDup (JsMap.keys (fst acc)) ->
             let r := fold_left (mergeStep bucketIndependent bucketSpecific)
                        items acc in
             NoDup (JsMap.keys (fst r))
             /\ forall k, In k (JsMap.keys (fst r))
                          <-> In k (JsMap.keys (fst acc))
                              \/ In k (map id items)).
  { induction items as [|x items IH]; intros acc Hnd; simpl.
    - split; [exact Hnd | intros k; tauto].
    - destruct (IH (mergeStep bucketIndependent bucketSpecific acc x))
        as [Hnd' Hk].
      { simpl. now apply NoDup_keys_set. }
      split; [exact Hnd'|]. intros k. rewrite Hk. simpl.
      rewrite JsMapFacts.keys_set. intuition. }
  destruct (G (JsMap.empty, [])) as [Hnd Hk]; [constructor|].
  split; [exact Hnd|]. intros k. rewrite Hk. simpl. tauto.
Qed.

(** X7.  The merged map has exactly one entry for every item id, whether
    or not a mod was assigned to the item, and no other entry. *)
Theorem merged_map_has_one_entry_per_item_id
    (items : list DimItem) (mods : list Mod) (defs : D2ManifestDefinitions)
    (upgradeSpendTier : UpgradeSpendTier) (lockItemEnergyType : bool) :
  exists merged unassignedMods,
    getCheapestModAssignments items mods (Some defs) upgradeSpendTier
      lockItemEnergyType
    = Ok (merged, unassignedMods)
    /\ NoDup (JsMap.keys merged)
    /\ (forall k, In k (JsMap.keys merged) <-> In k (map id items))
    /\ Forall (fun item => JsMap.get (id item) merged <> None) items.
Proof.
  destruct (searchWinner_defined defs upgradeSpendTier lockItemEnergyType
              items mods) as [best Hbest].
  simpl. rewrite Hbest. simpl.
  destruct (mergeResults items (bucketIndependentAssignments best)
              (bucketSpecificAssignments
                 (divideMods defs upgradeSpendTier lockItemEnergyType
                    items mods))) as [merged unassignedMods] eqn:E.
  exists merged, unassignedMods. split; [reflexivity|].
  pose proof (keys_mergeResults items (bucketIndependentAssignments best)
                (bucketSpecificAssignments
                   (divideMods defs upgradeSpendTier lockItemEnergyType
                      items mods))) as [Hnd Hk].
  rewrite E in Hnd, Hk. simpl in Hnd, Hk.
  split; [exact Hnd|]. split; [exact Hk|].
  apply Forall_forall. intros item Hin.
  apply JsMapFacts.get_In_keys, Hk. now apply in_map.
Qed.

End Lookups.

(** ** Bounds on the energy change *)

(** X8.  When the original capacity and the total cost of a slot are not
    negative, the energy change of the slot is not negative, it lies
    between what keeping the type costs, [max 0 (totalCost -
    originalCapacity)], and what changing the type costs, [totalCost +
    originalCapacity], and it is zero when the type is kept and the total
    cost fits in the original capacity. *)
Theorem energy_change_bounds (itemEnergy : ItemEnergy)
    (assignedMods : list Mod) :
  (0 <= originalCapacity itemEnergy)%Z ->
  (0 <= used itemEnergy + sumBy modCost assignedMods)%Z ->
  let totalCost := (used itemEnergy + sumBy modCost assignedMods)%Z in
  (0 <= calculateEnergyChange itemEnergy assignedMods)%Z
  /\ (Z.max 0 (totalCost - originalCapacity itemEnergy)
      <= calculateEnergyChange itemEnergy assignedMods)%Z
  /\ (calculateEnergyChange itemEnergy assignedMods
      <= totalCost + originalCapacity itemEnergy)%Z
  /\ (resolveFinalEnergy (derivedType itemEnergy) assignedMods
      = originalType itemEnergy ->
      (totalCost <= originalCapacity itemEnergy)%Z ->
      calculateEnergyChange itemEnergy assignedMods = 0%Z).
Proof.
  intros Hcap Htotal totalCost. unfold calculateEnergyChange.
  fold totalCost.
  destruct (energyType_eqb
              (resolveFinalEnergy (derivedType itemEnergy) assignedMods)
              (originalType itemEnergy)
            || energyType_eqb
                 (resolveFinalEnergy (derivedType itemEnergy) assignedMods)
                 Any) eqn:E.
  - repeat split; try lia.
  - repeat split; try lia.
    intros Hsame. apply energyType_eqb_eq in Hsame. rewrite Hsame in E.
    discriminate.
Qed.

(** The energy change of a helmet of original capacity five holding a
    general mod of cost four. *)
Lemma energy_change_bounds_witness :
  let itemEnergy :=
    {| used := 0; originalCapacity := 5; derivedCapacity := 10;
       originalType := Thermal; derivedType := Thermal |} in
  (0 <= calculateEnergyChange itemEnergy [Example.generalMod])%Z
  /\ (Z.max 0 (0 + sumBy modCost [Example.generalMod] - 5)
      <= calculateEnergyChange itemEnergy [Example.generalMod])%Z
  /\ (calculateEnergyChange itemEnergy [Example.generalMod]
      <= 0 + sumBy modCost [Example.generalMod] + 5)%Z
  /\ (resolveFinalEnergy Thermal [Example.generalMod] = Thermal ->
      (0 + sumBy modCost [Example.generalMod] <= 5)%Z ->
      calculateEnergyChange itemEnergy [Example.generalMod] = 0%Z).
Proof.
  intros itemEnergy.
  apply (@energy_change_bounds itemEnergy [Example.generalMod]);
    subst itemEnergy; vm_compute; discriminate.
Defined.

(** ** When the search assigns nothing *)

Lemma filter_none (A : Type) (f : A -> bool) (l : list A) :
  (forall x, In x l -> f x = false) -> filter f l = [].
Proof.
  induction l as [|x l IH]; simpl; intros H; [reflexivity|].
  rewrite (H x) by now left. apply IH. intros y Hy. apply H. now right.
Qed.

Section NothingFromSearch.

Context {C : Collaborators}.

Lemma mergeResults_unassigned items bucketIndependent bucketSpecific :
  snd (mergeResults items bucketIndependent bucketSpecific)
  = flat_map (fun item =>
                unassignedAt bucketIndependent (id item)
                ++ unassignedAt bucketSpecific (id item))
             items.
Proof.
  unfold mergeResults.
  assert (G : forall acc,
             snd (fold_left (mergeStep bucketIndependent bucketSpecific)
                    items acc)
             = snd acc
               ++ flat_map (fun item =>
                              unassignedAt bucketIndependent (id item)
                              ++ unassignedAt bucketSpecific (id item))
                           items).
  { induction items as [|x items IH]; intros acc; simpl.
    - now rewrite app_nil_r.
    - rewrite IH. simpl. now rewrite <- !app_assoc. }
  apply (G (JsMap.empty, [])).
Qed.

(** The result of the merge when the map of the search holds empty
    assignments only: the output of the bucket specific pass. *)
Lemma mergeResults_nothing_from_search items bucketIndependent bucketSpecific :
  (forall kv, In kv bucketIndependent -> snd kv = emptyAssignments) ->
  Forall (fun item =>
            JsMap.get (id item)
              (fst (mergeResults items bucketIndependent bucketSpecific))
            = Some (assignedAt bucketSpecific (id item)))
         items
  /\ snd (mergeResults items bucketIndependent bucketSpecific)
     = flat_map (fun item => unassignedAt bucketSpecific (id item)) items.
Proof.
  intros Hempty.
  assert (Ha : forall k, assignedAt bucketIndependent k = []).
  { intros k. unfold assignedAt.
    destruct (JsMap.get k bucketIndependent) as [a|] eqn:E; [|reflexivity].
    apply JsMapFacts.get_In, Hempty in E. simpl in E. now subst a. }
  assert (Hu : forall k, unassignedAt bucketIndependent k = []).
  { intros k. unfold unassignedAt.
    destruct (JsMap.get k bucketIndependent) as [a|] eqn:E; [|reflexivity].
    apply JsMapFacts.get_In, Hempty in E. simpl in E. now subst a. }
  split.
  - apply Forall_forall. intros item Hin.
    rewrite mergeResults_get by exact Hin. now rewrite Ha.
  - rewrite mergeResults_unassigned. apply flat_map_ext. intros item.
    now rewrite Hu.
Qed.

Lemma triplesOf_nil (aps cps gps : list (list (option Mod))) :
  aps = [] \/ cps = [] \/ gps = [] -> triplesOf aps cps gps = [].
Proof.
  unfold triplesOf. intros [->|[->| ->]].
  - reflexivity.
  - induction aps as [|a aps IH]; simpl; auto.
  - assert (Hin : forall a : list (option Mod),
               flat_map (fun c : list (option Mod) =>
                           map (fun g : list (option Mod) => (a, c, g)) [])
                        cps = [])
      by (intros a; induction cps as [|c cps IH]; simpl; auto).
    induction aps as [|a aps IH]; [reflexivity|].
    change (flat_map (fun c : list (option Mod) =>
                        map (fun g : list (option Mod) => (a, c, g)) [])
                     cps
            ++ flat_map
                 (fun a : list (option Mod) =>
                    flat_map (fun c : list (option Mod) =>
                                map (fun g : list (option Mod) => (a, c, g))
                                    [])
                             cps)
                 aps = []).
    now rewrite Hin, IH.
Qed.

(** X9.  When the generator offers no permutation for one of the three
    pools, no triple is evaluated: the function returns the output of the
    bucket specific pass alone, and the mods of the shared pools are in
    neither part of the result. *)
Theorem no_permutation_leaves_the_bucket_specific_pass
    (items : list DimItem) (mods : list Mod) (defs : D2ManifestDefinitions)
    (upgradeSpendTier : UpgradeSpendTier) (lockItemEnergyType : bool) :
  let pools :=
    divideMods defs upgradeSpendTier lockItemEnergyType items mods in
  generateModPermutations (activityMods pools) = []
  \/ generateModPermutations (combatMods pools) = []
  \/ generateModPermutations (generalMods pools) = [] ->
  exists merged unassignedMods,
    getCheapestModAssignments items mods (Some defs) upgradeSpendTier
      lockItemEnergyType
    = Ok (merged, unassignedMods)
    /\ searchWinner defs upgradeSpendTier lockItemEnergyType items mods
       = Ok (startOfSearch items)
    /\ Forall (fun item =>
                 JsMap.get (id item) merged
                 = Some (assignedAt (bucketSpecificAssignments pools)
                                    (id item)))
              items
    /\ unassignedMods
       = flat_map (fun item =>
                     unassignedAt (bucketSpecificAssignments pools) (id item))
                  items.
Proof.
  intros pools Hnone.
  assert (Hwin : searchWinner defs upgradeSpendTier lockItemEnergyType
                   items mods = Ok (startOfSearch items)).
  { unfold searchWinner. rewrite searchLoop_triples.
    fold pools. now rewrite (triplesOf_nil Hnone). }
  simpl. rewrite Hwin. simpl. fold pools.
  destruct (mergeResults_nothing_from_search items
              (initialAssignments items) (bucketSpecificAssignments pools))
    as [Hget Hun].
  { intros kv. apply initialAssignments_entries. }
  destruct (mergeResults items (initialAssignments items)
              (bucketSpecificAssignments pools)) as [merged un] eqn:E.
  exists merged, un. simpl in *. auto.
Qed.

(** X10.  With no item at all the function returns the empty map and the
    empty list whatever the mods are: every mod is dropped. *)
Theorem no_items_give_empty_result
    (mods : list Mod) (defs : D2ManifestDefinitions)
    (upgradeSpendTier : UpgradeSpendTier) (lockItemEnergyType : bool) :
  getCheapestModAssignments [] mods (Some defs) upgradeSpendTier
    lockItemEnergyType
  = Ok (JsMap.empty, []).
Proof.
  destruct (searchWinner_defined defs upgradeSpendTier lockItemEnergyType
              [] mods) as [best Hbest].
  simpl. rewrite Hbest. reflexivity.
Qed.

Lemma permAt_nil (i : nat) : permAt [] i = None.
Proof. unfold permAt. now destruct i. Qed.

Lemma slotsFrom_no_candidates env :
  forall rest i,
    slotsFrom env [] [] [] i rest
    = Ok (map (fun item => (id item, emptyAssignments)) rest).
Proof.
  induction rest as [|item rest IH]; intros i; simpl; [reflexivity|].
  unfold slotOf. rewrite !permAt_nil, assignSlot_nothing. simpl.
  rewrite IH. reflexivity.
Qed.

(** X11.  When no input mod is of a shared pool and the generator offers,
    for the empty pool, the empty permutation alone, the search evaluates
    one triple, in which every slot is empty, and the function returns the
    output of the bucket specific pass alone. *)
Theorem empty_pools_leave_the_bucket_specific_pass
    (items : list DimItem) (mods : list Mod) (defs : D2ManifestDefinitions)
    (upgradeSpendTier : UpgradeSpendTier) (lockItemEnergyType : bool) :
  let pools :=
    divideMods defs upgradeSpendTier lockItemEnergyType items mods in
  (forall mod', In mod' mods -> inSharedPool mod' = false) ->
  generateModPermutations [] = [[]] ->
  exists merged unassignedMods best,
    getCheapestModAssignments items mods (Some defs) upgradeSpendTier
      lockItemEnergyType
    = Ok (merged, unassignedMods)
    /\ searchWinner defs upgradeSpendTier lockItemEnergyType items mods
       = Ok best
    /\ assignmentUnassignedModCount best = 0%Z
    /\ Forall (fun item =>
                 JsMap.get (id item) merged
                 = Some (assignedAt (bucketSpecificAssignments pools)
                                    (id item)))
              items
    /\ unassignedMods
       = flat_map (fun item =>
                     unassignedAt (bucketSpecificAssignments pools) (id item))
                  items.
Proof.
  intros pools Hshared Hgen.
  destruct (divideMods_pools defs upgradeSpendTier lockItemEnergyType
              items mods) as (Hg & Hc & Ha).
  fold pools in Hg, Hc, Ha.
  assert (Eg : generalMods pools = []).
  { rewrite Hg. apply filter_none.
    intros m Hin. specialize (Hshared m Hin).
    unfold inSharedPool in Hshared. unfold isGeneralMod.
    now destruct (Z.eqb _ _). }
  assert (Ec : combatMods pools = []).
  { rewrite Hc. apply filter_none.
    intros m Hin. specialize (Hshared m Hin).
    unfold inSharedPool in Hshared. unfold isCombatMod.
    destruct (includes combatCompatiblePlugCategoryHashes _);
      [|apply andb_false_r].
    rewrite orb_true_r in Hshared. discriminate. }
  assert (Ea : activityMods pools = []).
  { rewrite Ha. apply filter_none.
    intros m Hin. specialize (Hshared m Hin).
    unfold inSharedPool in Hshared. unfold isActivityMod.
    destruct (includes activityModPlugCategoryHashes _);
      [|apply andb_false_r].
    rewrite orb_true_r in Hshared. discriminate. }
  set (env := searchEnv defs upgradeSpendTier lockItemEnergyType items pools).
  destruct (@candidateFor_defined C env ([], [], [])
              (@searchEnv_covers C defs upgradeSpendTier lockItemEnergyType
                 items pools)) as [cand Hcand].
  assert (Hwin : searchWinner defs upgradeSpendTier lockItemEnergyType
                   items mods = Ok cand).
  { unfold searchWinner. fold pools. fold env.
    rewrite searchLoop_triples, Eg, Ec, Ea, Hgen. simpl.
    destruct (@evaluate_candidate C env (startOfSearch items) ([], [], [])
                cand Hcand) as [Hyes _].
    rewrite Hyes; [reflexivity|].
    unfold candidateFor in Hcand. simpl in Hcand.
    rewrite slotsFrom_no_candidates in Hcand. simpl in Hcand.
    apply bind_Ok_inv in Hcand. destruct Hcand as [energy [_ [= <-]]].
    left. simpl.
    assert (T : forall l : list DimItem,
               totalUnassigned
                 (map (fun item => (id item, emptyAssignments)) l) = 0%Z)
      by (induction l as [|x l IHl]; simpl; auto).
    rewrite T. lia. }
  unfold candidateFor in Hcand. simpl in Hcand.
  rewrite slotsFrom_no_candidates in Hcand. simpl in Hcand.
  apply bind_Ok_inv in Hcand. destruct Hcand as [energy [_ [= Ecand]]].
  simpl. rewrite Hwin. simpl. fold pools.
  destruct (mergeResults_nothing_from_search items
              (bucketIndependentAssignments cand)
              (bucketSpecificAssignments pools)) as [Hget Hun].
  { rewrite <- Ecand. simpl. intros kv Hin. apply In_recordAll in Hin.
    destruct Hin as [Hin|[]]. apply in_map_iff in Hin.
    destruct Hin as [item [<- _]]. reflexivity. }
  destruct (mergeResults items (bucketIndependentAssignments cand)
              (bucketSpecificAssignments pools)) as [merged un] eqn:E.
  exists merged, un, cand. simpl in *.
  split; [reflexivity|]. split; [reflexivity|]. split; [|auto].
  rewrite <- Ecand. simpl.
  assert (T : forall l : list DimItem,
             totalUnassigned
               (map (fun item => (id item, emptyAssignments)) l) = 0%Z)
    by (induction l as [|x l IHl]; simpl; auto).
  apply T.
Qed.

End NothingFromSearch.

(** A helmet with a helmet mod and a general mod, and no permutation. *)
Lemma no_permutation_leaves_the_bucket_specific_pass_witness :
  let C := MoreExamples.noPermutations in
  let items := [Example.helmet] in
  let mods := [Example.helmetMod; Example.generalMod] in
  let pools := divideMods tt 10%Z false items mods in
  exists merged unassignedMods,
    getCheapestModAssignments items mods (Some tt) 10%Z false
    = Ok (merged, unassignedMods)
    /\ searchWinner tt 10%Z false items mods = Ok (startOfSearch items)
    /\ Forall (fun item =>
                 JsMap.get (id item) merged
                 = Some (assignedAt (bucketSpecificAssignments pools)
                                    (id item)))
              items
    /\ unassignedMods
       = flat_map (fun item =>
                     unassignedAt (bucketSpecificAssignments pools) (id item))
                  items.
Proof.
  intros C items mods pools.
  apply (@no_permutation_leaves_the_bucket_specific_pass C items mods tt
           10%Z false).
  left. reflexivity.
Defined.

(** A helmet with a helmet mod and a mod of an unknown category. *)
Lemma empty_pools_leave_the_bucket_specific_pass_witness :
  let C := Example.collaborators 0 in
  let items := [Example.helmet] in
  let mods := [Example.helmetMod; Example.strayMod] in
  let pools := divideMods tt 10%Z false items mods in
  exists merged unassignedMods best,
    getCheapestModAssignments items mods (Some tt) 10%Z false
    = Ok (merged, unassignedMods)
    /\ searchWinner tt 10%Z false items mods = Ok best
    /\ assignmentUnassignedModCount best = 0%Z
    /\ Forall (fun item =>
                 JsMap.get (id item) merged
                 = Some (assignedAt (bucketSpecificAssignments pools)
                                    (id item)))
              items
    /\ unassignedMods
       = flat_map (fun item =>
                     unassignedAt (bucketSpecificAssignments pools) (id item))
                  items.
Proof.
  intros C items mods pools.
  apply (@empty_pools_leave_the_bucket_specific_pass C items mods tt
           10%Z false).
  - intros m [<-|[<-|[]]]; reflexivity.
  - reflexivity.
Defined.

(** ** Render keys *)

Lemma numberToString_inj (a b : Z) :
  numberToString a = numberToString b -> a = b.
Proof.
  unfold numberToString. intros H.
  apply (f_equal NilZero.int_of_string) in H.
  assert (Hn : forall z, Z.to_int z <> Decimal.Pos Decimal.Nil
                         /\ Z.to_int z <> Decimal.Neg Decimal.Nil).
  { intros [|p|p]; simpl; split; try discriminate;
      intros [= E]; now apply DecimalPos.Unsigned.to_uint_nonnil in E. }
  rewrite !NilZero.isi in H by apply Hn.
  injection H as H. now apply DecimalZ.to_int_inj.
Qed.

Lemma hasDash_digits (d : Decimal.uint) :
  hasDash (NilEmpty.string_of_uint d) = false.
Proof. induction d; simpl; auto. Qed.

Lemma hasDash_numberToString (n : Z) :
  (0 <= n)%Z -> hasDash (numberToString n) = false.
Proof.
  unfold numberToString. destruct n as [|p|p]; intros Hn; [reflexivity| |lia].
  simpl. unfold NilZero.string_of_uint.
  destruct (Pos.to_uint p) eqn:E; try (rewrite <- E; apply hasDash_digits).
  reflexivity.
Qed.

Lemma hasDash_after_dash (a d : string) :
  hasDash (a ++ String "-" d)%string = true.
Proof.
  induction a as [|c a IH]; simpl; [reflexivity|].
  now rewrite IH, orb_true_r.
Qed.

Lemma split_at_last_dash (a1 a2 d1 d2 : string) :
  hasDash d1 = false -> hasDash d2 = false ->
  (a1 ++ String "-" d1)%string = (a2 ++ String "-" d2)%string ->
  a1 = a2 /\ d1 = d2.
Proof.
  intros H1 H2. revert a2.
  induction a1 as [|c a1 IH]; intros [|c2 a2]; simpl; intros E.
  - injection E as E. auto.
  - injection E as _ E. rewrite E, hasDash_after_dash in H1. discriminate.
  - injection E as _ E. rewrite <- E, hasDash_after_dash in H2.
    discriminate.
  - injection E as -> E. destruct (IH _ E) as [-> ->]. auto.
Qed.

Lemma renderKey_inj (h h' n n' : Z) :
  (0 <= n)%Z -> (0 <= n')%Z ->
  renderKey h n = renderKey h' n' -> h = h' /\ n = n'.
Proof.
  unfold renderKey. intros Hn Hn' E.
  apply split_at_last_dash in E; try now apply hasDash_numberToString.
  destruct E as [E1 E2]. split; now apply numberToString_inj.
Qed.

Lemma getModRenderKey_key (mod' : Mod) (counts : Counts) :
  fst (getModRenderKey mod' counts)
  = renderKey (hash mod') (countAt counts (hash mod')).
Proof.
  unfold getModRenderKey, renderKey, countAt, isFalsyCount, setCount. simpl.
  destruct (counts (hash mod')) as [v|] eqn:E.
  - destruct (Z.eqb_spec v 0) as [->|Hne].
    + now rewrite Z.eqb_refl.
    + now rewrite E.
  - now rewrite Z.eqb_refl.
Qed.

Lemma getModRenderKey_counts (mod' : Mod) (counts : Counts) (h : Z) :
  snd (getModRenderKey mod' counts) h
  = if Z.eqb h (hash mod')
    then Some (countAt counts (hash mod') + 1)%Z
    else counts h.
Proof.
  unfold getModRenderKey, countAt, setCount. simpl.
  destruct (Z.eqb_spec h (hash mod')) as [->|Hne].
  - unfold isFalsyCount. destruct (counts (hash mod')) as [v|] eqn:E.
    + destruct (Z.eqb_spec v 0) as [->|Hv].
      * now rewrite Z.eqb_refl.
      * now rewrite E.
    + now rewrite Z.eqb_refl.
  - apply Z.eqb_neq in Hne.
    destruct (isFalsyCount (counts (hash mod'))); [|reflexivity].
    now rewrite Hne.
Qed.

Lemma countAt_getModRenderKey (mod' : Mod) (counts : Counts) (h : Z) :
  countAt (snd (getModRenderKey mod' counts)) h
  = if Z.eqb h (hash mod')
    then (countAt counts h + 1)%Z
    else countAt counts h.
Proof.
  unfold countAt at 1. rewrite getModRenderKey_counts.
  destruct (Z.eqb_spec h (hash mod')) as [->|Hne]; reflexivity.
Qed.

Opaque getModRenderKey.

Lemma renderKeys_cons (mod' : Mod) (rest : list Mod) (counts : Counts) :
  renderKeys (mod' :: rest) counts
  = (fst (getModRenderKey mod' counts)
     :: fst (renderKeys rest (snd (getModRenderKey mod' counts))),
     snd (renderKeys rest (snd (getModRenderKey mod' counts)))).
Proof.
  simpl. destruct (getModRenderKey mod' counts) as [k counts1]. simpl.
  now destruct (renderKeys rest counts1).
Qed.

(** The key at each position, and the counts after the render. *)
Lemma renderKeys_nth (mods : list Mod) :
  forall (counts : Counts) (i : nat) (mod' : Mod),
    nth_error mods i = Some mod' ->
    nth_error (fst (renderKeys mods counts)) i
    = Some (renderKey (hash mod')
              (countAt counts (hash mod')
               + Z.of_nat (hashCount (hash mod') (firstn i mods)))).
Proof.
  induction mods as [|m mods IH]; intros counts i mod' Hi.
  - now destruct i.
  - rewrite renderKeys_cons. destruct i as [|i]; simpl in *.
    + injection Hi as <-. rewrite getModRenderKey_key.
      unfold hashCount. simpl. now rewrite Z.add_0_r.
    + rewrite (IH _ _ _ Hi), countAt_getModRenderKey.
      unfold hashCount. simpl.
      rewrite (Z.eqb_sym (hash m)).
      destruct (Z.eqb (hash mod') (hash m)); simpl; f_equal; f_equal; lia.
Qed.

Lemma renderKeys_counts (mods : list Mod) :
  forall (counts : Counts) (h : Z),
    snd (renderKeys mods counts) h
    = if Nat.eqb (hashCount h mods) 0
      then counts h
      else Some (countAt counts h + Z.of_nat (hashCount h mods))%Z.
Proof.
  induction mods as [|m mods IH]; intros counts h.
  - reflexivity.
  - rewrite renderKeys_cons. simpl snd. rewrite IH.
    rewrite countAt_getModRenderKey, getModRenderKey_counts.
    unfold hashCount. simpl. rewrite (Z.eqb_sym (hash m)).
    destruct (Z.eqb_spec h (hash m)) as [->|Hne]; simpl.
    + destruct (List.length
                  (filter (fun m0 => Z.eqb (hash m0) (hash m)) mods));
        simpl; f_equal; lia.
    + reflexivity.
Qed.

Lemma renderKeys_length (mods : list Mod) :
  forall counts, List.length (fst (renderKeys mods counts)) = List.length mods.
Proof.
  induction mods as [|m mods IH]; intros counts; [reflexivity|].
  rewrite renderKeys_cons. simpl. now rewrite IH.
Qed.

Lemma renderKeys_form (mods : list Mod) :
  forall (counts : Counts) (key : string),
    (forall h, 0 <= countAt counts h)%Z ->
    In key (fst (renderKeys mods counts)) ->
    exists h n, key = renderKey h n /\ (countAt counts h <= n)%Z.
Proof.
  induction mods as [|m mods IH]; intros counts key Hnn; [intros []|].
  rewrite renderKeys_cons. simpl. intros [<-|Hin].
  - rewrite getModRenderKey_key. eexists. eexists.
    split; [reflexivity|]. lia.
  - apply IH in Hin.
    + destruct Hin as (h & n & -> & Hle). exists h, n.
      split; [reflexivity|]. rewrite countAt_getModRenderKey in Hle.
      destruct (Z.eqb h (hash m)); lia.
    + intros h. rewrite countAt_getModRenderKey. specialize (Hnn h).
      destruct (Z.eqb h (hash m)); lia.
Qed.

Lemma renderKeys_NoDup (mods : list Mod) :
  forall counts,
    (forall h, 0 <= countAt counts h)%Z ->
    NoDup (fst (renderKeys mods counts)).
Proof.
  induction mods as [|m mods IH]; intros counts Hnn; [constructor|].
  rewrite renderKeys_cons. simpl.
  assert (Hnn' : forall h,
             (0 <= countAt (snd (getModRenderKey m counts)) h)%Z).
  { intros h. rewrite countAt_getModRenderKey. specialize (Hnn h).
    destruct (Z.eqb h (hash m)); lia. }
  constructor; [|now apply IH].
  intros Hin. apply renderKeys_form in Hin; [|exact Hnn'].
  destruct Hin as (h & n & E & Hle).
  rewrite getModRenderKey_key in E.
  pose proof (Hnn (hash m)) as H0. pose proof (Hnn' h) as H1.
  apply renderKey_inj in E; [|lia|lia]. destruct E as [<- <-].
  rewrite countAt_getModRenderKey, Z.eqb_refl in Hle. lia.
Qed.

Transparent getModRenderKey.

(** X12.  The keys of sibling mods rendered in order with a fresh counts
    object are pairwise distinct, one per mod: the key of a mod is its
    hash, a dash, and the number of mods of the same hash before it. *)
Theorem render_keys_are_unique (mods : list Mod) :
  NoDup (fst (renderKeys mods noCounts))
  /\ List.length (fst (renderKeys mods noCounts)) = List.length mods
  /\ forall i mod',
       nth_error mods i = Some mod' ->
       nth_error (fst (renderKeys mods noCounts)) i
       = Some (renderKey (hash mod')
                 (Z.of_nat (hashCount (hash mod') (firstn i mods)))).
Proof.
  split; [|split].
  - apply renderKeys_NoDup. intros h. unfold countAt, noCounts. lia.
  - apply renderKeys_length.
  - intros i mod' Hi. now rewrite (renderKeys_nth mods noCounts i Hi).
Qed.

(** The third of three mods, of the hash of the first. *)
Lemma render_keys_are_unique_witness :
  nth_error
    (fst (renderKeys [Example.generalMod; Example.helmetMod;
                      Example.generalMod] noCounts)) 2
  = Some (renderKey 1 1).
Proof.
  apply (proj2 (proj2 (render_keys_are_unique
                         [Example.generalMod; Example.helmetMod;
                          Example.generalMod])) 2 Example.generalMod).
  reflexivity.
Defined.

(** X13.  After the render of a list of mods with a fresh counts object,
    the object holds, for every hash of the list, the number of mods of
    that hash, and no property for another hash. *)
Theorem render_counts_the_mods_of_each_hash (mods : list Mod) (h : Z) :
  snd (renderKeys mods noCounts) h
  = if Nat.eqb (hashCount h mods) 0
    then None
    else Some (Z.of_nat (hashCount h mods)).
Proof. rewrite renderKeys_counts. reflexivity. Qed.

(** X14.  A counts object that is used for a second render of the same
    mods gives other keys than the first render gave: no key of the
    second render is a key of the first. *)
Theorem reused_counts_change_every_key (mods : list Mod) :
  let first := renderKeys mods noCounts in
  let second := renderKeys mods (snd first) in
  forall key, In key (fst first) -> ~ In key (fst second).
Proof.
  intros first second key H1 H2. subst first second.
  apply In_nth_error in H1. destruct H1 as [i Hi].
  assert (Hlt : i < List.length mods).
  { rewrite <- (renderKeys_length mods noCounts).
    apply nth_error_Some. congruence. }
  destruct (nth_error mods i) as [m|] eqn:Em;
    [|apply nth_error_None in Em; lia].
  rewrite (renderKeys_nth mods noCounts i Em) in Hi. injection Hi as <-.
  apply renderKeys_form in H2.
  - destruct H2 as (h & n & E & Hle).
    assert (Hn0 : (0 <= countAt (snd (renderKeys mods noCounts)) h)%Z).
    { unfold countAt. rewrite renderKeys_counts.
      destruct (Nat.eqb (hashCount h mods) 0); simpl; lia. }
    apply renderKey_inj in E; [|unfold countAt, noCounts; simpl; lia|lia].
    destruct E as [<- <-].
    unfold countAt in Hle. rewrite renderKeys_counts in Hle.
    assert (Hc : hashCount (hash m) (firstn i mods)
                 < hashCount (hash m) mods).
    { rewrite <- (firstn_skipn i mods) at 2.
      unfold hashCount. rewrite filter_app, length_app.
      assert (Hs : exists rest, skipn i mods = m :: rest).
      { clear - Em. revert i Em.
        induction mods as [|x mods IH]; intros [|i] Em; simpl in *;
          try discriminate.
        - injection Em as ->. eauto.
        - now apply IH. }
      destruct Hs as [rest ->]. simpl. rewrite Z.eqb_refl. simpl. lia. }
    destruct (Nat.eqb_spec (hashCount (hash m) mods) 0) as [E0|E0];
      [lia|].
    unfold noCounts in Hle. simpl in Hle. lia.
  - intros h. unfold countAt. rewrite renderKeys_counts.
    destruct (Nat.eqb (hashCount h mods) 0); simpl; lia.
Qed.

(** The first key of a second render with the same counts object. *)
Lemma reused_counts_change_every_key_witness :
  ~ In (renderKey 1 0)
       (fst (renderKeys [Example.generalMod]
               (snd (renderKeys [Example.generalMod] noCounts)))).
Proof.
  apply (@reused_counts_change_every_key [Example.generalMod]).
  left. reflexivity.
Defined.

(** ** The sort key of the known plug categories *)

Lemma indexOf_range (l : list Z) (x : Z) :
  indexOf l x = (-1)%Z
  \/ (0 <= indexOf l x < Z.of_nat (List.length l))%Z.
Proof.
  induction l as [|y l IH]; simpl; [now left|].
  destruct (Z.eqb y x); [right; lia|].
  destruct (Z.eqb_spec (indexOf l x) (-1)); [now left | right; lia].
Qed.

Lemma indexOf_absent (l : list Z) (x : Z) :
  indexOf l x = (-1)%Z <-> ~ In x l.
Proof.
  induction l as [|y l IH]; simpl; [tauto|].
  destruct (Z.eqb_spec y x) as [->|Hne].
  - split; [discriminate | intros H; exfalso; apply H; now left].
  - pose proof (indexOf_range l x) as Hr.
    destruct (Z.eqb_spec (indexOf l x) (-1)) as [E|E].
    + split; [|reflexivity]. intros _ [H|H]; [congruence|].
      now apply IH in E.
    + split; [lia|]. intros H. exfalso. apply E, IH. tauto.
Qed.

Lemma indexOf_first (l : list Z) (x : Z) :
  In x l ->
  nth_error l (Z.to_nat (indexOf l x)) = Some x
  /\ forall j, j < Z.to_nat (indexOf l x) -> nth_error l j <> Some x.
Proof.
  induction l as [|y l IH]; simpl; [contradiction|].
  destruct (Z.eqb_spec y x) as [->|Hne].
  - intros _. simpl. split; [reflexivity | intros j Hj; lia].
  - intros [H|H]; [congruence|].
    destruct (IH H) as [Hnth Hfirst].
    pose proof (indexOf_range l x) as Hr.
    destruct (Z.eqb_spec (indexOf l x) (-1)) as [E|E].
    + apply indexOf_absent in E. contradiction.
    + replace (Z.to_nat (indexOf l x + 1)) with (S (Z.to_nat (indexOf l x)))
        by lia.
      simpl. split; [exact Hnth|].
      intros [|j] Hj; simpl; [congruence|]. apply Hfirst. lia.
Qed.

(** X15.  The first sort key of a mod is the position of the first
    occurrence of its plug category in the table of known categories, and
    the length of the table when the category is not in it: a known
    category sorts strictly before every unknown one, and all unknown
    categories have the same key. *)
Theorem known_categories_sort_before_unknown_ones
    (knownModPlugCategoryHashes : list Z) (known unknown : Z) :
  In known knownModPlugCategoryHashes ->
  ~ In unknown knownModPlugCategoryHashes ->
  knownIndexKey knownModPlugCategoryHashes unknown
  = Z.of_nat (List.length knownModPlugCategoryHashes)
  /\ (0 <= knownIndexKey knownModPlugCategoryHashes known
      < knownIndexKey knownModPlugCategoryHashes unknown)%Z
  /\ nth_error knownModPlugCategoryHashes
       (Z.to_nat (knownIndexKey knownModPlugCategoryHashes known))
     = Some known
  /\ forall j,
       j < Z.to_nat (knownIndexKey knownModPlugCategoryHashes known) ->
       nth_error knownModPlugCategoryHashes j <> Some known.
Proof.
  intros Hin Hnin. unfold knownIndexKey.
  apply indexOf_absent in Hnin. rewrite Hnin. simpl.
  pose proof (indexOf_range knownModPlugCategoryHashes known) as Hr.
  destruct (Z.eqb_spec (indexOf knownModPlugCategoryHashes known) (-1))
    as [E|E].
  - apply indexOf_absent in E. contradiction.
  - destruct (indexOf_first _ _ Hin) as [Hnth Hfirst].
    split; [reflexivity|]. split; [lia|]. split; assumption.
Qed.

(** The keys of a table of three categories. *)
Lemma known_categories_sort_before_unknown_ones_witness :
  knownIndexKey [5; 7; 9]%Z 8 = 3%Z
  /\ (0 <= knownIndexKey [5; 7; 9]%Z 7 < knownIndexKey [5; 7; 9]%Z 8)%Z
  /\ nth_error [5; 7; 9]%Z (Z.to_nat (knownIndexKey [5; 7; 9]%Z 7))
     = Some 7%Z
  /\ forall j,
       j < Z.to_nat (knownIndexKey [5; 7; 9]%Z 7) ->
       nth_error [5; 7; 9]%Z j <> Some 7%Z.
Proof.
  apply (@known_categories_sort_before_unknown_ones [5; 7; 9]%Z 7%Z 8%Z).
  - simpl. auto.
  - simpl. intros [H|[H|[H|[]]]]; discriminate.
Defined.

(** ** Every assigned mod passed its check *)

Lemma snoc_split (A : Type) (old before after : list A) (x m : A) :
  old ++ [x] = before ++ m :: after ->
  (after = [] /\ before = old /\ m = x)
  \/ exists after', after = after' ++ [x] /\ old = before ++ m :: after'.
Proof.
  intros E. destruct (exists_last (l := m :: after)) as [l' [y Ey]];
    [discriminate|].
  rewrite Ey, app_assoc in E. apply app_inj_tail in E.
  destruct E as [E <-]. destruct after as [|z after].
  - left. destruct l' as [|? [|? ?]]; simpl in Ey; try discriminate.
    injection Ey as ->. rewrite app_nil_r in E. auto.
  - right. destruct (exists_last (l := z :: after)) as [l2 [y2 Ey2]];
      [discriminate|].
    rewrite Ey2 in Ey. rewrite app_comm_cons in Ey.
    apply app_inj_tail in Ey. destruct Ey as [<- ->].
    exists l2. split; [exact Ey2 | exact E].
Qed.

Section AssignedPassed.

Context {C : Collaborators}.

Lemma divideMod_assigned_were_valid defs tier lock items p mod' :
  (forall itemId before m after,
      assignedAt (bucketSpecificAssignments p) itemId = before ++ m :: after ->
      exists item,
        findItemForMod items m = Some item /\ id item = itemId
        /\ isBucketSpecificModValid defs tier lock item m before = true) ->
  forall itemId before m after,
    assignedAt
      (bucketSpecificAssignments (divideMod defs tier lock items p mod'))
      itemId
    = before ++ m :: after ->
    exists item,
      findItemForMod items m = Some item /\ id item = itemId
      /\ isBucketSpecificModValid defs tier lock item m before = true.
Proof.
  intros Hp itemId before m after. unfold divideMod.
  destruct (Z.eqb _ _); [apply Hp|].
  destruct (includes combatCompatiblePlugCategoryHashes _); [apply Hp|].
  destruct (includes activityModPlugCategoryHashes _); [apply Hp|].
  destruct (findItemForMod items mod') as [itemForMod|] eqn:Efind;
    [|apply Hp].
  simpl bucketSpecificAssignments.
  destruct (isBucketSpecificModValid defs tier lock itemForMod mod'
              (assignedAt (bucketSpecificAssignments p) (id itemForMod)))
    eqn:Evalid.
  - destruct (string_dec itemId (id itemForMod)) as [->|Hne].
    + rewrite assignedAt_pushAssigned. unfold assignedAt in Evalid.
      destruct (JsMap.get (id itemForMod) (bucketSpecificAssignments p))
        as [a|] eqn:Eget.
      * intros E. apply snoc_split in E.
        destruct E as [(-> & -> & ->)|[after' [-> E]]].
        -- exists itemForMod. auto.
        -- apply (Hp (id itemForMod) before m after').
           unfold assignedAt. now rewrite Eget.
      * intros E. destruct before; discriminate.
    + rewrite assignedAt_pushAt_other by exact Hne. apply Hp.
  - rewrite assignedAt_pushUnassigned. apply Hp.
Qed.

(** X16.  The bucket specific pass is first come, first served: every mod
    in an assigned list was valid, for the first item with a bucket of its
    category, against exactly the mods that precede it in the list. *)
Theorem bucket_specific_assigned_mods_were_valid
    (items : list DimItem) (mods : list Mod) (defs : D2ManifestDefinitions)
    (upgradeSpendTier : UpgradeSpendTier) (lockItemEnergyType : bool)
    (itemId : string) (before after : list Mod) (mod' : Mod) :
  assignedAt
    (bucketSpecificAssignments
       (divideMods defs upgradeSpendTier lockItemEnergyType items mods))
    itemId
  = before ++ mod' :: after ->
  exists item,
    findItemForMod items mod' = Some item /\ id item = itemId
    /\ isBucketSpecificModValid defs upgradeSpendTier lockItemEnergyType
         item mod' before
       = true.
Proof.
  unfold divideMods. revert itemId before mod' after.
  assert (G : forall p,
             (forall itemId before m after,
                 assignedAt (bucketSpecificAssignments p) itemId
                 = before ++ m :: after ->
                 exists item,
                   findItemForMod items m = Some item /\ id item = itemId
                   /\ isBucketSpecificModValid defs upgradeSpendTier
                        lockItemEnergyType item m before = true) ->
             forall itemId before m after,
               assignedAt
                 (bucketSpecificAssignments
                    (fold_left
                       (divideMod defs upgradeSpendTier lockItemEnergyType
                          items) mods p))
                 itemId
               = before ++ m :: after ->
               exists item,
                 findItemForMod items m = Some item /\ id item = itemId
                 /\ isBucketSpecificModValid defs upgradeSpendTier
                      lockItemEnergyType item m before = true).
  { induction mods as [|x mods IH]; intros p Hp; simpl; [exact Hp|].
    apply IH. now apply divideMod_assigned_were_valid. }
  intros itemId before mod' after. apply G.
  intros k b m a. simpl. rewrite assignedAt_initial.
  intros E. destruct b; discriminate.
Qed.

Ltac split_assigned :=
  match goal with
  | E : _ = ?before ++ _ :: _ |- _ =>
      destruct before as [|? [|? [|? ?]]]; simpl in E;
      try discriminate E; injection E as E; subst;
      repeat match goal with
             | H : _ :: _ = _ :: _ |- _ => injection H as H; subst
             | H : [] = _ ++ _ :: _ |- _ =>
                 apply app_cons_not_nil in H; contradiction
             | H : [] = _ :: _ |- _ => discriminate H
             | H : _ :: _ = [] |- _ => discriminate H
             end
  end.

Lemma slotAssignments_assigned_were_valid e md a c g before m after :
  assigned (slotAssignments e md a c g) = before ++ m :: after ->
  isModEnergyValid e m before = true.
Proof.
  unfold slotAssignments.
  destruct a as [a|];
    [destruct (isActivityModValid a md e) eqn:Ea;
     [apply andb_true_iff in Ea; destruct Ea as [Ea _]|]|];
    (destruct c as [c|];
     [match goal with
      | |- context [isCombatModValid ?x ?y ?z ?w] =>
          destruct (isCombatModValid x y z w) eqn:Ec;
          [apply andb_true_iff in Ec; destruct Ec as [Ec _]|]
      end|]);
    (destruct g as [g|];
     [match goal with
      | |- context [isModEnergyValid ?x ?y ?z] =>
          destruct (isModEnergyValid x y z) eqn:Eg
      end|]);
    simpl in *; intros E; split_assigned; assumption.
Qed.

(** X17.  Every mod that the winner of the search assigns to a slot passed
    the energy check of the slot against exactly the mods assigned before
    it in that slot. *)
Theorem search_assigned_mods_passed_the_energy_check
    (items : list DimItem) (mods : list Mod) (defs : D2ManifestDefinitions)
    (upgradeSpendTier : UpgradeSpendTier) (lockItemEnergyType : bool) :
  let pools :=
    divideMods defs upgradeSpendTier lockItemEnergyType items mods in
  let env :=
    searchEnv defs upgradeSpendTier lockItemEnergyType items pools in
  exists best,
    searchWinner defs upgradeSpendTier lockItemEnergyType items mods = Ok best
    /\ Forall (fun kv =>
                 forall before m after,
                   assigned (snd kv) = before ++ m :: after ->
                   exists e,
                     JsMap.get (fst kv) (itemEnergies env) = Some e
                     /\ isModEnergyValid e m before = true)
              (bucketIndependentAssignments best).
Proof.
  intros pools env.
  destruct (searchWinner_defined defs upgradeSpendTier lockItemEnergyType
              items mods) as [best Hbest].
  exists best. split; [exact Hbest|].
  unfold searchWinner in Hbest. rewrite searchLoop_triples in Hbest.
  apply fold_first_best in Hbest; [|apply searchEnv_covers].
  fold pools in Hbest. fold env in Hbest.
  apply Forall_forall. intros kv Hin before m after E.
  destruct Hbest as [[-> _]|(bef & [[ap cp] gp] & aft & _ & Hc & _)].
  - simpl in Hin. apply initialAssignments_entries in Hin.
    rewrite Hin in E. simpl in E. destruct before; discriminate.
  - unfold candidateFor in Hc. simpl in Hc.
    apply bind_Ok_inv in Hc. destruct Hc as [slots [Hslots Hc]].
    apply bind_Ok_inv in Hc. destruct Hc as [energy [_ [= <-]]].
    simpl in Hin. apply In_recordAll in Hin. destruct Hin as [Hin|[]].
    destruct (slotsFrom_entries _ _ _ _ _ _ Hslots kv Hin)
      as [j [item (Hitem & Hk & Hslot)]].
    unfold slotOf in Hslot. rewrite Hk.
    destruct (JsMap.get (id item) (itemEnergies env)) as [e|] eqn:Eg.
    + exists e. split; [reflexivity|].
      rewrite assignSlot_Some in Hslot. injection Hslot as Hslot.
      rewrite <- Hslot in E.
      eapply slotAssignments_assigned_were_valid; eauto.
    + apply assignSlot_None in Hslot. destruct Hslot as (_ & _ & _ & Hv).
      rewrite Hv in E. simpl in E. destruct before; discriminate.
Qed.

End AssignedPassed.

(** The helmet mod assigned first to the helmet was valid against no
    earlier mod. *)
Lemma bucket_specific_assigned_mods_were_valid_witness :
  let C := Example.collaborators 1 in
  exists item,
    findItemForMod [Example.helmet] Example.helmetMod = Some item
    /\ id item = "helmet"%string
    /\ isBucketSpecificModValid tt 10%Z false item Example.helmetMod [] = true.
Proof.
  intros C.
  apply (@bucket_specific_assigned_mods_were_valid C [Example.helmet]
           [Example.helmetMod; Example.generalMod] tt 10%Z false
           "helmet"%string [] [] Example.helmetMod).
  reflexivity.
Defined.
